(** * skeledom: Lexer -> Parser -> Handler pipeline and tree traversal

    A shallow embedding of [src/unnamed/part_000] (the Lexer),
    [src/lib/Parser.js], [src/lib/Handler.js] and [src/unnamed/part_001]
    (the two traversal generators), followed by the properties proved of
    them.

    Conventions of the embedding.
    - A JavaScript string is a [string] whose characters are read as the
      code units 0..255 (the Latin-1 block, which [toLowerCase] and [trim]
      map into itself); [charCodeAt] is the character's code as a [Z].
    - The Lexer calls [this.parser.onX?.(..)] and the Parser calls
      [this.handler.onX?.(..)] synchronously and never reads anything
      back, so each stage records the calls it makes, in order, in a log
      ([Lexer.parser], [Parser.handler]) and the next stage consumes the
      log call by call.
    - An array used as a stack through [push], [pop] and [at(-1)]
      ([Parser.stack], [Handler.ancestry]) is a list whose head is the
      top of the stack, i.e. the array's last element.  Arrays that are
      indexed or iterated ([children]) keep the array's order.
    - Objects with identity (the nodes) live in a store, a list indexed
      by allocation order; a reference is an index into it.
    - A thrown [TypeError] is the result [None]. *)

From Stdlib Require Import ZArith String Ascii Bool Lia.
From stdpp Require Import list strings sorting.

Local Open Scope Z_scope.
#[local] Set Warnings "-register-all".

(** ** JavaScript string primitives used by the sources *)

Module JS.

Definition code (c : ascii) : Z := Z.of_N (N_of_ascii c).

Definition chr (n : Z) : ascii := ascii_of_N (Z.to_N n).

Definition len (s : string) : Z := Z.of_nat (String.length s).

(** [s.charCodeAt(i)]; [None] is [NaN]. *)
Definition charCodeAt (s : string) (i : Z) : option Z :=
  if i <? 0 then None else code <$> String.get (Z.to_nat i) s.

(** Relative index of [slice]: negative counts from the end, then clamp. *)
Definition relative (n i : Z) : Z :=
  if i <? 0 then Z.max (n + i) 0 else Z.min i n.

(** [s.slice(start, end)] *)
Definition slice (s : string) (start end_ : Z) : string :=
  let from := relative (len s) start in
  let to := relative (len s) end_ in
  String.substring (Z.to_nat from) (Z.to_nat (Z.max (to - from) 0)) s.

(** Upper-case letters of the Latin-1 block: A-Z and U+00C0..U+00DE
    without the multiplication sign U+00D7. *)
Definition isUpper (c : ascii) : bool :=
  let n := code c in
  ((65 <=? n) && (n <=? 90)) || ((192 <=? n) && (n <=? 222) && negb (n =? 215)).

Definition lower (c : ascii) : ascii :=
  if isUpper c then chr (code c + 32) else c.

(** [s.toLowerCase()] *)
Fixpoint toLowerCase (s : string) : string :=
  match s with
  | EmptyString => EmptyString
  | String c r => String (lower c) (toLowerCase r)
  end.

(** White space and line terminators below U+0100, as [trim] and the
    regular expression class [\s] see them. *)
Definition isSpace (c : ascii) : bool :=
  let n := code c in
  ((9 <=? n) && (n <=? 13)) || (n =? 32) || (n =? 160).

Fixpoint trimStart (s : string) : string :=
  match s with
  | EmptyString => EmptyString
  | String c r => if isSpace c then trimStart r else s
  end.

Fixpoint trimEnd (s : string) : string :=
  match s with
  | EmptyString => EmptyString
  | String c r =>
      match trimEnd r with
      | EmptyString => if isSpace c then EmptyString else String c EmptyString
      | r' => String c r'
      end
  end.

Definition trim (s : string) : string := trimEnd (trimStart s).

(** [parts.join('')] *)
Definition join (parts : list string) : string :=
  String.concat EmptyString parts.

(** [s.split(/\s+/)]: [cur] is the piece being read, [run] tells that
    the previous character belonged to a separator. *)
Fixpoint splitFrom (cur : string) (run : bool) (s : string) : list string :=
  match s with
  | EmptyString => [cur]
  | String c r =>
      if isSpace c
      then if run then splitFrom cur true r
           else cur :: splitFrom EmptyString true r
      else splitFrom (cur +:+ String c EmptyString) false r
  end.

Definition splitWhitespace (s : string) : list string :=
  splitFrom EmptyString false s.

(** [new Set(items)]: insertion order, first occurrence kept. *)
Definition newSet (items : list string) : list string := remove_dups items.

End JS.

(** ** Lexer ([src/unnamed/part_000]) *)

Module Character.
Definition LESS_THAN : Z := 0x3c.
Definition SLASH : Z := 0x2f.
Definition GREATER_THAN : Z := 0x3e.
Definition EQUALS : Z := 0x3d.
Definition QUOTATION_MARK : Z := 0x22.
Definition APOSTROPHE : Z := 0x27.
Definition QUESTION_MARK : Z := 0x3f.
Definition EXCLAIMATION_MARK : Z := 0x21.
Definition DASH : Z := 0x2d.
Definition OPEN_BRACKET : Z := 0x5b.
Definition CLOSE_BRACKET : Z := 0x5d.
Definition AMPERSAND : Z := 0x26.
Definition NUMBER : Z := 0x23.
Definition SEMI_COLON : Z := 0x3b.
Definition LOWERCASE_A : Z := 0x61.
Definition LOWERCASE_Z : Z := 0x7a.
Definition ZERO : Z := 0x30.
Definition NINE : Z := 0x39.
Definition SPACE : Z := 0x20.
End Character.

Definition isAlphabetic (char : Z) : bool :=
  let char := Z.lor char Character.SPACE in
  (Character.LOWERCASE_A <=? char) && (char <=? Character.LOWERCASE_Z).

Definition isAlphanumeric (char : Z) : bool :=
  isAlphabetic char || ((Character.ZERO <=? char) && (char <=? Character.NINE)).

Definition isWhitespace (char : Z) : bool := char <=? Character.SPACE.

(** The [Uint8Array] constants. *)
Module Sequence.
Definition STYLE : list Z := [0x73; 0x74; 0x79; 0x6c; 0x65].
Definition SCRIPT : list Z := [0x73; 0x63; 0x72; 0x69; 0x70; 0x74].
Definition TITLE : list Z := [0x74; 0x69; 0x74; 0x6c; 0x65].
Definition TEXT_AREA : list Z := [0x74; 0x65; 0x78; 0x74; 0x61; 0x72; 0x65; 0x61].
Definition XMP : list Z := [0x78; 0x6d; 0x70].
Definition CDATA : list Z := [0x43; 0x44; 0x41; 0x54; 0x41].
Definition DOCTYPE : list Z := [0x64; 0x6F; 0x63; 0x74; 0x79; 0x70; 0x65].

(** [sequence[i]]; [None] is [undefined]. *)
Definition at_ (sequence : list Z) (i : Z) : option Z :=
  if i <? 0 then None else sequence !! Z.to_nat i.

Definition length (sequence : list Z) : Z := Z.of_nat (List.length sequence).

(** [char === sequence[i]] *)
Definition eqAt (char : Z) (sequence : list Z) (i : Z) : bool :=
  match at_ sequence i with
  | Some v => char =? v
  | None => false
  end.
End Sequence.

Inductive Quote := SINGLE | DOUBLE | NULLUM.

(** The calls the Lexer makes on its parser (the [Parser] typedef of the
    Lexer's file).  [onStartTagClose] is once called with two arguments;
    no implementation takes any, so they are not recorded. *)
Module ParserCall.
Inductive t :=
| onText (start end_ : Z)
| onTextEntity (start end_ : Z)
| onTextEnd
| onStartTagName (start end_ : Z)
| onAttributeName (start end_ : Z)
| onAttributeValue (start end_ : Z)
| onAttributeEntity (start end_ : Z)
| onAttributeEnd (quote : option Quote)
| onSelfClosingTag
| onStartTagClose
| onEndTagName (start end_ : Z)
| onComment (start end_ : Z)
| onCDATA (start end_ : Z)
| onDeclaration (start end_ : Z)
| onDirective (start end_ : Z).
End ParserCall.

Module Lexer.
Import ParserCall.

(** The state methods; [this.state] holds one of them. *)
Inductive State :=
| PAGE | TEXT | BEFORE_TEXT_ENTITY | TEXT_ENTITY
| RAW_TEXT | RAW_TEXT_END_OPEN
| START_TAG_OPEN | START_TAG_NAME
| S_SEQUENCE_START | T_SEQUENCE_START
| START_SEQUENCE_MATCH | END_SEQUENCE_MATCH
| EXCLAIMATION
| COMMENT_START | COMMENT | COMMENT_END_OPEN | COMMENT_END | COMMENT_END_CLOSE
| CDATA_START | CDATA | CDATA_END_OPEN | CDATA_END
| DECLARATION | DASHLESS_COMMENT
| DIRECTIVE | DIRECTIVE_END
| BEFORE_ATTRIBUTE_NAME | ATTRIBUTE_NAME | AFTER_ATTRIBUTE_NAME
| BEFORE_ATTRIBUTE_VALUE
| DQ_ATTRIBUTE_VALUE | SQ_ATTRIBUTE_VALUE | NQ_ATTRIBUTE_VALUE
| BEFORE_ATTRIBUTE_ENTITY | ATTRIBUTE_ENTITY
| SELF_CLOSING_TAG
| END_TAG_OPEN | END_TAG_NAME | AFTER_END_TAG_NAME.

Record t := mk {
  parser : list ParserCall.t;     (* calls made on this.parser so far *)
  previous : option State;      (* null | state *)
  next : option State;
  state : State;
  index : Z;
  sectionStart : Z;
  sequence : option (list Z);
  sequenceIndex : Z
}.

Definition call (c : ParserCall.t) (this : t) : t :=
  mk (parser this ++ [c]) (previous this) (next this) (state this)
     (index this) (sectionStart this) (sequence this) (sequenceIndex this).
Definition set_previous (v : option State) (this : t) : t :=
  mk (parser this) v (next this) (state this)
     (index this) (sectionStart this) (sequence this) (sequenceIndex this).
Definition set_next (v : option State) (this : t) : t :=
  mk (parser this) (previous this) v (state this)
     (index this) (sectionStart this) (sequence this) (sequenceIndex this).
Definition set_state (v : State) (this : t) : t :=
  mk (parser this) (previous this) (next this) v
     (index this) (sectionStart this) (sequence this) (sequenceIndex this).
Definition set_index (v : Z) (this : t) : t :=
  mk (parser this) (previous this) (next this) (state this)
     v (sectionStart this) (sequence this) (sequenceIndex this).
Definition set_sectionStart (v : Z) (this : t) : t :=
  mk (parser this) (previous this) (next this) (state this)
     (index this) v (sequence this) (sequenceIndex this).
Definition set_sequence (v : option (list Z)) (this : t) : t :=
  mk (parser this) (previous this) (next this) (state this)
     (index this) (sectionStart this) v (sequenceIndex this).
Definition set_sequenceIndex (v : Z) (this : t) : t :=
  mk (parser this) (previous this) (next this) (state this)
     (index this) (sectionStart this) (sequence this) v.

(** [reset()] *)
Definition reset : t :=
  mk [] None None PAGE 0 0 None 0.

(** [this.state = s] where [s] may be null: the next read of the state,
    the call [this.state(char)] or [this.state.name] in the loop of
    [write], throws. *)
Definition enter (s : option State) (this : t) : option t :=
  match s with
  | Some s => Some (set_state s this)
  | None => None
  end.

(** [this.state = this.sequence ? this.RAW_TEXT : this.PAGE] *)
Definition afterStartTag (this : t) : t :=
  set_state (if sequence this is Some _ then RAW_TEXT else PAGE) this.

(** [if (cond) { calls }] on the log. *)
Definition when (cond : bool) (f : t -> t) (this : t) : t :=
  if cond then f this else this.

Section States.
(** [this.state(char)], the dynamic dispatch on the current state. *)
Variable redispatch : t -> Z -> option t.

Definition PAGE_ (this : t) (char : Z) : option t :=
  if isWhitespace char then Some this
  else if char =? Character.LESS_THAN then
    Some (set_sectionStart (index this) (set_state START_TAG_OPEN this))
  else if char =? Character.AMPERSAND then
    Some (set_state BEFORE_TEXT_ENTITY this)
  else Some (set_state TEXT this).

Definition TEXT_ (this : t) (char : Z) : option t :=
  if char =? Character.LESS_THAN then Some (set_state START_TAG_OPEN this)
  else if char =? Character.AMPERSAND then Some (set_state BEFORE_TEXT_ENTITY this)
  else Some this.

Definition BEFORE_TEXT_ENTITY_ (this : t) (char : Z) : option t :=
  if isAlphanumeric char || (char =? Character.NUMBER) then
    let this :=
      when (negb (sectionStart this =? index this - 1))
           (call (onText (sectionStart this) (index this - 1))) this in
    Some (set_sectionStart (index this) (set_state TEXT_ENTITY this))
  else redispatch (set_state TEXT this) char.

Definition TEXT_ENTITY_ (this : t) (char : Z) : option t :=
  if isAlphanumeric char then Some this
  else
    let this := call (onTextEntity (sectionStart this) (index this)) this in
    let this := set_state TEXT this in
    if char =? Character.SEMI_COLON then
      Some (set_sectionStart (index this + 1) this)
    else redispatch (set_sectionStart (index this) this) char.

Definition RAW_TEXT_ (this : t) (char : Z) : option t :=
  if char =? Character.LESS_THAN then Some (set_state RAW_TEXT_END_OPEN this)
  else Some this.

Definition RAW_TEXT_END_OPEN_ (this : t) (char : Z) : option t :=
  if char =? Character.SLASH then
    Some (set_sequenceIndex 0 (set_state END_SEQUENCE_MATCH this))
  else redispatch (set_state RAW_TEXT this) char.

(** The tail of START_TAG_OPEN shared by the branches that fall
    through: emit the pending text, then move the section start. *)
Definition START_TAG_OPEN_tail (this : t) : t :=
  let this :=
    when (negb (sectionStart this =? index this - 1))
         (fun this => call onTextEnd
            (call (onText (sectionStart this) (index this - 1)) this)) this in
  set_sectionStart (index this) this.

Definition START_TAG_OPEN_ (this : t) (char : Z) : option t :=
  if char =? Character.SLASH then Some (set_state END_TAG_OPEN this)
  else if isAlphabetic char then
    let sequenced (this : t) : t :=
      set_next (Some START_TAG_NAME) (set_previous (Some START_TAG_NAME) this) in
    let this :=
      if Sequence.eqAt char Sequence.SCRIPT 0 then
        sequenced (set_state S_SEQUENCE_START this)
      else if Sequence.eqAt char Sequence.TEXT_AREA 0 then
        sequenced (set_state T_SEQUENCE_START this)
      else if Sequence.eqAt char Sequence.XMP 0 then
        sequenced (set_sequenceIndex 1
          (set_sequence (Some Sequence.XMP) (set_state START_SEQUENCE_MATCH this)))
      else set_state START_TAG_NAME this in
    Some (START_TAG_OPEN_tail this)
  else if char =? Character.EXCLAIMATION_MARK then
    Some (START_TAG_OPEN_tail (set_state EXCLAIMATION this))
  else if char =? Character.QUESTION_MARK then
    Some (START_TAG_OPEN_tail (set_state DIRECTIVE this))
  else redispatch (set_state TEXT this) char.

Definition START_TAG_NAME_ (this : t) (char : Z) : option t :=
  if isWhitespace char then
    Some (set_state BEFORE_ATTRIBUTE_NAME
            (call (onStartTagName (sectionStart this) (index this)) this))
  else if char =? Character.GREATER_THAN then
    let this := call (onStartTagName (sectionStart this) (index this)) this in
    let this := call onStartTagClose this in
    Some (set_sectionStart (index this + 1) (afterStartTag this))
  else if char =? Character.SLASH then
    Some (set_state SELF_CLOSING_TAG
            (call (onStartTagName (sectionStart this) (index this)) this))
  else Some this.

Definition S_SEQUENCE_START_ (this : t) (char : Z) : option t :=
  let char := Z.lor char Character.SPACE in
  if Sequence.eqAt char Sequence.SCRIPT 1 then
    Some (set_sequenceIndex 2 (set_state START_SEQUENCE_MATCH
            (set_sequence (Some Sequence.SCRIPT) this)))
  else if Sequence.eqAt char Sequence.STYLE 1 then
    Some (set_sequenceIndex 2 (set_state START_SEQUENCE_MATCH
            (set_sequence (Some Sequence.STYLE) this)))
  else redispatch (set_state START_TAG_NAME this) char.

Definition T_SEQUENCE_START_ (this : t) (char : Z) : option t :=
  let char := Z.lor char Character.SPACE in
  if Sequence.eqAt char Sequence.TEXT_AREA 1 then
    Some (set_sequenceIndex 2 (set_state START_SEQUENCE_MATCH
            (set_sequence (Some Sequence.TEXT_AREA) this)))
  else if Sequence.eqAt char Sequence.TITLE 1 then
    Some (set_sequenceIndex 2 (set_state START_SEQUENCE_MATCH
            (set_sequence (Some Sequence.TITLE) this)))
  else redispatch (set_state START_TAG_NAME this) char.

Definition START_SEQUENCE_MATCH_ (this : t) (char : Z) : option t :=
  match sequence this with
  | None => None
  | Some seq =>
      if negb (Sequence.eqAt (Z.lor char Character.SPACE) seq (sequenceIndex this)) then
        this ← enter (previous this) this;
        this ← redispatch this char;
        Some (set_sequence None this)
      else
        let this := set_sequenceIndex (sequenceIndex this + 1) this in
        if sequenceIndex this =? Sequence.length seq
        then enter (next this) this
        else Some this
  end.

Definition END_SEQUENCE_MATCH_ (this : t) (char : Z) : option t :=
  match sequence this with
  | None => None
  | Some seq =>
      if negb (Sequence.eqAt (Z.lor char Character.SPACE) seq (sequenceIndex this)) then
        redispatch (set_state RAW_TEXT this) char
      else
        let this := set_sequenceIndex (sequenceIndex this + 1) this in
        if sequenceIndex this =? Sequence.length seq then
          let stop := index this - Sequence.length seq - 1 in
          let this :=
            when (negb (sectionStart this =? stop))
                 (fun this => call onTextEnd (call (onText (sectionStart this) stop) this))
                 this in
          Some (set_sequence None
                  (set_sectionStart (index this - Sequence.length seq + 1)
                     (set_state END_TAG_NAME this)))
        else Some this
  end.

Definition EXCLAIMATION_ (this : t) (char : Z) : option t :=
  let matching (this : t) : t :=
    set_sequenceIndex 1
      (set_state START_SEQUENCE_MATCH (set_previous (Some DASHLESS_COMMENT) this)) in
  if char =? Character.DASH then Some (set_state COMMENT_START this)
  else if char =? Character.OPEN_BRACKET then
    Some (matching (set_sequence (Some Sequence.CDATA) (set_next (Some CDATA_START) this)))
  else if Sequence.eqAt (Z.lor char Character.SPACE) Sequence.DOCTYPE 0 then
    Some (matching (set_sequence (Some Sequence.DOCTYPE) (set_next (Some DECLARATION) this)))
  else Some (set_state DASHLESS_COMMENT this).

Definition COMMENT_START_ (this : t) (char : Z) : option t :=
  if char =? Character.DASH then
    Some (set_sectionStart (index this + 1) (set_state COMMENT_END this))
  else Some (set_state DASHLESS_COMMENT this).

Definition COMMENT_ (this : t) (char : Z) : option t :=
  if char =? Character.DASH then Some (set_state COMMENT_END_OPEN this)
  else Some this.

Definition COMMENT_END_OPEN_ (this : t) (char : Z) : option t :=
  if char =? Character.DASH then Some (set_state COMMENT_END this)
  else Some (set_state COMMENT this).

Definition COMMENT_END_ (this : t) (char : Z) : option t :=
  if char =? Character.GREATER_THAN then
    let this := call (onComment (sectionStart this) (index this - 2)) this in
    Some (set_sectionStart (index this + 1) (set_state PAGE this))
  else if char =? Character.EXCLAIMATION_MARK then
    Some (set_state COMMENT_END_CLOSE this)
  else redispatch (set_state COMMENT_END_OPEN this) char.

Definition COMMENT_END_CLOSE_ (this : t) (char : Z) : option t :=
  if char =? Character.GREATER_THAN then
    let this := call (onComment (sectionStart this) (index this - 3)) this in
    Some (set_sectionStart (index this + 1) (set_state PAGE this))
  else redispatch (set_state COMMENT this) char.

Definition CDATA_START_ (this : t) (char : Z) : option t :=
  if char =? Character.OPEN_BRACKET then
    Some (set_sectionStart (index this + 1) (set_state CDATA this))
  else redispatch (set_state DASHLESS_COMMENT this) char.

Definition CDATA_ (this : t) (char : Z) : option t :=
  if char =? Character.CLOSE_BRACKET then Some (set_state CDATA_END_OPEN this)
  else Some this.

Definition CDATA_END_OPEN_ (this : t) (char : Z) : option t :=
  if char =? Character.CLOSE_BRACKET then Some (set_state CDATA_END this)
  else Some (set_state CDATA this).

Definition CDATA_END_ (this : t) (char : Z) : option t :=
  if char =? Character.GREATER_THAN then
    let this := call (onCDATA (sectionStart this) (index this - 2)) this in
    Some (set_sequence None (set_sectionStart (index this + 1) (set_state PAGE this)))
  else redispatch (set_state CDATA_END_OPEN this) char.

Definition DECLARATION_ (this : t) (char : Z) : option t :=
  if char =? Character.GREATER_THAN then
    let this := call (onDeclaration (sectionStart this + 1) (index this)) this in
    Some (set_sequence None (set_sectionStart (index this + 1) (set_state PAGE this)))
  else Some this.

Definition DASHLESS_COMMENT_ (this : t) (char : Z) : option t :=
  if char =? Character.GREATER_THAN then
    let this := call (onComment (sectionStart this + 1) (index this)) this in
    Some (set_sectionStart (index this + 1) (set_state PAGE this))
  else Some this.

Definition DIRECTIVE_ (this : t) (char : Z) : option t :=
  if char =? Character.QUESTION_MARK then Some (set_state DIRECTIVE_END this)
  else if char =? Character.GREATER_THAN then
    let this := call (onDirective (sectionStart this) (index this)) this in
    Some (set_sectionStart (index this + 1) (set_state PAGE this))
  else Some this.

Definition DIRECTIVE_END_ (this : t) (char : Z) : option t :=
  if char =? Character.GREATER_THAN then
    let this := call (onDirective (sectionStart this) (index this - 1)) this in
    Some (set_sectionStart (index this + 1) (set_state PAGE this))
  else if char =? Character.QUESTION_MARK then Some this
  else Some (set_state DIRECTIVE this).

(** The end of a start tag: [onStartTagClose], the next state chosen by
    [this.sequence], the section start moved past the [>]. *)
Definition closeStartTag (this : t) : t :=
  let this := call onStartTagClose this in
  set_sectionStart (index this + 1) (afterStartTag this).

Definition BEFORE_ATTRIBUTE_NAME_ (this : t) (char : Z) : option t :=
  if isWhitespace char then Some this
  else if char =? Character.SLASH then Some (set_state SELF_CLOSING_TAG this)
  else if char =? Character.GREATER_THAN then Some (closeStartTag this)
  else Some (set_sectionStart (index this) (set_state ATTRIBUTE_NAME this)).

Definition ATTRIBUTE_NAME_ (this : t) (char : Z) : option t :=
  let named := call (onAttributeName (sectionStart this) (index this)) this in
  if char =? Character.EQUALS then Some (set_state BEFORE_ATTRIBUTE_VALUE named)
  else if isWhitespace char then Some (set_state AFTER_ATTRIBUTE_NAME named)
  else if char =? Character.GREATER_THAN then
    Some (closeStartTag (call (onAttributeEnd None) named))
  else if char =? Character.SLASH then
    Some (set_state SELF_CLOSING_TAG (call (onAttributeEnd None) named))
  else Some this.

Definition AFTER_ATTRIBUTE_NAME_ (this : t) (char : Z) : option t :=
  if isWhitespace char then Some this
  else if char =? Character.SLASH then
    Some (set_state SELF_CLOSING_TAG (call (onAttributeEnd None) this))
  else if char =? Character.GREATER_THAN then
    Some (closeStartTag (call (onAttributeEnd None) this))
  else if char =? Character.EQUALS then Some (set_state BEFORE_ATTRIBUTE_VALUE this)
  else
    Some (set_sectionStart (index this)
            (set_state ATTRIBUTE_NAME (call (onAttributeEnd None) this))).

Definition BEFORE_ATTRIBUTE_VALUE_ (this : t) (char : Z) : option t :=
  if isWhitespace char then Some this
  else if char =? Character.QUOTATION_MARK then
    Some (set_sectionStart (index this + 1) (set_state DQ_ATTRIBUTE_VALUE this))
  else if char =? Character.APOSTROPHE then
    Some (set_sectionStart (index this + 1) (set_state SQ_ATTRIBUTE_VALUE this))
  else if char =? Character.GREATER_THAN then
    let this := call onStartTagClose (call (onAttributeEnd None) this) in
    Some (set_sectionStart (index this + 1) (afterStartTag this))
  else Some (set_sectionStart (index this) (set_state NQ_ATTRIBUTE_VALUE this)).

(** [if (sectionStart !== index) { onAttributeValue; onAttributeEnd(quote) }] *)
Definition finishValue (quote : option Quote) (this : t) : t :=
  when (negb (sectionStart this =? index this))
       (fun this => call (onAttributeEnd quote)
          (call (onAttributeValue (sectionStart this) (index this)) this))
       this.

Definition DQ_ATTRIBUTE_VALUE_ (this : t) (char : Z) : option t :=
  if char =? Character.QUOTATION_MARK then
    Some (set_state BEFORE_ATTRIBUTE_NAME (finishValue (Some DOUBLE) this))
  else if char =? Character.AMPERSAND then
    Some (set_state BEFORE_ATTRIBUTE_ENTITY (set_previous (Some (state this)) this))
  else Some this.

Definition SQ_ATTRIBUTE_VALUE_ (this : t) (char : Z) : option t :=
  if char =? Character.APOSTROPHE then
    Some (set_state BEFORE_ATTRIBUTE_NAME (finishValue (Some SINGLE) this))
  else if char =? Character.AMPERSAND then
    Some (set_state BEFORE_ATTRIBUTE_ENTITY (set_previous (Some (state this)) this))
  else Some this.

Definition NQ_ATTRIBUTE_VALUE_ (this : t) (char : Z) : option t :=
  if isWhitespace char then
    Some (set_state BEFORE_ATTRIBUTE_NAME (finishValue (Some NULLUM) this))
  else if char =? Character.AMPERSAND then
    Some (set_state BEFORE_ATTRIBUTE_ENTITY (set_previous (Some (state this)) this))
  else if char =? Character.GREATER_THAN then
    Some (closeStartTag (finishValue None this))
  else Some this.

Definition BEFORE_ATTRIBUTE_ENTITY_ (this : t) (char : Z) : option t :=
  if isAlphanumeric char || (char =? Character.NUMBER) then
    let this :=
      when (negb (sectionStart this =? index this - 1))
           (call (onAttributeValue (sectionStart this) (index this - 1))) this in
    Some (set_sectionStart (index this) (set_state ATTRIBUTE_ENTITY this))
  else
    this ← enter (previous this) this;
    redispatch this char.

Definition ATTRIBUTE_ENTITY_ (this : t) (char : Z) : option t :=
  if isAlphanumeric char then Some this
  else
    let this := call (onAttributeEntity (sectionStart this) (index this)) this in
    this ← enter (previous this) this;
    if char =? Character.SEMI_COLON then
      Some (set_sectionStart (index this + 1) this)
    else redispatch (set_sectionStart (index this) this) char.

Definition SELF_CLOSING_TAG_ (this : t) (char : Z) : option t :=
  if char =? Character.GREATER_THAN then
    let this := call onStartTagClose (call onSelfClosingTag this) in
    Some (set_sectionStart (index this + 1) (set_state PAGE this))
  else if negb (isWhitespace char) then
    Some (set_sectionStart (index this) (set_state ATTRIBUTE_NAME this))
  else Some this.

Definition END_TAG_OPEN_ (this : t) (char : Z) : option t :=
  if isAlphabetic char then
    let this :=
      when (negb (sectionStart this =? index this - 2))
           (fun this => call onTextEnd
              (call (onText (sectionStart this) (index this - 2)) this)) this in
    Some (set_sectionStart (index this) (set_state END_TAG_NAME this))
  else if negb (isWhitespace char) then Some (set_state TEXT this)
  else Some this.

Definition END_TAG_NAME_ (this : t) (char : Z) : option t :=
  if char =? Character.GREATER_THAN then
    let this := call (onEndTagName (sectionStart this) (index this)) this in
    Some (set_sectionStart (index this + 1) (set_state PAGE this))
  else if isWhitespace char then
    Some (set_state AFTER_END_TAG_NAME
            (call (onEndTagName (sectionStart this) (index this)) this))
  else Some this.

Definition AFTER_END_TAG_NAME_ (this : t) (char : Z) : option t :=
  if char =? Character.GREATER_THAN then
    Some (set_sectionStart (index this + 1) (set_state PAGE this))
  else Some this.

(** The method a state value denotes. *)
Definition method (s : State) : t -> Z -> option t :=
  match s with
  | PAGE => PAGE_ | TEXT => TEXT_
  | BEFORE_TEXT_ENTITY => BEFORE_TEXT_ENTITY_ | TEXT_ENTITY => TEXT_ENTITY_
  | RAW_TEXT => RAW_TEXT_ | RAW_TEXT_END_OPEN => RAW_TEXT_END_OPEN_
  | START_TAG_OPEN => START_TAG_OPEN_ | START_TAG_NAME => START_TAG_NAME_
  | S_SEQUENCE_START => S_SEQUENCE_START_ | T_SEQUENCE_START => T_SEQUENCE_START_
  | START_SEQUENCE_MATCH => START_SEQUENCE_MATCH_
  | END_SEQUENCE_MATCH => END_SEQUENCE_MATCH_
  | EXCLAIMATION => EXCLAIMATION_
  | COMMENT_START => COMMENT_START_ | COMMENT => COMMENT_
  | COMMENT_END_OPEN => COMMENT_END_OPEN_ | COMMENT_END => COMMENT_END_
  | COMMENT_END_CLOSE => COMMENT_END_CLOSE_
  | CDATA_START => CDATA_START_ | CDATA => CDATA_
  | CDATA_END_OPEN => CDATA_END_OPEN_ | CDATA_END => CDATA_END_
  | DECLARATION => DECLARATION_ | DASHLESS_COMMENT => DASHLESS_COMMENT_
  | DIRECTIVE => DIRECTIVE_ | DIRECTIVE_END => DIRECTIVE_END_
  | BEFORE_ATTRIBUTE_NAME => BEFORE_ATTRIBUTE_NAME_
  | ATTRIBUTE_NAME => ATTRIBUTE_NAME_
  | AFTER_ATTRIBUTE_NAME => AFTER_ATTRIBUTE_NAME_
  | BEFORE_ATTRIBUTE_VALUE => BEFORE_ATTRIBUTE_VALUE_
  | DQ_ATTRIBUTE_VALUE => DQ_ATTRIBUTE_VALUE_
  | SQ_ATTRIBUTE_VALUE => SQ_ATTRIBUTE_VALUE_
  | NQ_ATTRIBUTE_VALUE => NQ_ATTRIBUTE_VALUE_
  | BEFORE_ATTRIBUTE_ENTITY => BEFORE_ATTRIBUTE_ENTITY_
  | ATTRIBUTE_ENTITY => ATTRIBUTE_ENTITY_
  | SELF_CLOSING_TAG => SELF_CLOSING_TAG_
  | END_TAG_OPEN => END_TAG_OPEN_ | END_TAG_NAME => END_TAG_NAME_
  | AFTER_END_TAG_NAME => AFTER_END_TAG_NAME_
  end.
End States.

(** [this.state(char)].  A state method calls [this.state(char)] again at
    most three deep when [previous] holds a state that does not itself
    return to [previous]; a deeper chain never ends (the call stack
    overflows), which [depth] running out stands for. *)
Fixpoint invoke (depth : nat) (this : t) (char : Z) : option t :=
  match depth with
  | O => None
  | S depth => method (invoke depth) (state this) this char
  end.

Definition depth : nat := 4.

(** The loop of [write(chunk)]:
    [do { this.state(chunk.charCodeAt(this.index)) } while (++this.index < chunk.length)]
    with [n] bounding the iterations (the output of [console.log] is not
    modelled, only that it reads [this.state.name], see [enter]).
    [end_] calls it with a non-empty chunk at index 0, so every index read
    is in range; [NaN], read out of range, is not modelled. *)
Fixpoint loop (n : nat) (chunk : string) (this : t) : option t :=
  match n with
  | O => Some this
  | S n =>
      char ← JS.charCodeAt chunk (index this);
      this ← invoke depth this char;
      let this := set_index (index this + 1) this in
      if index this <? JS.len chunk then loop n chunk this else Some this
  end.

Definition write (chunk : string) (this : t) : option t :=
  loop (String.length chunk) chunk this.

(** [end(chunk)] on a fresh Lexer, up to the call of [parser.onEnd()]:
    the calls made on the parser ([parser.buffer = chunk] aside). *)
Definition end_ (chunk : string) : option (list ParserCall.t) :=
  match chunk with
  | EmptyString => Some []
  | _ => parser <$> write chunk reset
  end.

End Lexer.

(** ** Parser ([src/lib/Parser.js]) *)

Definition pTag : list string := ["p"]%string.
Definition descriptionTags : list string := ["dd"; "dt"]%string.
Definition explainationTags : list string := ["rp"; "rt"]%string.
Definition formTags : list string :=
  ["button"; "datalist"; "input"; "optgroup"; "option"; "select"; "textarea"]%string.
Definition tableSectionTags : list string := ["thead"; "tbody"]%string.

Definition implicitClose : list (string * list string) :=
  [ ("body", ["head"; "link"; "script"]);
    ("hr", pTag);
    ("header", pTag); ("footer", pTag); ("nav", pTag); ("div", pTag);
    ("main", pTag); ("article", pTag); ("section", pTag); ("aside", pTag);
    ("p", pTag); ("h1", pTag); ("h2", pTag); ("h3", pTag); ("h4", pTag);
    ("h5", pTag); ("h6", pTag);
    ("address", pTag); ("blockquote", pTag); ("pre", pTag); ("details", pTag);
    ("dl", pTag); ("dt", descriptionTags); ("dd", descriptionTags);
    ("rt", explainationTags); ("rp", explainationTags);
    ("form", pTag); ("button", formTags); ("datalist", formTags);
    ("fieldset", pTag); ("input", formTags); ("output", formTags);
    ("optgroup", ["optgroup"; "option"]); ("option", ["option"]);
    ("select", formTags); ("textarea", formTags);
    ("table", pTag); ("tbody", tableSectionTags); ("tfoot", tableSectionTags);
    ("th", ["th"]); ("tr", ["tr"; "th"; "td"]); ("td", ["thead"; "th"; "td"]);
    ("ol", pTag); ("ul", pTag); ("li", ["li"]);
    ("figure", pTag); ("figcaption", pTag) ]%string.

Definition emptyElements : list string :=
  [ "area"; "base"; "basefont"; "br"; "col"; "command"; "embed"; "frame";
    "hr"; "img"; "input"; "isindex"; "keygen"; "link"; "meta"; "param";
    "source"; "track"; "wbr" ]%string.

(** [set.has(x)] for a [Set<string>]. *)
Definition has (set : list string) (x : string) : bool :=
  existsb (String.eqb x) set.

(** [map.get(key)] for a [Map<string, V>]. *)
Fixpoint get {V} (map : list (string * V)) (key : string) : option V :=
  match map with
  | [] => None
  | (k, v) :: rest => if String.eqb key k then Some v else get rest key
  end.

(** The calls the Parser makes on its handler (the [Handler] typedef of
    Parser.js); a tag name is [None] when it is [null]. *)
Module HandlerCall.
Inductive t :=
| onStartTag (name : option string) (attributes : list (string * string))
             (selfClosing : bool)
| onEndTag (explicit : bool)
| onText (value : string)
| onComment (value : string)
| onCDATA (value : string)
| onDeclaration (value : string)
| onDirective (value : string).
End HandlerCall.

Module Parser.
Import HandlerCall.

Record t := mk {
  handler : list HandlerCall.t;          (* calls made on this.handler so far *)
  buffer : string;
  stack : list (option string);          (* head = top *)
  text : list string;
  tagName : option string;
  attributeName : option string;
  attributeValue : list string;
  attributes : list (string * string)    (* own properties, insertion order *)
}.

Definition call (c : HandlerCall.t) (this : t) : t :=
  mk (handler this ++ [c]) (buffer this) (stack this) (text this) (tagName this)
     (attributeName this) (attributeValue this) (attributes this).
Definition set_stack (v : list (option string)) (this : t) : t :=
  mk (handler this) (buffer this) v (text this) (tagName this)
     (attributeName this) (attributeValue this) (attributes this).
Definition set_text (v : list string) (this : t) : t :=
  mk (handler this) (buffer this) (stack this) v (tagName this)
     (attributeName this) (attributeValue this) (attributes this).
Definition set_tagName (v : option string) (this : t) : t :=
  mk (handler this) (buffer this) (stack this) (text this) v
     (attributeName this) (attributeValue this) (attributes this).
Definition set_attributeName (v : option string) (this : t) : t :=
  mk (handler this) (buffer this) (stack this) (text this) (tagName this)
     v (attributeValue this) (attributes this).
Definition set_attributeValue (v : list string) (this : t) : t :=
  mk (handler this) (buffer this) (stack this) (text this) (tagName this)
     (attributeName this) v (attributes this).
Definition set_attributes (v : list (string * string)) (this : t) : t :=
  mk (handler this) (buffer this) (stack this) (text this) (tagName this)
     (attributeName this) (attributeValue this) v.

(** [stack.pop()] *)
Definition pop (this : t) : t := set_stack (tail (stack this)) this.

(** [onReset()] followed by the Lexer's [this.parser.buffer = chunk]. *)
Definition reset (chunk : string) : t :=
  mk [] chunk [] [] None None [] [].

(** [object[key] = value] on a plain object whose values are strings:
    an existing key keeps its place, and the key [__proto__] reaches the
    prototype setter, which ignores a string. *)
Fixpoint assign (object : list (string * string)) (key value : string)
  : list (string * string) :=
  match object with
  | [] => [(key, value)]
  | (k, v) :: rest =>
      if String.eqb k key then (k, value) :: rest
      else (k, v) :: assign rest key value
  end.

Definition setProperty (object : list (string * string)) (key : option string)
    (value : string) : list (string * string) :=
  let key := default "null"%string key in
  if String.eqb key "__proto__" then object else assign object key value.

Section Decoder.
(** [import decode from './Decoder.js']: the external character-reference
    table, [None] when it does not resolve the name. *)
Variable decode : string -> option string.

Definition onText (this : t) (start end_ : Z) : t :=
  set_text (text this ++ [JS.slice (buffer this) start end_]) this.

Definition onTextEntity (this : t) (start end_ : Z) : t :=
  let entity := JS.slice (buffer this) start end_ in
  set_text (text this ++ [default ("&" +:+ entity) (decode entity)]) this.

Definition onTextEnd (this : t) : t :=
  set_text [] (call (HandlerCall.onText (JS.trim (JS.join (text this)))) this).

Definition onStartTagName (this : t) (start end_ : Z) : t :=
  set_tagName (Some (JS.toLowerCase (JS.slice (buffer this) start end_))) this.

Definition onAttributeName (this : t) (start end_ : Z) : t :=
  set_attributeName (Some (JS.toLowerCase (JS.slice (buffer this) start end_))) this.

Definition onAttributeValue (this : t) (start end_ : Z) : t :=
  set_attributeValue (attributeValue this ++ [JS.slice (buffer this) start end_]) this.

Definition onAttributeEntity (this : t) (start end_ : Z) : t :=
  let entity := JS.slice (buffer this) start end_ in
  set_attributeValue (attributeValue this ++ [default ("&" +:+ entity) (decode entity)]) this.

Definition onAttributeEnd (this : t) : t :=
  let this :=
    set_attributes
      (setProperty (attributes this) (attributeName this) (JS.join (attributeValue this)))
      this in
  set_attributeValue [] (set_attributeName None this).

(** [close.has(this.stack.at(-1))]: the top is [undefined] on an empty
    stack and may be [null]. *)
Definition closes (close : list string) (stack : list (option string)) : bool :=
  match stack with
  | Some top :: _ => has close top
  | _ => false
  end.

(** [while (close.has(this.stack.at(-1))) { onEndTag(false); this.stack.pop(); }],
    by recursion on the stack it pops. *)
Fixpoint closeImplicit (close : list string) (stack : list (option string))
    (this : t) : t :=
  match stack with
  | [] => this
  | _ :: below =>
      if closes close stack
      then closeImplicit close below (pop (call (onEndTag false) this))
      else this
  end.

Definition onStartTagClose (this : t) : t :=
  let close := name ← tagName this; get implicitClose name in
  let this :=
    match close with
    | Some close => closeImplicit close (stack this) this
    | None => this
    end in
  let selfClosing :=
    match tagName this with
    | Some name => has emptyElements name
    | None => false
    end in
  let this := call (onStartTag (tagName this) (attributes this) selfClosing) this in
  let this := if negb selfClosing then set_stack (tagName this :: stack this) this else this in
  set_attributes [] (set_tagName None this).

(** Distance from the top of the nearest entry equal to [name]. *)
Fixpoint nearest (name : string) (stack : list (option string)) : option nat :=
  match stack with
  | [] => None
  | top :: below =>
      if bool_decide (top = Some name) then Some O
      else S <$> nearest name below
  end.

(** [this.stack.lastIndexOf(name)], an index into the array, bottom first. *)
Definition lastIndexOf (stack : list (option string)) (name : string) : Z :=
  match nearest name stack with
  | Some d => Z.of_nat (length stack) - 1 - Z.of_nat d
  | None => -1
  end.

(** [do { onEndTag(!distance); this.stack.pop(); } while (distance--)],
    for a distance that is not negative. *)
Fixpoint closeDistance (distance : nat) (this : t) : t :=
  let this := pop (call (onEndTag (Nat.eqb distance 0)) this) in
  match distance with
  | O => this
  | S distance => closeDistance distance this
  end.

Definition onEndTagName (this : t) (start end_ : Z) : t :=
  let name := JS.slice (buffer this) start end_ in
  if has emptyElements name then this
  else
    let distance :=
      Z.of_nat (length (stack this)) - lastIndexOf (stack this) name - 1 in
    if distance =? Z.of_nat (length (stack this)) then this
    else closeDistance (Z.to_nat distance) this.

Definition onComment (this : t) (start end_ : Z) : t :=
  call (HandlerCall.onComment (JS.trim (JS.slice (buffer this) start end_))) this.

Definition onCDATA (this : t) (start end_ : Z) : t :=
  call (HandlerCall.onCDATA (JS.trim (JS.slice (buffer this) start end_))) this.

Definition onDeclaration (this : t) (start end_ : Z) : t :=
  call (HandlerCall.onDeclaration (JS.trimEnd (JS.slice (buffer this) start end_))) this.

(** [while (this.stack.length) { onEndTag(false); this.stack.pop(); }] of
    [onEnd()], by recursion on the stack it pops; the handler's [onEnd()]
    only returns the document. *)
Fixpoint closeAll (stack : list (option string)) (this : t) : t :=
  match stack with
  | [] => this
  | _ :: below => closeAll below (pop (call (onEndTag false) this))
  end.

Definition onEnd (this : t) : t := closeAll (stack this) this.

(** One call of the Lexer, [this.parser.onX?.(..)]: the Parser defines
    neither [onSelfClosingTag] nor [onDirective], so the optional call
    does nothing for them. *)
Definition receive (this : t) (c : ParserCall.t) : t :=
  match c with
  | ParserCall.onText s e => onText this s e
  | ParserCall.onTextEntity s e => onTextEntity this s e
  | ParserCall.onTextEnd => onTextEnd this
  | ParserCall.onStartTagName s e => onStartTagName this s e
  | ParserCall.onAttributeName s e => onAttributeName this s e
  | ParserCall.onAttributeValue s e => onAttributeValue this s e
  | ParserCall.onAttributeEntity s e => onAttributeEntity this s e
  | ParserCall.onAttributeEnd _ => onAttributeEnd this
  | ParserCall.onSelfClosingTag => this
  | ParserCall.onStartTagClose => onStartTagClose this
  | ParserCall.onEndTagName s e => onEndTagName this s e
  | ParserCall.onComment s e => onComment this s e
  | ParserCall.onCDATA s e => onCDATA this s e
  | ParserCall.onDeclaration s e => onDeclaration this s e
  | ParserCall.onDirective _ _ => this
  end.

(** The Parser after the Lexer's calls on [chunk], before [onEnd()]. *)
Definition run (chunk : string) (calls : list ParserCall.t) : t :=
  foldl receive (reset chunk) calls.

End Decoder.
End Parser.

(** ** Handler and the node classes ([src/lib/Handler.js]) *)

(** The values of [Element] and [Data]. *)
Inductive Kind :=
| TAG | DOCUMENT
| TEXT | COMMENT | CDATA | DOCTYPE | DIRECTIVE.

(** Multi-valued attributes membership checker. *)
Definition Group : list string :=
  [ "class"; "rel"; "sandbox"; "accept-charset"; "headers"; "sizes";
    "accesskey"; "dropzone"; "rev"; "archive"; "for" ]%string.

(** [string | Set<string>] *)
Inductive AttributeValue :=
| Plain (value : string)
| Tokens (set : list string).

(** A reference to a node: its index in the store. *)
Abbreviation ref := nat.

(** An instance of [Tag] or [Text]; a field the class does not declare
    is [None] ([undefined]), as is a declared field never assigned. *)
Record Node := mkNode {
  type : Kind;
  parent : option ref;
  previous : option ref;
  next : option ref;
  previousSibling : option ref;
  nextSibling : option ref;
  name : option string;                              (* Tag *)
  attributes : option (list (string * AttributeValue)); (* Tag *)
  children : option (list ref);                      (* Tag *)
  tail : option ref;                                 (* Tag *)
  value : option string                              (* Text *)
}.

(** [new Tag(name, attributes, children, type)] before it is linked. *)
Definition newTag (name : option string)
    (attributes : list (string * AttributeValue)) (type : Kind) : Node :=
  mkNode type None None None None None name (Some attributes) (Some []) None None.

(** [new Text(value, type)] before it is linked. *)
Definition newText (value : string) (type : Kind) : Node :=
  mkNode type None None None None None None None None None (Some value).

Definition set_parent (v : option ref) (n : Node) : Node :=
  mkNode (type n) v (previous n) (next n) (previousSibling n) (nextSibling n)
         (name n) (attributes n) (children n) (tail n) (value n).
Definition set_previous (v : option ref) (n : Node) : Node :=
  mkNode (type n) (parent n) v (next n) (previousSibling n) (nextSibling n)
         (name n) (attributes n) (children n) (tail n) (value n).
Definition set_next (v : option ref) (n : Node) : Node :=
  mkNode (type n) (parent n) (previous n) v (previousSibling n) (nextSibling n)
         (name n) (attributes n) (children n) (tail n) (value n).
Definition set_previousSibling (v : option ref) (n : Node) : Node :=
  mkNode (type n) (parent n) (previous n) (next n) v (nextSibling n)
         (name n) (attributes n) (children n) (tail n) (value n).
Definition set_nextSibling (v : option ref) (n : Node) : Node :=
  mkNode (type n) (parent n) (previous n) (next n) (previousSibling n) v
         (name n) (attributes n) (children n) (tail n) (value n).
Definition set_children (v : option (list ref)) (n : Node) : Node :=
  mkNode (type n) (parent n) (previous n) (next n) (previousSibling n) (nextSibling n)
         (name n) (attributes n) v (tail n) (value n).
Definition set_tail (v : option ref) (n : Node) : Node :=
  mkNode (type n) (parent n) (previous n) (next n) (previousSibling n) (nextSibling n)
         (name n) (attributes n) (children n) v (value n).

(** [children.push(node)] *)
Definition push (node : ref) (n : Node) : Node :=
  set_children ((λ branch, branch ++ [node]) <$> children n) n.

Abbreviation Store := (list Node).

(** [array.at(-1)] and [array.at(-2)] *)
Definition atLast {A} (array : list A) : option A := last array.
Definition atLast2 {A} (array : list A) : option A :=
  match reverse array with
  | _ :: x :: _ => Some x
  | _ => None
  end.

(** [store[r].children], for the references and nodes that have it. *)
Definition childrenOf (store : Store) (r : ref) : option (list ref) :=
  node ← store !! r; children node.

(** [node.link(parent, previous)] for the node at [this], already in the
    store.  The second line of the source assigns through an optional
    chain: the sibling's [nextSibling] is set when there is a sibling.
    [None] when [parent] is not a node with [children]. *)
Definition link (this parent previous_ : ref) (store : Store) : option Store :=
  _ ← childrenOf store parent;
  let store := alter (set_parent (Some parent)) this store in
  let store := alter (push this) parent store in
  let sibling := branch ← childrenOf store parent; atLast2 branch in
  let store := alter (set_previousSibling sibling) this store in
  let store :=
    match sibling with
    | Some sibling => alter (set_nextSibling (Some this)) sibling store
    | None => store
    end in
  let store := alter (set_previous (Some previous_)) this store in
  Some (alter (set_next (Some this)) previous_ store).

Module Handler.

Record t := mk {
  store : Store;
  document : ref;
  ancestry : list ref;        (* head = top *)
  previous : ref
}.

(** [onReset()] on a fresh store. *)
Definition reset : t :=
  mk [newTag None [] DOCUMENT] 0%nat [0%nat] 0%nat.

(** [attributes[attribute].trim().split(Whitespace)] as a [Set]. *)
Definition tokens (value : string) : list string :=
  JS.newSet (JS.splitWhitespace (JS.trim value)).

(** The [for .. in] over the attributes: each own property in [Group]
    is replaced in place by its token set. *)
Definition group (attributes : list (string * string))
  : list (string * AttributeValue) :=
  map (λ '(attribute, value),
         (attribute, if has Group attribute then Tokens (tokens value)
                     else Plain value))
      attributes.

(** Allocate [node], link it under the top of [ancestry] after
    [this.previous], make it the previous node; returns its reference. *)
Definition attach (node : Node) (this : t) : option (ref * t) :=
  let r := length (store this) in
  parent ← head (ancestry this);
  store ← link r parent (previous this) (store this ++ [node]);
  Some (r, mk store (document this) (ancestry this) r).

Definition onStartTag (this : t) (name : option string)
    (attributes : list (string * string)) (selfClosing : bool) : option t :=
  '(tag, this) ← attach (newTag name (group attributes) TAG) this;
  Some (if negb selfClosing
        then mk (store this) (document this) (tag :: ancestry this) (previous this)
        else this).

(** [tag.children.at(-1)?.tail ?? tag.children.at(-1)] *)
Definition lastDescendant (store : Store) (tag : ref) : option ref :=
  child ← (branch ← childrenOf store tag; atLast branch);
  match node ← store !! child; tail node with
  | Some deepest => Some deepest
  | None => Some child
  end.

Definition onEndTag (this : t) : option t :=
  match ancestry this with
  | [] => None
  | tag :: ancestry =>
      _ ← childrenOf (store this) tag;
      let store := alter (set_tail (lastDescendant (store this) tag)) tag (store this) in
      Some (mk store (document this) ancestry (previous this))
  end.

Definition onData (type : Kind) (this : t) (value : string) : option t :=
  snd <$> attach (newText value type) this.

Definition onText := onData TEXT.
Definition onComment := onData COMMENT.
Definition onCDATA := onData CDATA.
Definition onDeclaration := onData DOCTYPE.
Definition onDirective := onData DIRECTIVE.

(** One call of the Parser, [this.handler.onX?.(..)]; [onEndTag] takes no
    parameter, the flag it is called with is dropped. *)
Definition receive (this : t) (c : HandlerCall.t) : option t :=
  match c with
  | HandlerCall.onStartTag name attributes selfClosing =>
      onStartTag this name attributes selfClosing
  | HandlerCall.onEndTag _ => onEndTag this
  | HandlerCall.onText value => onText this value
  | HandlerCall.onComment value => onComment this value
  | HandlerCall.onCDATA value => onCDATA this value
  | HandlerCall.onDeclaration value => onDeclaration this value
  | HandlerCall.onDirective value => onDirective this value
  end.

Fixpoint run (calls : list HandlerCall.t) (this : t) : option t :=
  match calls with
  | [] => Some this
  | c :: calls => this ← receive this c; run calls this
  end.

End Handler.

(** ** The pipeline: [new Lexer(new Parser(new Handler())).end(chunk)] *)

Section Pipeline.
Variable decode : string -> option string.

(** The handler after the Parser received [calls] on [chunk] and [onEnd()]. *)
Definition build (chunk : string) (calls : list ParserCall.t) : option Handler.t :=
  Handler.run (Parser.handler (Parser.onEnd (Parser.run decode chunk calls)))
              Handler.reset.

(** The finished handler; its [document] is what [end(chunk)] returns. *)
Definition parse (chunk : string) : option Handler.t :=
  calls ← Lexer.end_ chunk; build chunk calls.

End Pipeline.

(** ** Traversal ([src/unnamed/part_001]) *)

Module Traversal.

(** The option record [{ skip, last, inclusive, leaf }]; [last] is [None]
    for [Infinity]. *)
Record Options := mkOptions {
  skip : nat;
  last : option nat;
  inclusive : bool;
  leaf : bool
}.

(** [{ skip = 0, last = Infinity, inclusive = false, leaf = false }] *)
Definition defaults : Options := mkOptions 0 None false false.

(** What pulling a generator to its end observes after the yields. *)
Inductive Outcome :=
| Returned          (* the generator finished *)
| Threw             (* a TypeError escaped *)
| Running.          (* the bound on the iterations ran out first *)

Definition Yields : Type := list ref * Outcome.

Definition yield (node : ref) (rest : Yields) : Yields :=
  (node :: rest.1, rest.2).

(** [level < last] *)
Definition below (level : nat) (last : option nat) : bool :=
  match last with
  | Some last => Nat.ltb level last
  | None => true
  end.

Section Generators.
Variable store : Store.
Variable options : Options.

(** [node.type === 'text'] for the node at [node]. *)
Definition isText (node : ref) : bool :=
  match type <$> store !! node with
  | Some TEXT => true
  | _ => false
  end.

(** [children?.length && (inclusive || children.length !== 1 ||
    children[0].type !== 'text')] for the node at [node]. *)
Definition internal (node : ref) : bool :=
  match childrenOf store node with
  | Some (first :: rest) =>
      inclusive options
      || negb (Nat.eqb (length (first :: rest)) 1)
      || negb (isText first)
  | _ => false
  end.

(** The [for] loop of [posterity]; a frame is [{ ancestor, index }] and
    the head of [stack] is its last element. *)
Fixpoint posterityLoop (bound : nat) (stack : list (ref * nat)) (level : nat)
  : Yields :=
  match bound, stack with
  | _, [] => ([], Returned)
  | O, _ => ([], Running)
  | S bound, (ancestor, index) :: rest =>
      match childrenOf store ancestor with
      | None => ([], Threw)
      | Some branch =>
          let released := Nat.eqb (S index) (length branch) in
          let stack := if released then rest else (ancestor, S index) :: rest in
          let next := if released then length stack else O in
          match branch !! index with
          | None => ([], Threw)
          | Some node =>
              let retained := below level (last options) && internal node in
              let stack := if retained then (node, O) :: stack else stack in
              let level := if retained then S level else level in
              if retained && leaf options then posterityLoop bound stack level
              else
                let level' := if Nat.eqb next 0 then level else next in
                if Nat.ltb (skip options) level
                then yield node (posterityLoop bound stack level')
                else posterityLoop bound stack level'
          end
      end
  end.

(** [this.posterity(options)] pulled to its end; one iteration of the
    loop reads one node, so the size of the store bounds them. *)
Definition posterity (this : ref) : Yields :=
  if bool_decide (last options = Some O) then ([], Returned)
  else posterityLoop (length store) [(this, O)] 1.

(** The loop over [branch] for one node of the ceiling: the nodes to
    yield and the nodes pushed on [queue]. *)
Fixpoint inspect (retain submit : bool) (branch : list ref) : list ref * list ref :=
  match branch with
  | [] => ([], [])
  | node :: branch =>
      let '(yields, queue) := inspect retain submit branch in
      let retained := retain && internal node in
      (if (retained && leaf options) || negb submit then yields else node :: yields,
       if retained then node :: queue else queue)
  end.

(** The loop over [ceiling]; [None] when a node of it has no [children]. *)
Fixpoint sweep (retain submit : bool) (ceiling : list ref)
  : option (list ref * list ref) :=
  match ceiling with
  | [] => Some ([], [])
  | node :: ceiling =>
      branch ← childrenOf store node;
      let '(yields, queue) := inspect retain submit branch in
      '(yields', queue') ← sweep retain submit ceiling;
      Some (yields ++ yields', queue ++ queue')
  end.

(** The [for] loop of [descendants] over the levels. *)
Fixpoint descendantsLoop (bound : nat) (queue : list ref) (level : nat) : Yields :=
  match bound, queue with
  | _, [] => ([], Returned)
  | O, _ => ([], Running)
  | S bound, ceiling =>
      let retain := below level (last options) in
      let submit := Nat.ltb (skip options) level in
      match sweep retain submit ceiling with
      | None => ([], Threw)
      | Some (yields, queue) =>
          let rest := descendantsLoop bound queue (S level) in
          (yields ++ rest.1, rest.2)
      end
  end.

(** [this.descendants(options)] pulled to its end; a level that is not
    empty holds a node not seen before, so the size of the store (and one
    more for the root) bounds the levels. *)
Definition descendants (this : ref) : Yields :=
  if bool_decide (last options = Some O) then ([], Returned)
  else descendantsLoop (S (length store)) [this] 1.

End Generators.
End Traversal.

(** ** The iterator of [Tag] ([src/lib/Handler.js]) *)

Module Tag.
Import Traversal.

(** The [for] loop of [Symbol.iterator]; [node] is [None] when it is
    [undefined], which [node != stop] lets through: it is yielded, and
    the read of its [next] throws. *)
Fixpoint iteratorLoop (bound : nat) (store : Store) (stop : ref) (node : option ref)
  : list (option ref) * Outcome :=
  match bound with
  | O => ([], Running)
  | S bound =>
      if bool_decide (node = Some stop) then ([], Returned)
      else
        match node with
        | None => ([None], Threw)
        | Some r =>
            let rest := iteratorLoop bound store stop (node ← store !! r; next node) in
            (Some r :: rest.1, rest.2)
        end
  end.

(** [tag[Symbol.iterator]()] pulled to its end; [stop] is
    [this.tail?.next], and a walk that does not meet it within the nodes
    of the store never ends. *)
Definition iterator (store : Store) (this : ref) : list (option ref) * Outcome :=
  match deepest ← (node ← store !! this; tail node); node ← store !! deepest; next node with
  | None => ([], Returned)
  | Some stop => iteratorLoop (S (length store)) store stop (node ← store !! this; next node)
  end.

End Tag.

(** ** Observations on a finished store, used to state the properties *)

(** The tree below a node, as the spec draws it:
    [ul -> [li -> [text "A"], li -> [text "B"]]]. *)
Inductive Tree :=
| Element (name : option string) (children : list Tree)
| Data (type : Kind) (value : string).

Fixpoint treeOf (bound : nat) (store : Store) (r : ref) : option Tree :=
  match bound with
  | O => None
  | S bound =>
      node ← store !! r;
      match children node with
      | Some branch => Element (name node) <$> mapM (treeOf bound store) branch
      | None => Data (type node) <$> value node
      end
  end.

(** The tree of the document a handler holds. *)
Definition documentTree (h : Handler.t) : option Tree :=
  treeOf (length (Handler.store h)) (Handler.store h) (Handler.document h).

(** [d] is the last, deepest node below [r]: reached from [r] by taking
    the last child until a node has none. *)
Inductive Rightmost (store : Store) : ref -> ref -> Prop :=
| Rightmost_here r :
    (branch ← childrenOf store r; atLast branch) = None ->
    Rightmost store r r
| Rightmost_below r child d :
    (branch ← childrenOf store r; atLast branch) = Some child ->
    Rightmost store child d ->
    Rightmost store r d.

(** The nodes met from [r] by following [next], at most [bound] of them. *)
Fixpoint chain (bound : nat) (store : Store) (r : ref) : list ref :=
  match bound with
  | O => []
  | S bound =>
      r :: match node ← store !! r; next node with
           | Some r' => chain bound store r'
           | None => []
           end
  end.

(** The depth-first flattening of the [children] sequences below [r]:
    a node, then the flattening of each child in order; [bound] limits
    the depth. *)
Fixpoint flatten (bound : nat) (store : Store) (r : ref) : list ref :=
  match bound with
  | O => []
  | S bound =>
      r :: mbind (flatten bound store) (default [] (childrenOf store r))
  end.

(** A Decoder that resolves no name, for concrete inputs whose
    references, if any, are unknown ones. *)
Definition unresolved (name : string) : option string := None.

(** A string holds an upper-case letter. *)
Fixpoint hasUpper (s : string) : bool :=
  match s with
  | EmptyString => false
  | String c r => JS.isUpper c || hasUpper r
  end.

(** [</] followed by [sequence], case-insensitively, starts at index [j]
    of [chunk]: what END_SEQUENCE_MATCH looks for. *)
Definition endsAt (chunk : string) (sequence : list Z) (j : Z) : bool :=
  bool_decide (JS.charCodeAt chunk j = Some Character.LESS_THAN)
  && bool_decide (JS.charCodeAt chunk (j + 1) = Some Character.SLASH)
  && forallb
       (λ t, bool_decide
               ((λ c, Z.lor c Character.SPACE) <$> JS.charCodeAt chunk (j + 2 + Z.of_nat t)
                = sequence !! t))
       (seq 0 (length sequence)).

(** The raw-text sequences. *)
Definition rawText : list (list Z) :=
  [Sequence.SCRIPT; Sequence.STYLE; Sequence.TITLE; Sequence.TEXT_AREA; Sequence.XMP].

(** ** Invariants and auxiliary notions of the proofs *)

(** The Lexer inside a raw-text element that began at [this0]: at index
    [j], in one of the three raw-text states, having called nothing and
    moved no section start; in END_SEQUENCE_MATCH the characters before
    [j] are [</] and the first [k] of the sequence, begun at or after
    the index of [this0]. *)
Definition rawAt (chunk : string) (sequence : list Z) (this0 : Lexer.t)
    (j : Z) (this : Lexer.t) : Prop :=
  exists st k,
    this = Lexer.mk (Lexer.parser this0) (Lexer.previous this0) (Lexer.next this0)
             st j (Lexer.sectionStart this0) (Some sequence) k
    /\ match st with
       | Lexer.RAW_TEXT => True
       | Lexer.RAW_TEXT_END_OPEN =>
           Lexer.index this0 <= j - 1
           /\ JS.charCodeAt chunk (j - 1) = Some Character.LESS_THAN
       | Lexer.END_SEQUENCE_MATCH =>
           exists n : nat,
             k = Z.of_nat n /\ (n < length sequence)%nat
             /\ Lexer.index this0 <= j - k - 2
             /\ JS.charCodeAt chunk (j - k - 2) = Some Character.LESS_THAN
             /\ JS.charCodeAt chunk (j - k - 1) = Some Character.SLASH
             /\ forall t : nat, (t < n)%nat ->
                  (fun c => Z.lor c Character.SPACE) <$> JS.charCodeAt chunk (j - k + Z.of_nat t)
                  = sequence !! t
       | _ => False
       end.

(** What RAW_TEXT does with [char]; the two other raw-text states end
    there when they give up their match. *)
Definition rawFallback (this : Lexer.t) (char : Z) : Lexer.t :=
  if char =? Character.LESS_THAN
  then Lexer.set_state Lexer.RAW_TEXT_END_OPEN (Lexer.set_state Lexer.RAW_TEXT this)
  else Lexer.set_state Lexer.RAW_TEXT this.

Import HandlerCall.
Local Open Scope nat_scope.

(** Reading one field of the node at [r]. *)
Definition field {A} (proj : Node -> option A) (store : Store) (r : ref) : option A :=
  node ← store !! r; proj node.

(** The invariant of the Handler's state. *)
Record wf (h : Handler.t) : Prop := mkWf {
  wf_document : Handler.document h = 0;
  wf_previous : S (Handler.previous h) = length (Handler.store h);
  wf_ancestry : forall r, r ∈ Handler.ancestry h ->
    is_Some (childrenOf (Handler.store h) r);
  wf_sorted : StronglySorted (fun a b => b < a) (Handler.ancestry h);
  wf_children : forall r branch, childrenOf (Handler.store h) r = Some branch ->
    Forall (fun c => r < c < length (Handler.store h)) branch
    /\ StronglySorted lt branch;
  wf_closed : forall r branch, childrenOf (Handler.store h) r = Some branch ->
    r ∉ Handler.ancestry h -> Forall (fun c => c ∉ Handler.ancestry h) branch;
  wf_spine : forall i a b,
    Handler.ancestry h !! i = Some a -> Handler.ancestry h !! S i = Some b ->
    (branch ← childrenOf (Handler.store h) b; atLast branch) = Some a;
  wf_tail_open : forall r, r ∈ Handler.ancestry h ->
    field tail (Handler.store h) r = None;
  wf_tail_some : forall r d, field tail (Handler.store h) r = Some d ->
    Rightmost (Handler.store h) r d
    /\ exists c cs, childrenOf (Handler.store h) r = Some (c :: cs);
  wf_tail_none : forall r, r ∉ Handler.ancestry h ->
    field tail (Handler.store h) r = None ->
    childrenOf (Handler.store h) r = None \/ childrenOf (Handler.store h) r = Some [];
  wf_next : forall r, r < length (Handler.store h) ->
    field next (Handler.store h) r =
    if decide (S r < length (Handler.store h)) then Some (S r) else None;
  wf_prev : forall r, r < length (Handler.store h) ->
    field previous (Handler.store h) r =
    match r with O => None | S p => Some p end;
  wf_flat : forall a, a ∈ Handler.ancestry h ->
    forall bound, length (Handler.store h) - a <= bound ->
    flatten bound (Handler.store h) a = seq a (length (Handler.store h) - a);
  wf_first : forall r c cs, childrenOf (Handler.store h) r = Some (c :: cs) -> c = S r
}.

(** A node as [new Tag] or [new Text] makes it. *)
Definition fresh (node : Node) : Prop :=
  (children node = None \/ children node = Some [])
  /\ tail node = None /\ next node = None.

(** [name] is one of the void elements. *)
Definition void (name : option string) : bool :=
  match name with
  | Some name => has emptyElements name
  | None => false
  end.

(** A node named as a void element has no child and is not open. *)
Definition voidsClosed (h : Handler.t) : Prop :=
  forall r node, Handler.store h !! r = Some node -> void (name node) = true ->
    children node = Some [] /\ r ∉ Handler.ancestry h.

(** The Parser's way of calling [onStartTag]: the flag is the void test. *)
Definition consistent (c : HandlerCall.t) : Prop :=
  match c with
  | HandlerCall.onStartTag name _ selfClosing => selfClosing = void name
  | _ => True
  end.

Definition sound (h : Handler.t) : Prop := wf h /\ voidsClosed h.

(** A call that creates a data node. *)
Definition isData (c : HandlerCall.t) : Prop :=
  match c with
  | onStartTag _ _ _ | onEndTag _ => False
  | _ => True
  end.

(** What one method of the Parser adds to the handler's log and does to
    the stack: some end tags, one popped entry each, then nothing more,
    or a start tag pushed unless void, or a data call. *)
Definition advances (p p' : Parser.t) : Prop :=
  exists (flags : list bool) (calls : list HandlerCall.t),
    Parser.handler p' = Parser.handler p ++ (onEndTag <$> flags) ++ calls
    /\ length flags <= length (Parser.stack p)
    /\ (calls = [] /\ Parser.stack p' = drop (length flags) (Parser.stack p)
        \/ (exists name attributes,
              calls = [onStartTag name attributes (void name)]
              /\ Parser.stack p' =
                 if void name then drop (length flags) (Parser.stack p)
                 else name :: drop (length flags) (Parser.stack p))
        \/ (exists c, calls = [c] /\ isData c
              /\ Parser.stack p' = drop (length flags) (Parser.stack p))).

(** The handler's stack of open tags mirrors the Parser's, above the document. *)
Definition aligned (stack : list (option string)) (h : Handler.t) : Prop :=
  length (Handler.ancestry h) = S (length stack)
  /\ last (Handler.ancestry h) = Some 0.

(** An entry of the stack is null or a lowercased name that is not void. *)
Definition pushed (e : option string) : Prop :=
  void e = false /\ forall name, e = Some name -> hasUpper name = false.

Definition tidy (p : Parser.t) : Prop :=
  Forall pushed (Parser.stack p)
  /\ forall name, Parser.tagName p = Some name -> hasUpper name = false.

Local Open Scope Z_scope.

(** [previous] holds one of the attribute-value states. *)
Definition valueState (s : option Lexer.State) : bool :=
  match s with
  | Some Lexer.DQ_ATTRIBUTE_VALUE | Some Lexer.SQ_ATTRIBUTE_VALUE
  | Some Lexer.NQ_ATTRIBUTE_VALUE => true
  | _ => false
  end.

(** [previous] and [next] as START_TAG_OPEN leaves them for a name that
    may begin a raw-text sequence. *)
Definition tagStart (this : Lexer.t) : bool :=
  match Lexer.previous this, Lexer.next this with
  | Some Lexer.START_TAG_NAME, Some Lexer.START_TAG_NAME => true
  | _, _ => false
  end.

(** What START_SEQUENCE_MATCH is entered with: a tag name being matched,
    [doctype] after [<!], or [CDATA] after [<![], at its second byte. *)
Definition matching (this : Lexer.t) : bool :=
  match Lexer.sequence this, Lexer.previous this, Lexer.next this with
  | Some _, Some Lexer.START_TAG_NAME, Some Lexer.START_TAG_NAME => true
  | Some _, Some Lexer.DASHLESS_COMMENT, Some Lexer.DECLARATION => true
  | Some seq, Some Lexer.DASHLESS_COMMENT, Some Lexer.CDATA_START =>
      bool_decide (seq = Sequence.CDATA) && (Lexer.sequenceIndex this =? 1)
  | _, _, _ => false
  end.

(** The fields that a state reads hold what the transitions into it
    wrote; the four CDATA states are not entered. *)
Definition shape (this : Lexer.t) : bool :=
  match Lexer.state this with
  | Lexer.CDATA_START | Lexer.CDATA | Lexer.CDATA_END_OPEN | Lexer.CDATA_END => false
  | Lexer.S_SEQUENCE_START | Lexer.T_SEQUENCE_START => tagStart this
  | Lexer.START_SEQUENCE_MATCH => matching this
  | Lexer.BEFORE_ATTRIBUTE_ENTITY | Lexer.ATTRIBUTE_ENTITY =>
      valueState (Lexer.previous this)
  | _ => true
  end.

(** The least index a state is entered at, where a call of the state
    reports a span that ends before the index. *)
Definition entered (s : Lexer.State) : Z :=
  match s with
  | Lexer.PAGE => 0
  | Lexer.END_TAG_OPEN | Lexer.COMMENT_END => 2
  | Lexer.COMMENT_END_CLOSE => 3
  | _ => 1
  end.

(** The Lexer about to read the character at its index. *)
Definition sane (this : Lexer.t) : Prop :=
  shape this = true
  /\ 0 <= Lexer.sectionStart this <= Lexer.index this
  /\ entered (Lexer.state this) <= Lexer.index this
  /\ (Lexer.state this = Lexer.END_SEQUENCE_MATCH ->
      0 <= Lexer.sequenceIndex this /\ Lexer.sequenceIndex this + 2 <= Lexer.index this).

(** A span reported lies within the first [n] characters. *)
Definition inside (n : Z) (c : ParserCall.t) : Prop :=
  match c with
  | ParserCall.onText s e | ParserCall.onTextEntity s e
  | ParserCall.onStartTagName s e | ParserCall.onAttributeName s e
  | ParserCall.onAttributeValue s e | ParserCall.onAttributeEntity s e
  | ParserCall.onEndTagName s e | ParserCall.onComment s e
  | ParserCall.onCDATA s e | ParserCall.onDeclaration s e
  | ParserCall.onDirective s e => 0 <= s <= n /\ 0 <= e <= n
  | _ => True
  end.

Definition isCDATA (c : ParserCall.t) : bool :=
  match c with
  | ParserCall.onCDATA _ _ => true
  | _ => false
  end.

(** The states of a start tag whose name has been reported. *)
Definition inTag (s : Lexer.State) : bool :=
  match s with
  | Lexer.BEFORE_ATTRIBUTE_NAME | Lexer.ATTRIBUTE_NAME | Lexer.AFTER_ATTRIBUTE_NAME
  | Lexer.BEFORE_ATTRIBUTE_VALUE
  | Lexer.DQ_ATTRIBUTE_VALUE | Lexer.SQ_ATTRIBUTE_VALUE | Lexer.NQ_ATTRIBUTE_VALUE
  | Lexer.BEFORE_ATTRIBUTE_ENTITY | Lexer.ATTRIBUTE_ENTITY
  | Lexer.SELF_CLOSING_TAG => true
  | _ => false
  end.

(** Reading a log of calls: [named] tells that a tag name was reported
    since the last [onStartTagClose]; [None] when an [onStartTagClose]
    comes without one. *)
Fixpoint scan (named : bool) (calls : list ParserCall.t) : option bool :=
  match calls with
  | [] => Some named
  | ParserCall.onStartTagName _ _ :: calls => scan true calls
  | ParserCall.onStartTagClose :: calls => if named then scan false calls else None
  | _ :: calls => scan named calls
  end.

(** What one call [this.state(char)] that returns [this'] did. *)
Definition stepped (this this' : Lexer.t) : Prop :=
  sane (Lexer.set_index (Lexer.index this + 1) this')
  /\ Lexer.index this' = Lexer.index this
  /\ exists new,
       Lexer.parser this' = Lexer.parser this ++ new
       /\ Forall (fun c => isCDATA c = false /\ inside (Lexer.index this + 1) c) new
       /\ forall b, (inTag (Lexer.state this) = true -> b = true) ->
            exists b', scan b new = Some b'
                       /\ (inTag (Lexer.state this') = true -> b' = true).

(** The states in which the Lexer reads text. *)
Definition textual (s : Lexer.State) : bool :=
  match s with
  | Lexer.PAGE | Lexer.TEXT | Lexer.BEFORE_TEXT_ENTITY | Lexer.TEXT_ENTITY => true
  | _ => false
  end.

(** The two calls that add to the Parser's pending text. *)
Definition gathers (c : ParserCall.t) : bool :=
  match c with
  | ParserCall.onText _ _ | ParserCall.onTextEntity _ _ => true
  | _ => false
  end.

(** The Parser's state with another buffer. *)
Definition rebuffer (buffer : string) (p : Parser.t) : Parser.t :=
  Parser.mk (Parser.handler p) buffer (Parser.stack p) (Parser.text p)
            (Parser.tagName p) (Parser.attributeName p) (Parser.attributeValue p)
            (Parser.attributes p).

Local Open Scope nat_scope.

(** A node as the constructors of [Tag] and [Text] leave it. *)
Definition pristine (node : Node) : Prop :=
  fresh node /\ parent node = None
  /\ previousSibling node = None /\ nextSibling node = None.

(** The node a call of the handler allocates. *)
Definition created (c : HandlerCall.t) : option Node :=
  match c with
  | onStartTag name attributes _ => Some (newTag name (Handler.group attributes) TAG)
  | onEndTag _ => None
  | onText value => Some (newText value TEXT)
  | onComment value => Some (newText value COMMENT)
  | onCDATA value => Some (newText value CDATA)
  | onDeclaration value => Some (newText value DOCTYPE)
  | onDirective value => Some (newText value DIRECTIVE)
  end.

(** The links between a node, its parent and its siblings. *)
Record linked (h : Handler.t) : Prop := mkLinked {
  ln_root : field parent (Handler.store h) 0 = None;
  ln_parent : forall r p, field parent (Handler.store h) r = Some p <->
    exists branch, childrenOf (Handler.store h) p = Some branch /\ r ∈ branch;
  ln_total : forall r, 0 < r < length (Handler.store h) ->
    is_Some (field parent (Handler.store h) r);
  ln_next : forall p branch i c,
    childrenOf (Handler.store h) p = Some branch -> branch !! i = Some c ->
    field nextSibling (Handler.store h) c = branch !! S i;
  ln_prev : forall p branch i c,
    childrenOf (Handler.store h) p = Some branch -> branch !! i = Some c ->
    field previousSibling (Handler.store h) c =
    match i with O => None | S j => branch !! j end
}.

(** The subtree of a closed node holds the consecutive references from
    the node to its last, deepest descendant; the last, deepest
    descendant of the innermost open tag is the newest node. *)
Record spanned (h : Handler.t) : Prop := mkSpanned {
  sp_top : forall t rest, Handler.ancestry h = t :: rest ->
    Rightmost (Handler.store h) t (pred (length (Handler.store h)));
  sp_closed : forall r d, r ∉ Handler.ancestry h ->
    Rightmost (Handler.store h) r d ->
    forall bound, S d - r <= bound ->
    flatten bound (Handler.store h) r = seq r (S d - r)
}.

(** A call of the handler that is neither a start tag, nor a CDATA
    section, nor a directive. *)
Definition plain (c : HandlerCall.t) : Prop :=
  match c with
  | onStartTag _ _ _ | onCDATA _ | onDirective _ => False
  | _ => True
  end.

(** A call of the handler as the Parser makes it for the calls of the
    Lexer: a start tag has a lower-case name, and there is neither a
    CDATA section nor a directive. *)
Definition emitted (c : HandlerCall.t) : Prop :=
  match c with
  | onStartTag name _ _ => exists text, name = Some text /\ hasUpper text = false
  | onCDATA _ | onDirective _ => False
  | _ => True
  end.

(** What a node of the tree is, for the same calls. *)
Definition built (node : Node) : Prop :=
  (type node = TAG -> exists text, name node = Some text /\ hasUpper text = false)
  /\ type node ≠ CDATA /\ type node ≠ DIRECTIVE.

(** [posterity] and [descendants] yield a node unless it is retained
    and the leaf mode is on. *)
Definition kept (store : Store) (options : Traversal.Options) (node : ref) : bool :=
  negb (Traversal.internal store options node && Traversal.leaf options).

(** The nodes a traversal without depth limit inspects from [node] on,
    depth first: the node, then, when it is retained, what is inspected
    from each of its children; [bound] limits the depth. *)
Fixpoint walk (store : Store) (options : Traversal.Options) (bound : nat) (node : ref)
  : list ref :=
  match bound with
  | O => []
  | S bound =>
      node :: if Traversal.internal store options node
              then mbind (walk store options bound) (default [] (childrenOf store node))
              else []
  end.

(** The nodes still to inspect for a stack of frames. *)
Definition todo (store : Store) (options : Traversal.Options) (bound : nat)
    (stack : list (ref * nat)) : list ref :=
  mbind (fun frame : ref * nat =>
           mbind (walk store options bound)
                 (drop frame.2 (default [] (childrenOf store frame.1))))
        stack.

(** The same nodes breadth first: the children of a level, then the
    levels below the retained ones; [bound] limits the levels. *)
Fixpoint levels (store : Store) (options : Traversal.Options) (bound : nat)
    (queue : list ref) : list ref :=
  match bound, queue with
  | _, [] => []
  | O, _ => []
  | S bound, _ =>
      let branch := mbind (fun node => default [] (childrenOf store node)) queue in
      branch ++ levels store options bound
                  (List.filter (Traversal.internal store options) branch)
  end.

(** A frame of the stack of [posterity] has children left to visit. *)
Definition pending (store : Store) (frame : ref * nat) : Prop :=
  exists branch, childrenOf store frame.1 = Some branch /\ frame.2 < length branch.

(** A node of the queue of [descendants] has children, and [bound]
    levels reach below it. *)
Definition queued (store : Store) (bound : nat) (node : ref) : Prop :=
  is_Some (childrenOf store node) /\ length store - node < bound.

(** A tag of this name may open on this stack: the top of the stack is
    not in the set of tags that the name closes. *)
Definition permitted (name : option string) (stack : list (option string)) : Prop :=
  forall text close,
    name = Some text -> get implicitClose text = Some close ->
    Parser.closes close stack = false.

(** One call of the Lexer, by what the Parser makes of it: it closes
    some tags, then opens a tag that may open on what is left, or
    reports data, or does neither. *)
Definition proceeds (p p' : Parser.t) : Prop :=
  exists (flags : list bool) (calls : list HandlerCall.t),
    Parser.handler p' = Parser.handler p ++ (onEndTag <$> flags) ++ calls
    /\ length flags <= length (Parser.stack p)
    /\ (calls = [] /\ Parser.stack p' = drop (length flags) (Parser.stack p)
        \/ (exists name attributes,
              calls = [onStartTag name attributes (void name)]
              /\ Parser.stack p' =
                 (if void name then drop (length flags) (Parser.stack p)
                  else name :: drop (length flags) (Parser.stack p))
              /\ permitted name (drop (length flags) (Parser.stack p)))
        \/ (exists c, calls = [c] /\ isData c
              /\ Parser.stack p' = drop (length flags) (Parser.stack p))).

(** The names of the open tags, innermost first, the document last. *)
Definition openNames (h : Handler.t) : list (option (option string)) :=
  field (fun node => Some (name node)) (Handler.store h) <$> Handler.ancestry h.

(** The ancestry holds the tags of the stack, above the document. *)
Definition mirrored (stack : list (option string)) (h : Handler.t) : Prop :=
  openNames h = (Some <$> stack) ++ [Some None].

(** No tag is a child of a tag that its start tag closes. *)
Definition nested (h : Handler.t) : Prop :=
  forall r p text close above,
    field parent (Handler.store h) r = Some p ->
    field name (Handler.store h) r = Some text ->
    get implicitClose text = Some close ->
    field name (Handler.store h) p = Some above ->
    has close above = false.

(** The invariant that ties the Parser to the Handler it drives. *)
Definition tied (p : Parser.t) (h : Handler.t) : Prop :=
  sound h /\ linked h /\ mirrored (Parser.stack p) h /\ nested h.

(** A string holds a white-space character. *)
Fixpoint hasSpace (s : string) : bool :=
  match s with
  | EmptyString => false
  | String c r => JS.isSpace c || hasSpace r
  end.

(** A string does not begin with white space. *)
Definition headed (s : string) : Prop :=
  match s with
  | EmptyString => True
  | String c _ => JS.isSpace c = false
  end.

(** A call of the handler carries a value that [trim], for a doctype
    [trimEnd], has nothing to take from. *)
Definition neat (c : HandlerCall.t) : Prop :=
  match c with
  | onText value | onComment value | onCDATA value => JS.trim value = value
  | onDeclaration value => JS.trimEnd value = value
  | _ => True
  end.

(** The same of the value of a node. *)
Definition neatNode (node : Node) : Prop :=
  forall text, value node = Some text ->
    match type node with
    | TEXT | COMMENT | CDATA => JS.trim text = text
    | DOCTYPE => JS.trimEnd text = text
    | _ => True
    end.

(** * Properties *)

Local Open Scope Z_scope.

(** * Properties of the Parser *)

Section ParserFacts.
Import Parser.

Lemma nearest_absent name stack :
  Some name ∉ stack -> nearest name stack = None.
Proof.
  induction stack as [|top below IH]; intros Hnot; simpl; [done|].
  rewrite bool_decide_eq_false_2 by (intros ->; apply Hnot; left).
  rewrite IH; [done|]. intros Hin. apply Hnot. by right.
Qed.

Lemma nearest_found name above below :
  Some name ∉ above ->
  nearest name (above ++ Some name :: below) = Some (length above).
Proof.
  induction above as [|top above IH]; intros Hnot; simpl.
  - by rewrite bool_decide_eq_true_2.
  - rewrite bool_decide_eq_false_2 by (intros ->; apply Hnot; left).
    rewrite IH; [done|]. intros Hin. apply Hnot. by right.
Qed.

(** The do-while loop closes [distance + 1] tags: all implicit but the last. *)
Lemma closeDistance_spec distance this :
  closeDistance distance this =
  mk (handler this ++ replicate distance (onEndTag false) ++ [onEndTag true])
     (buffer this) (drop (S distance) (stack this)) (text this) (tagName this)
     (attributeName this) (attributeValue this) (attributes this).
Proof.
  revert this. induction distance as [|distance IH]; intros this.
  - destruct this as [h b [|top st] tx tn an av at_]; reflexivity.
  - cbn [closeDistance]. rewrite IH. 
    destruct this as [h b [|top st] tx tn an av at_]; cbn;
      rewrite <- ?app_assoc; try reflexivity.
Qed.

(** An end tag that is not void and matches no entry changes nothing. *)
Lemma onEndTagName_absent (this : Parser.t) (start end_ : Z) :
  has emptyElements (JS.slice (buffer this) start end_) = false ->
  Some (JS.slice (buffer this) start end_) ∉ stack this ->
  onEndTagName this start end_ = this.
Proof.
  intros Hvoid Hnot. unfold onEndTagName. rewrite Hvoid.
  unfold lastIndexOf. rewrite (nearest_absent _ _ Hnot).
  rewrite (proj2 (Z.eqb_eq _ _)) by lia. done.
Qed.

(** C1. For an end tag that is not void: when no entry of the open-tag
    stack has its name, the Parser is left as it was (nothing is called,
    the stack is unchanged); when the nearest entry with its name has
    [d] entries above it, [d + 1] tags are closed, top first: [d] calls
    [onEndTag(false)] for the entries above, then [onEndTag(true)] for
    the matched one, and the [d + 1] entries are popped. *)
Theorem onEndTagName_closes (this : Parser.t) (start end_ : Z) :
  let name := JS.slice (buffer this) start end_ in
  has emptyElements name = false ->
  (Some name ∉ stack this -> onEndTagName this start end_ = this)
  /\ (forall above below,
        stack this = above ++ Some name :: below ->
        Some name ∉ above ->
        onEndTagName this start end_ =
        mk (handler this ++ replicate (length above) (onEndTag false) ++ [onEndTag true])
           (buffer this) below (text this) (tagName this)
           (attributeName this) (attributeValue this) (attributes this)).
Proof.
  intros name Hvoid. split.
  - by apply onEndTagName_absent.
  - intros above below Hstack Hnot. unfold onEndTagName. fold name. rewrite Hvoid.
    unfold lastIndexOf. rewrite Hstack, (nearest_found _ _ _ Hnot).
    rewrite length_app. cbn [length].
    rewrite (proj2 (Z.eqb_neq _ _)) by lia.
    replace (Z.to_nat _) with (length above) by lia.
    rewrite closeDistance_spec, Hstack.
    f_equal. rewrite cons_middle, app_assoc.
    apply drop_app_length'. rewrite length_app. simpl. lia.
Qed.
Lemma onEndTagName_closes_witness :
  onEndTagName
    (mk [] "<div><span>text</div>" [Some "span"; Some "div"]%string [] None None [] [])
    17 20
  = mk [onEndTag false; onEndTag true] "<div><span>text</div>" [] [] None None [] [].
Proof.
  refine (proj2 (onEndTagName_closes
                   (mk [] "<div><span>text</div>" [Some "span"; Some "div"]%string
                              [] None None [] [])
                   17 20 _) [Some "span"%string] [] _ _).
  - reflexivity.
  - reflexivity.
  - apply (bool_decide_unpack _). vm_compute. exact I.
Defined.
End ParserFacts.

Local Open Scope nat_scope.

(** * Properties of the Handler *)

Lemma field_alter_frame {A} (proj : Node -> option A) f i store r :
  (forall x, proj (f x) = proj x) ->
  field proj (alter f i store) r = field proj store r.
Proof.
  intros Hf. unfold field. rewrite list_lookup_alter.
  destruct (decide (i = r)) as [->|]; [|done].
  destruct (store !! r); simpl; [apply Hf|done].
Qed.

Lemma field_alter_ne {A} (proj : Node -> option A) f i store r :
  i ≠ r -> field proj (alter f i store) r = field proj store r.
Proof. intros Hne. unfold field. by rewrite list_lookup_alter_ne. Qed.

Lemma field_alter_eq {A} (proj : Node -> option A) f i store :
  field proj (alter f i store) i = node ← store !! i; proj (f node).
Proof.
  unfold field. rewrite list_lookup_alter, decide_True by done.
  by destruct (store !! i).
Qed.

Lemma field_app_l {A} (proj : Node -> option A) store node r :
  r < length store -> field proj (store ++ [node]) r = field proj store r.
Proof. intros Hr. unfold field. by rewrite lookup_app_l. Qed.

Lemma field_app_new {A} (proj : Node -> option A) (store : Store) node :
  field proj (store ++ [node]) (length store) = proj node.
Proof.
  unfold field. rewrite lookup_app_r by lia.
  by rewrite Nat.sub_diag.
Qed.

Lemma field_lt {A} (proj : Node -> option A) (store : Store) r x :
  field proj store r = Some x -> r < length store.
Proof.
  unfold field. destruct (store !! r) eqn:E; [|done].
  intros _. by eapply lookup_lt_Some.
Qed.

Lemma childrenOf_field store r : childrenOf store r = field children store r.
Proof. reflexivity. Qed.

(** What [link] leaves in each field of each node. *)
Section Link.
Variables (store : Store) (node : Node) (parent previous_ : ref) (branch : list ref).
Let this := length store.
Hypothesis Hparent : childrenOf store parent = Some branch.

Lemma link_some :
  exists store',
    link this parent previous_ (store ++ [node]) = Some store'
    /\ length store' = S this.
Proof.
  pose proof (field_lt _ _ _ _ Hparent) as Hlt.
  unfold link. rewrite (childrenOf_field (store ++ [node]) parent), field_app_l by done.
  change (childrenOf store parent) with (field children store parent) in Hparent. rewrite Hparent.
  simpl. eexists. split; [reflexivity|].
  match goal with |- context [match ?s with Some _ => _ | None => _ end] => destruct s end;
    rewrite ?length_alter, length_app; simpl; lia.
Qed.

Lemma link_children store' r :
  link this parent previous_ (store ++ [node]) = Some store' ->
  childrenOf store' r =
    if decide (r = parent) then Some (branch ++ [this])
    else if decide (r = this) then children node
    else childrenOf store r.
Proof.
  pose proof (field_lt _ _ _ _ Hparent) as Hlt.
  unfold link. rewrite (childrenOf_field (store ++ [node]) parent), field_app_l by done.
  change (childrenOf store parent) with (field children store parent) in Hparent. rewrite Hparent.
  simpl. intros [= <-]. rewrite !childrenOf_field.
  rewrite field_alter_frame by done.
  rewrite field_alter_frame by done.
  match goal with |- context [alter (set_previousSibling ?s)] => set (sib := s) end.
  assert (forall s, field children (match sib with
            | Some sibling => alter (set_nextSibling (Some this)) sibling s
            | None => s end) r = field children s r) as ->.
  { intros s. destruct sib; [|done]. by rewrite field_alter_frame. }
  rewrite field_alter_frame by done.
  destruct (decide (r = parent)) as [->|Hrp].
  - rewrite field_alter_eq. unfold this. rewrite list_lookup_alter_ne by lia.
    rewrite lookup_app_l by done.
    unfold field in Hparent. destruct (store !! parent); simpl in *; [|done].
    by rewrite Hparent.
  - rewrite field_alter_ne by done.
    rewrite field_alter_frame by done.
    destruct (decide (r = this)) as [->|Hrt].
    + apply field_app_new.
    + unfold childrenOf, field. destruct (decide (r < this)).
      * by rewrite lookup_app_l.
      * unfold this in *.
        rewrite (lookup_ge_None_2 (store ++ [node])) by (rewrite length_app; simpl; lia).
        by rewrite lookup_ge_None_2 by lia.
Qed.

(** A field that [link] does not assign keeps its value. *)
Lemma link_frame {A} (proj : Node -> option A) store' r :
  (forall v x, proj (set_parent v x) = proj x) ->
  (forall v x, proj (set_children v x) = proj x) ->
  (forall v x, proj (set_previousSibling v x) = proj x) ->
  (forall v x, proj (set_nextSibling v x) = proj x) ->
  (forall v x, proj (set_previous v x) = proj x) ->
  (forall v x, proj (set_next v x) = proj x) ->
  link this parent previous_ (store ++ [node]) = Some store' ->
  field proj store' r = if decide (r = this) then proj node else field proj store r.
Proof.
  intros H1 H2 H3 H4 H5 H6.
  pose proof (field_lt _ _ _ _ Hparent) as Hlt.
  unfold link. rewrite (childrenOf_field (store ++ [node]) parent), field_app_l by done.
  change (childrenOf store parent) with (field children store parent) in Hparent. rewrite Hparent.
  simpl. intros [= <-].
  rewrite field_alter_frame by done.
  rewrite field_alter_frame by done.
  match goal with |- context [alter (set_previousSibling ?s)] => set (sib := s) end.
  assert (forall s, field proj (match sib with
            | Some sibling => alter (set_nextSibling (Some this)) sibling s
            | None => s end) r = field proj s r) as ->.
  { intros s. destruct sib; [|done]. by rewrite field_alter_frame. }
  rewrite field_alter_frame by done.
  rewrite field_alter_frame by (intros x; apply H2).
  rewrite field_alter_frame by done.
  destruct (decide (r = this)) as [->|Hrt].
  - apply field_app_new.
  - unfold field. destruct (decide (r < this)).
    + by rewrite lookup_app_l.
    + unfold this in *.
      rewrite (lookup_ge_None_2 (store ++ [node])) by (rewrite length_app; simpl; lia).
      by rewrite lookup_ge_None_2 by lia.
Qed.

Lemma link_lookup_some store' r :
  link this parent previous_ (store ++ [node]) = Some store' ->
  r <= this -> is_Some (store' !! r).
Proof.
  intros Hl Hr. apply lookup_lt_is_Some.
  destruct link_some as (s & Hs & Hlen). rewrite Hl in Hs. injection Hs as ->. lia.
Qed.

Lemma link_next store' r :
  previous_ < this ->
  link this parent previous_ (store ++ [node]) = Some store' ->
  field next store' r =
    if decide (r = previous_) then Some this
    else if decide (r = this) then next node
    else field next store r.
Proof.
  intros Hprev Hl. pose proof Hl as Hl'. revert Hl.
  pose proof (field_lt _ _ _ _ Hparent) as Hlt.
  unfold link. rewrite (childrenOf_field (store ++ [node]) parent), field_app_l by done.
  change (childrenOf store parent) with (field children store parent) in Hparent. rewrite Hparent.
  simpl. intros [= <-].
  destruct (decide (r = previous_)) as [->|Hrp].
  - rewrite field_alter_eq.
    match goal with |- (?o ≫= _) = _ => assert (is_Some o) as [x ->]; [|done] end.
    apply lookup_lt_is_Some.
    match goal with |- context [alter (set_previousSibling ?s)] => destruct s end;
      rewrite ?length_alter, length_app; simpl; unfold this in *; lia.
  - rewrite field_alter_ne by done.
    rewrite field_alter_frame by done.
    match goal with |- context [alter (set_previousSibling ?s)] => set (sib := s) end.
    assert (forall s, field next (match sib with
              | Some sibling => alter (set_nextSibling (Some this)) sibling s
              | None => s end) r = field next s r) as ->.
    { intros s. destruct sib; [|done]. by rewrite field_alter_frame. }
    rewrite field_alter_frame by done.
    rewrite field_alter_frame by done.
    rewrite field_alter_frame by done.
    destruct (decide (r = this)) as [->|Hrt].
    + apply field_app_new.
    + unfold field. destruct (decide (r < this)).
      * by rewrite lookup_app_l.
      * unfold this in *.
        rewrite (lookup_ge_None_2 (store ++ [node])) by (rewrite length_app; simpl; lia).
        by rewrite lookup_ge_None_2 by lia.
Qed.

Lemma link_previous store' r :
  link this parent previous_ (store ++ [node]) = Some store' ->
  field previous store' r =
    if decide (r = this) then Some previous_ else field previous store r.
Proof.
  pose proof (field_lt _ _ _ _ Hparent) as Hlt.
  unfold link. rewrite (childrenOf_field (store ++ [node]) parent), field_app_l by done.
  change (childrenOf store parent) with (field children store parent) in Hparent. rewrite Hparent.
  simpl. intros [= <-].
  rewrite field_alter_frame by done.
  destruct (decide (r = this)) as [->|Hrt].
  - rewrite field_alter_eq.
    match goal with |- (?o ≫= _) = _ => assert (is_Some o) as [x ->]; [|done] end.
    apply lookup_lt_is_Some.
    match goal with |- context [alter (set_previousSibling ?s)] => destruct s end;
      rewrite ?length_alter, length_app; simpl; unfold this in *; lia.
  - rewrite field_alter_ne by done.
    match goal with |- context [alter (set_previousSibling ?s)] => set (sib := s) end.
    assert (forall s, field previous (match sib with
              | Some sibling => alter (set_nextSibling (Some this)) sibling s
              | None => s end) r = field previous s r) as ->.
    { intros s. destruct sib; [|done]. by rewrite field_alter_frame. }
    rewrite field_alter_frame by done.
    rewrite field_alter_frame by done.
    rewrite field_alter_frame by done.
    unfold field. destruct (decide (r < this)).
    + by rewrite lookup_app_l.
    + unfold this in *.
      rewrite (lookup_ge_None_2 (store ++ [node])) by (rewrite length_app; simpl; lia).
      by rewrite lookup_ge_None_2 by lia.
Qed.
End Link.

(** [Rightmost] and [flatten] read the [children] fields only, and only
    those below the starting node. *)
Section Frame.
Variables (store store' : Store) (closed : ref -> Prop).
Hypothesis Hsame : forall r, closed r -> childrenOf store' r = childrenOf store r.
Hypothesis Hdown :
  forall r branch, closed r -> childrenOf store r = Some branch -> Forall closed branch.

Lemma Rightmost_frame r d :
  Rightmost store r d -> closed r -> Rightmost store' r d.
Proof.
  induction 1 as [r Hlast|r child d Hlast _ IH]; intros Hr.
  - apply Rightmost_here. by rewrite Hsame.
  - eapply Rightmost_below; [by rewrite Hsame|].
    apply IH. destruct (childrenOf store r) as [branch|] eqn:E; [|done].
    simpl in Hlast. pose proof (Hdown _ _ Hr E) as Hall.
    rewrite Forall_forall in Hall. apply Hall.
    unfold atLast in Hlast. apply last_Some in Hlast as [l' ->].
    apply elem_of_app. right. by left.
Qed.

Lemma flatten_frame bound r :
  closed r -> flatten bound store' r = flatten bound store r.
Proof.
  revert r. induction bound as [|bound IH]; intros r Hr; [done|].
  simpl. f_equal. rewrite Hsame by done.
  destruct (childrenOf store r) as [branch|] eqn:E; [|done]. simpl.
  pose proof (Hdown _ _ Hr E) as Hall. clear E.
  induction Hall as [|c branch Hc _ IHb]; [done|].
  simpl. f_equal; [by apply IH|]. apply IHb.
Qed.
End Frame.

Lemma Rightmost_ext store store' r d :
  (forall r, childrenOf store' r = childrenOf store r) ->
  Rightmost store r d -> Rightmost store' r d.
Proof.
  intros Hsame Hr. eapply (Rightmost_frame store store' (fun _ => True)); eauto.
  intros ? branch _ _. by apply Forall_forall.
Qed.

Lemma flatten_ext store store' bound r :
  (forall r, childrenOf store' r = childrenOf store r) ->
  flatten bound store' r = flatten bound store r.
Proof.
  intros Hsame. eapply (flatten_frame store store' (fun _ => True)); eauto.
  intros ? branch _ _. by apply Forall_forall.
Qed.

Lemma wf_reset : wf Handler.reset.
Proof.
  split; simpl.
  - done.
  - done.
  - intros r Hr. apply list_elem_of_singleton in Hr as ->. by eexists.
  - repeat constructor.
  - intros [|r] branch; [|destruct r; done]. intros [= <-]. split; constructor.
  - intros [|r] branch; [|destruct r; done]. intros _ Hn. exfalso. apply Hn. by left.
  - intros [|i] a b; done.
  - intros r Hr. apply list_elem_of_singleton in Hr as ->. done.
  - intros [|[|r]] d; done.
  - intros [|[|r]]; auto.
  - intros [|r] Hr; [done|lia].
  - intros [|r] Hr; [done|lia].
  - intros a Ha. apply list_elem_of_singleton in Ha as ->.
    intros [|bound] Hb; [simpl in Hb; lia|]. done.
  - intros [|[|r]] c cs; done.
Qed.

Lemma sorted_head_max (t : nat) rest r :
  StronglySorted (fun a b => b < a) (t :: rest) -> r ∈ rest -> r < t.
Proof.
  intros Hs Hr. apply StronglySorted_inv in Hs as [_ Hall].
  rewrite Forall_forall in Hall. by apply Hall.
Qed.

Lemma sorted_head_notin (t : nat) rest :
  StronglySorted (fun a b => b < a) (t :: rest) -> t ∉ rest.
Proof. intros Hs Hr. pose proof (sorted_head_max _ _ _ Hs Hr). lia. Qed.

Lemma sorted_lookup {A} (R : A -> A -> Prop) l p q x y :
  StronglySorted R l -> l !! p = Some x -> l !! q = Some y -> p < q -> R x y.
Proof.
  intros Hs. revert p q. induction Hs as [|z l Hs IH Hall]; intros p q Hp Hq Hpq; [done|].
  destruct q as [|q]; [lia|]. simpl in Hq. destruct p as [|p]; simpl in Hp.
  - injection Hp as ->. rewrite Forall_forall in Hall. apply Hall.
    by eapply list_elem_of_lookup_2.
  - eapply IH; eauto. lia.
Qed.

Section Attach.
Variables (h : Handler.t) (node : Node).
Hypothesis Hwf : wf h.
Hypothesis Hfresh : fresh node.
Variables (t : nat) (rest : list nat).
Hypothesis Hanc : Handler.ancestry h = t :: rest.

Let n := length (Handler.store h).

Lemma attach_some :
  exists store' branch,
    childrenOf (Handler.store h) t = Some branch
    /\ link n t (Handler.previous h) (Handler.store h ++ [node]) = Some store'
    /\ Handler.attach node h
       = Some (n, Handler.mk store' (Handler.document h) (Handler.ancestry h) n)
    /\ length store' = S n.
Proof.
  destruct (wf_ancestry h Hwf t) as [branch Hb]; [rewrite Hanc; by left|].
  destruct (link_some (Handler.store h) node t (Handler.previous h) branch Hb)
    as (store' & Hl & Hlen).
  exists store', branch. split; [done|]. split; [done|]. split; [|done].
  unfold Handler.attach. rewrite Hanc. cbn -[link]. by rewrite Hl.
Qed.

Lemma attach_wf store' (open : bool) :
  link n t (Handler.previous h) (Handler.store h ++ [node]) = Some store' ->
  (open = true -> children node = Some []) ->
  wf (Handler.mk store' (Handler.document h)
        (if open then n :: Handler.ancestry h else Handler.ancestry h) n).
Proof.
  intros Hl Hopen.
  destruct attach_some as (store'' & branch & Hb & Hl' & _ & Hlen).
  rewrite Hl in Hl'. injection Hl' as <-.
  pose proof (field_lt _ _ _ _ Hb) as Htn. fold n in Htn.
  pose proof (link_children _ node t (Handler.previous h) branch Hb store') as Hc.
  pose proof (fun r => link_frame _ node t (Handler.previous h) branch Hb tail store' r
                 ltac:(done) ltac:(done) ltac:(done) ltac:(done) ltac:(done) ltac:(done) Hl) as Ht.
  assert (Handler.previous h < n) as Hpn by (pose proof (wf_previous h Hwf); unfold n; lia).
  pose proof (fun r => link_next _ node t (Handler.previous h) branch Hb store' r Hpn Hl) as Hn.
  pose proof (fun r => link_previous _ node t (Handler.previous h) branch Hb store' r Hl) as Hp.
  fold n in Hc, Ht, Hn, Hp.
  specialize (fun r => Hc r Hl).
  destruct Hfresh as (Hfc & Hft & Hfn).
  assert (forall r, r ∈ Handler.ancestry h -> r < n) as Hanc_lt.
  { intros r Hr. destruct (wf_ancestry h Hwf r Hr) as [x Hx].
    by apply field_lt in Hx. }
  assert (n ∉ Handler.ancestry h) as Hn_anc.
  { intros Hin. apply Hanc_lt in Hin. lia. }
  assert (t ∈ Handler.ancestry h) as Ht_anc by (rewrite Hanc; by left).
  assert (forall r, r ∈ (if open then n :: Handler.ancestry h else Handler.ancestry h)
                    -> r = n /\ open = true \/ r ∈ Handler.ancestry h) as Hin'.
  { intros r. destruct open; [|auto]. intros [->|Hr]%elem_of_cons; auto. }
  assert (forall r, r ∉ (if open then n :: Handler.ancestry h else Handler.ancestry h)
                    -> r ∉ Handler.ancestry h) as Hnotin'.
  { intros r Hr Hin. apply Hr. destruct open; [by right|done]. }
  assert (forall r, r ∉ Handler.ancestry h -> r < n ->
                    childrenOf store' r = childrenOf (Handler.store h) r) as Hsame.
  { intros r Hr Hrn. rewrite Hc. rewrite decide_False by (intros ->; done).
    by rewrite decide_False by lia. }
  assert (forall r d, Rightmost (Handler.store h) r d -> r ∉ Handler.ancestry h -> r < n ->
                      Rightmost store' r d) as Hright.
  { intros r d Hr Hnot Hlt.
    apply (Rightmost_frame (Handler.store h) store'
             (fun r => (r ∉ Handler.ancestry h) /\ r < n)); [| |done|done].
    - intros r0 [? ?]. by apply Hsame.
    - intros r0 br [Hr0 Hlt0] Hbr.
      pose proof (wf_closed h Hwf _ _ Hbr Hr0) as H1.
      destruct (wf_children h Hwf _ _ Hbr) as [H2 _].
      rewrite Forall_forall in H1, H2. apply Forall_forall. intros c Hcin.
      split; [by apply H1|]. apply H2 in Hcin. unfold n. lia. }
  assert (forall c, c ∉ Handler.ancestry h -> c < n -> forall bound,
            flatten bound store' c = flatten bound (Handler.store h) c) as Hframe.
  { intros c Hcn Hcl bound.
    apply (flatten_frame (Handler.store h) store'
             (fun r => (r ∉ Handler.ancestry h) /\ r < n)); [| |done].
    - intros r0 [? ?]. by apply Hsame.
    - intros r0 br [Hr0 Hlt0] Hbr.
      pose proof (wf_closed h Hwf _ _ Hbr Hr0) as H1.
      destruct (wf_children h Hwf _ _ Hbr) as [H2 _].
      rewrite Forall_forall in H1, H2. apply Forall_forall. intros c0 Hcin.
      split; [by apply H1|]. apply H2 in Hcin. unfold n. lia. }
  assert (forall bound, 1 <= bound -> flatten bound store' n = [n]) as Hflat_n.
  { intros [|bound] Hbound; [lia|]. simpl.
    rewrite Hc, decide_False by lia. rewrite decide_True by done.
    by destruct Hfc as [-> | ->]. }
  assert (forall bound a, a ∈ Handler.ancestry h -> S n - a <= bound ->
            flatten bound store' a = seq a (S n - a)) as Hflat'.
  { induction bound as [|bound IHb]; intros a Ha Hbound;
      pose proof (Hanc_lt a Ha) as Han; [lia|].
    pose proof (wf_flat h Hwf a Ha (S bound) ltac:(unfold n in *; lia)) as Hflat.
    fold n in Hflat.
    replace (S n - a) with (S (n - a)) by lia. rewrite seq_S.
    replace (a + (n - a)) with n by lia. rewrite <- Hflat.
    cbn [flatten]. rewrite Hc. destruct (decide (a = t)) as [->|Hat].
    - rewrite Hb. cbn [default from_option id]. rewrite bind_app. rewrite <- app_comm_cons.
      f_equal. f_equal.
      + destruct (wf_children h Hwf _ _ Hb) as [H1 _].
        apply Forall_bind_ext. eapply Forall_impl; [exact H1|]. simpl.
        intros c Hcin. apply Hframe; [|unfold n; lia].
        intros Hca. rewrite Hanc in Hca. apply elem_of_cons in Hca as [->|Hca]; [lia|].
        pose proof (sorted_head_max t rest c) as Hmax.
        rewrite <- Hanc in Hmax at 1. specialize (Hmax (wf_sorted h Hwf) Hca). lia.
      + simpl. rewrite app_nil_r. apply Hflat_n. lia.
    - rewrite decide_False by lia.
      apply list_elem_of_lookup_1 in Ha as [i Hi].
      destruct i as [|i]; [rewrite Hanc in Hi; simpl in Hi; congruence|].
      assert (exists a', Handler.ancestry h !! i = Some a') as [a' Ha'].
      { apply lookup_lt_is_Some. apply lookup_lt_Some in Hi. lia. }
      pose proof (wf_spine h Hwf i a' a Ha' Hi) as Hlast.
      destruct (childrenOf (Handler.store h) a) as [br|] eqn:Hbr; [|done].
      simpl in Hlast. unfold atLast in Hlast.
      apply last_Some in Hlast as [br' ->]. cbn [default from_option id].
      destruct (wf_children h Hwf _ _ Hbr) as [H1 H2].
      rewrite Forall_forall in H1.
      assert (a' ∈ Handler.ancestry h) as Ha'in by (by eapply list_elem_of_lookup_2).
      assert (a < a') as Haa' by (apply H1, elem_of_app; right; by left).
      pose proof (Hanc_lt a' Ha'in) as Ha'n.
      rewrite !bind_app. rewrite <- app_comm_cons, <- app_assoc. f_equal. f_equal.
      + apply Forall_bind_ext, Forall_forall. intros c Hcin.
        assert (a < c < n) as Hac by (apply H1, elem_of_app; by left).
        assert (c < a') as Hca'.
        { eapply (StronglySorted_app_1_elem_of lt); [exact H2|done|by left]. }
        apply Hframe; [|lia]. intros Hca.
        apply list_elem_of_lookup_1 in Hca as [j Hj].
        pose proof (wf_sorted h Hwf) as Hs.
        destruct (decide (j <= i)) as [Hji|Hji].
        * destruct (decide (j = i)) as [->|]; [rewrite Ha' in Hj; injection Hj as ->; lia|].
          pose proof (sorted_lookup _ _ j i c a' Hs Hj Ha' ltac:(lia)). simpl in *. lia.
        * destruct (decide (j = S i)) as [->|]; [rewrite Hi in Hj; injection Hj as ->; lia|].
          pose proof (sorted_lookup _ _ (S i) j a c Hs Hi Hj ltac:(lia)). simpl in *. lia.
      + simpl. rewrite !app_nil_r.
        rewrite (wf_flat h Hwf a' Ha'in bound) by (unfold n in *; lia). fold n.
        rewrite IHb by (done || lia).
        replace (S n - a') with (S (n - a')) by lia. rewrite seq_S.
        f_equal. f_equal. lia. }
  split; simpl.
  - apply (wf_document h Hwf).
  - lia.
  - intros r [[-> Ho]|Hr]%Hin'.
    + rewrite Hc, decide_False by lia. rewrite decide_True by done.
      rewrite Hopen by done. by eexists.
    + rewrite Hc. destruct (decide (r = t)); [by eexists|].
      rewrite decide_False by (intros ->; done). by apply (wf_ancestry h Hwf).
  - destruct open; [|apply (wf_sorted h Hwf)].
    constructor; [apply (wf_sorted h Hwf)|]. apply Forall_forall. apply Hanc_lt.
  - intros r br. rewrite Hc. destruct (decide (r = t)) as [->|Hrt].
    + intros [= <-]. destruct (wf_children h Hwf _ _ Hb) as [H1 H2]. split.
      * apply Forall_app. split.
        -- eapply Forall_impl; [exact H1|]. simpl. intros; unfold n in *; lia.
        -- constructor; [lia|constructor].
      * clear -H1 H2. fold n in H1. induction H2 as [|c br Hs IH Hall]; simpl.
        -- repeat constructor.
        -- apply Forall_cons in H1 as [Hc1 H1]. constructor; [by apply IH|].
           apply Forall_app. split; [done|]. constructor; [lia|constructor].
    + destruct (decide (r = n)) as [->|Hrn].
      * destruct Hfc as [Hfc|Hfc]; rewrite Hfc; [done|]. intros [= <-]. split; constructor.
      * intros Hbr. destruct (wf_children h Hwf _ _ Hbr) as [H1 H2]. split; [|done].
        eapply Forall_impl; [exact H1|]. simpl. intros; unfold n in *; lia.
  - intros r br Hbr Hr%Hnotin'. rewrite Hc in Hbr.
    rewrite decide_False in Hbr by (intros ->; done).
    apply Forall_forall. intros c Hcin [[-> Ho]|Hcanc]%Hin'.
    + destruct (decide (r = n)) as [->|Hrn].
      * destruct Hfc as [Hfc|Hfc]; rewrite Hfc in Hbr; [done|].
        injection Hbr as <-. by apply elem_of_nil in Hcin.
      * destruct (wf_children h Hwf _ _ Hbr) as [H1 _].
        rewrite Forall_forall in H1. apply H1 in Hcin. unfold n in *. lia.
    + destruct (decide (r = n)) as [->|Hrn].
      * destruct Hfc as [Hfc|Hfc]; rewrite Hfc in Hbr; [done|].
        injection Hbr as <-. by apply elem_of_nil in Hcin.
      * pose proof (wf_closed h Hwf _ _ Hbr Hr) as H1.
        rewrite Forall_forall in H1. by apply (H1 c).
  - assert (forall i a b, Handler.ancestry h !! i = Some a ->
                          Handler.ancestry h !! S i = Some b ->
                          (branch ← childrenOf store' b; atLast branch) = Some a) as Hold.
    { intros i a b Ha Hb'. rewrite Hc.
      assert (b ≠ t) as Hbt.
      { intros ->. rewrite Hanc in Hb'. simpl in Hb'.
        apply list_elem_of_lookup_2 in Hb'.
        by apply (sorted_head_notin t rest); [rewrite <- Hanc; apply (wf_sorted h Hwf)|]. }
      rewrite decide_False by done.
      rewrite decide_False by (intros ->; apply Hn_anc; by eapply list_elem_of_lookup_2).
      by apply (wf_spine h Hwf i). }
    destruct open; [|exact Hold].
    intros [|i] a b; simpl; [|apply Hold].
    intros [= <-]. rewrite Hanc. simpl. intros [= <-].
    rewrite Hc, decide_True by done. simpl. unfold atLast. by rewrite last_snoc.
  - intros r [[-> Ho]|Hr]%Hin'; rewrite Ht.
    + by rewrite decide_True.
    + rewrite decide_False by (intros ->; done). by apply (wf_tail_open h Hwf).
  - intros r d. rewrite Ht. destruct (decide (r = n)) as [->|Hrn]; [by rewrite Hft|].
    intros Hd. destruct (wf_tail_some h Hwf _ _ Hd) as (HR & c & cs & Hcs).
    assert (r ∉ Handler.ancestry h) as Hr.
    { intros Hr. by rewrite (wf_tail_open h Hwf r Hr) in Hd. }
    assert (r < n) as Hlt by (by apply field_lt in Hd).
    split; [by apply Hright|]. exists c, cs. by rewrite Hsame.
  - intros r Hr%Hnotin'. rewrite Ht, Hc.
    rewrite (decide_False (P := r = t)) by (intros ->; done).
    destruct (decide (r = n)) as [->|Hrn]; [done|].
    by apply (wf_tail_none h Hwf).
  - intros r Hr. rewrite Hn, Hlen.
    pose proof (wf_previous h Hwf) as Hprev. fold n in Hprev.
    destruct (decide (r = Handler.previous h)) as [->|Hrp].
    + rewrite decide_True by lia. f_equal. lia.
    + destruct (decide (r = n)) as [->|Hrn].
      * by rewrite decide_False by lia.
      * rewrite (wf_next h Hwf) by (unfold n in *; lia). fold n.
        rewrite decide_True by lia. by rewrite decide_True by lia.
  - intros r Hr. rewrite Hp.
    pose proof (wf_previous h Hwf) as Hprev. fold n in Hprev.
    destruct (decide (r = n)) as [->|Hrn].
    + by rewrite <- Hprev.
    + apply (wf_prev h Hwf). unfold n in *. lia.
  - intros a Ha%Hin' bound Hbound. rewrite Hlen in *.
    destruct Ha as [[-> Ho]|Ha]; [|by apply Hflat'].
    destruct bound as [|bound]; [lia|]. simpl.
    rewrite Hc, decide_False by lia. rewrite decide_True by done.
    rewrite Hopen by done. simpl. by replace (S n - n) with 1 by lia.
  - intros r c cs. rewrite Hc. destruct (decide (r = t)) as [->|Hrt].
    + destruct branch as [|c0 branch']; simpl; intros [= <- <-].
      * pose proof (wf_flat h Hwf t Ht_anc (S n) ltac:(unfold n; lia)) as Hflat.
        simpl in Hflat. rewrite Hb in Hflat. simpl in Hflat. fold n in Hflat.
        destruct (n - t) as [|[|k]] eqn:E; simpl in Hflat; try done; lia.
      * by apply (wf_first h Hwf t c0 branch').
    + destruct (decide (r = n)) as [->|Hrn].
      * by destruct Hfc as [-> | ->].
      * apply (wf_first h Hwf).
Qed.
End Attach.

Section Close.
Variable h : Handler.t.
Hypothesis Hwf : wf h.
Variables (t : nat) (rest : list nat).
Hypothesis Hanc : Handler.ancestry h = t :: rest.

Let store' :=
  alter (set_tail (Handler.lastDescendant (Handler.store h) t)) t (Handler.store h).

Lemma onEndTag_some :
  Handler.onEndTag h
  = Some (Handler.mk store' (Handler.document h) rest (Handler.previous h)).
Proof.
  unfold Handler.onEndTag. rewrite Hanc.
  destruct (wf_ancestry h Hwf t) as [branch ->]; [rewrite Hanc; by left|]. done.
Qed.

Lemma onEndTag_wf :
  wf (Handler.mk store' (Handler.document h) rest (Handler.previous h)).
Proof.
  assert (forall r, childrenOf store' r = childrenOf (Handler.store h) r) as Hc.
  { intros r. unfold store'. rewrite !childrenOf_field. by apply field_alter_frame. }
  assert (forall r, field next store' r = field next (Handler.store h) r) as Hn.
  { intros r. by apply field_alter_frame. }
  assert (forall r, field previous store' r = field previous (Handler.store h) r) as Hp.
  { intros r. by apply field_alter_frame. }
  assert (length store' = length (Handler.store h)) as Hlen by apply length_alter.
  destruct (wf_ancestry h Hwf t) as [branch Hb]; [rewrite Hanc; by left|].
  pose proof (field_lt _ _ _ _ Hb) as Htn.
  assert (forall r, field tail store' r =
            if decide (r = t) then Handler.lastDescendant (Handler.store h) t
            else field tail (Handler.store h) r) as Ht.
  { intros r. unfold store'. destruct (decide (r = t)) as [->|Hrt].
    - rewrite field_alter_eq. apply lookup_lt_is_Some in Htn as [x ->]. done.
    - by rewrite field_alter_ne. }
  pose proof (wf_sorted h Hwf) as Hs. rewrite Hanc in Hs.
  assert (forall r, r ∈ rest -> r ∈ Handler.ancestry h) as Hsub.
  { intros r Hr. rewrite Hanc. by right. }
  assert (forall r, r ∉ rest -> r ≠ t -> r ∉ Handler.ancestry h) as Hout.
  { intros r Hr Hrt. rewrite Hanc. intros [->|Hin]%elem_of_cons; done. }
  assert (forall c, c ∈ branch -> c ∉ Handler.ancestry h) as Hbranch.
  { intros c Hcin Hca. destruct (wf_children h Hwf _ _ Hb) as [H1 _].
    rewrite Forall_forall in H1. apply H1 in Hcin. rewrite Hanc in Hca.
    apply elem_of_cons in Hca as [->|Hca]; [lia|].
    pose proof (sorted_head_max t rest c Hs Hca). lia. }
  split; simpl.
  - apply (wf_document h Hwf).
  - rewrite Hlen. apply (wf_previous h Hwf).
  - intros r Hr. rewrite Hc. by apply (wf_ancestry h Hwf), Hsub.
  - by apply StronglySorted_inv in Hs as [? _].
  - intros r br. rewrite Hc, Hlen. apply (wf_children h Hwf).
  - intros r br. rewrite Hc. intros Hbr Hr.
    destruct (decide (r = t)) as [->|Hrt].
    + rewrite Hb in Hbr. injection Hbr as <-. apply Forall_forall.
      intros c Hcin Hcr. by apply (Hbranch c Hcin), Hsub.
    + pose proof (wf_closed h Hwf _ _ Hbr (Hout r Hr Hrt)) as H1.
      eapply Forall_impl; [exact H1|]. simpl. intros c Hcn Hcr. by apply Hcn, Hsub.
  - intros i a b Ha Hb'. rewrite Hc. apply (wf_spine h Hwf (S i)); by rewrite Hanc.
  - intros r Hr. rewrite Ht. rewrite decide_False.
    + by apply (wf_tail_open h Hwf), Hsub.
    + intros ->. by apply (sorted_head_notin t rest).
  - intros r d. rewrite Ht. setoid_rewrite Hc.
    destruct (decide (r = t)) as [->|Hrt].
    + unfold Handler.lastDescendant. rewrite Hb. simpl.
      destruct (atLast branch) as [c|] eqn:Hlast; [|done]. simpl.
      pose proof Hlast as Hlast'. unfold atLast in Hlast'.
      apply last_Some in Hlast' as [br' ->].
      assert (c ∉ Handler.ancestry h) as Hcn.
      { apply Hbranch. apply elem_of_app. right. by left. }
      intros Hd. split.
      * apply (Rightmost_ext (Handler.store h)); [done|].
        eapply Rightmost_below; [by rewrite Hb|].
        match type of Hd with match ?o with _ => _ end = _ =>
          assert (o = field tail (Handler.store h) c) as Ho by reflexivity;
          destruct o as [d'|]; symmetry in Ho; rename Ho into Htail end.
        -- injection Hd as ->. by apply (wf_tail_some h Hwf).
        -- injection Hd as <-. apply Rightmost_here.
           by destruct (wf_tail_none h Hwf c Hcn Htail) as [-> | ->].
      * destruct br'; simpl; eauto.
    + intros Hd. destruct (wf_tail_some h Hwf _ _ Hd) as [HR Hex]. split; [|done].
      by apply (Rightmost_ext (Handler.store h)).
  - intros r Hr. rewrite Ht, Hc. destruct (decide (r = t)) as [->|Hrt].
    + unfold Handler.lastDescendant. rewrite Hb. simpl.
      destruct (atLast branch) as [c|] eqn:Hlast.
      * simpl. by destruct (_ ≫= tail).
      * intros _. right. unfold atLast in Hlast. apply last_None in Hlast. by subst.
    + by apply (wf_tail_none h Hwf), Hout.
  - intros r. rewrite Hlen, Hn. apply (wf_next h Hwf).
  - intros r. rewrite Hlen, Hp. apply (wf_prev h Hwf).
  - intros a Ha bound. rewrite Hlen. rewrite (flatten_ext (Handler.store h)) by done.
    by apply (wf_flat h Hwf), Hsub.
  - intros r c cs. rewrite Hc. apply (wf_first h Hwf).
Qed.
End Close.

Lemma sound_reset : sound Handler.reset.
Proof.
  split; [apply wf_reset|]. intros [|[|r]] node; try done.
  simpl. by intros [= <-].
Qed.

Lemma lookup_field {A} (proj : Node -> A) (store : Store) r node :
  store !! r = Some node -> field (fun x => Some (proj x)) store r = Some (proj node).
Proof. intros H. unfold field. by rewrite H. Qed.

Lemma field_lookup {A} (proj : Node -> A) (store : Store) r x :
  field (fun x => Some (proj x)) store r = Some x ->
  exists node, store !! r = Some node /\ proj node = x.
Proof.
  unfold field. destruct (store !! r) as [node|]; [|done].
  simpl. intros [= <-]. eauto.
Qed.

(** Attaching a node, then opening it or not. *)
Lemma attach_sound h node (open : bool) t rest :
  sound h -> fresh node -> Handler.ancestry h = t :: rest ->
  (open = true -> children node = Some []) ->
  (void (name node) = true -> open = false /\ children node = Some []) ->
  exists store',
    Handler.attach node h
    = Some (length (Handler.store h),
            Handler.mk store' (Handler.document h) (Handler.ancestry h)
                       (length (Handler.store h)))
    /\ length store' = S (length (Handler.store h))
    /\ sound (Handler.mk store' (Handler.document h)
                (if open then length (Handler.store h) :: Handler.ancestry h
                 else Handler.ancestry h)
                (length (Handler.store h))).
Proof.
  intros [Hwf Hvoid] Hfresh Hanc Hopen Hv.
  destruct (attach_some h node Hwf t rest Hanc) as (store' & branch & Hb & Hl & Ha & Hlen).
  exists store'. split; [done|]. split; [done|]. split.
  { by eapply attach_wf. }
  pose proof (link_children _ node t (Handler.previous h) branch Hb store') as Hc.
  specialize (fun r => Hc r Hl).
  pose proof (fun r => link_frame _ node t (Handler.previous h) branch Hb
                 (fun x => Some (name x)) store' r
                 ltac:(done) ltac:(done) ltac:(done) ltac:(done) ltac:(done) ltac:(done) Hl) as Hn.
  pose proof (field_lt _ _ _ _ Hb) as Htn.
  intros r node' Hr Hvr. simpl in Hr |- *.
  pose proof (lookup_field name _ _ _ Hr) as Hname. rewrite Hn in Hname.
  pose proof (Hc r) as Hcr. unfold childrenOf in Hcr at 1. rewrite Hr in Hcr. simpl in Hcr.
  destruct (decide (r = length (Handler.store h))) as [->|Hrn].
  - injection Hname as Hname. rewrite <- Hname in Hvr. destruct (Hv Hvr) as [-> Hch].
    rewrite decide_False in Hcr by lia. split; [congruence|].
    intros Hin. destruct (wf_ancestry h Hwf _ Hin) as [x Hx]. apply field_lt in Hx. lia.
  - apply field_lookup in Hname as (old & Hold & Hnm). rewrite <- Hnm in Hvr.
    destruct (Hvoid r old Hold Hvr) as [Hch Hnot].
    assert (r ≠ t) as Hrt by (intros ->; apply Hnot; rewrite Hanc; by left).
    rewrite decide_False in Hcr by done. unfold childrenOf in Hcr. rewrite Hold in Hcr.
    simpl in Hcr. split; [congruence|].
    destruct open; [|done]. intros [->|Hin]%elem_of_cons; done.
Qed.

Lemma onEndTag_sound h t rest :
  sound h -> Handler.ancestry h = t :: rest ->
  exists h', Handler.onEndTag h = Some h'
    /\ sound h' /\ Handler.ancestry h' = rest
    /\ length (Handler.store h') = length (Handler.store h).
Proof.
  intros [Hwf Hvoid] Hanc. eexists. split; [by apply (onEndTag_some h Hwf t rest)|].
  split; [split; [by apply onEndTag_wf|]|split; [done|apply length_alter]].
  intros r node Hr Hv. simpl in *.
  pose proof (lookup_field name _ _ _ Hr) as Hname.
  rewrite field_alter_frame in Hname by done.
  apply field_lookup in Hname as (old & Hold & Hnm). rewrite <- Hnm in Hv.
  destruct (Hvoid r old Hold Hv) as [Hch Hnot].
  pose proof (lookup_field children _ _ _ Hr) as Hchild.
  rewrite field_alter_frame in Hchild by done.
  apply field_lookup in Hchild as (old' & Hold' & Hch'). 
  rewrite Hold in Hold'. injection Hold' as <-.
  split; [congruence|]. intros Hin. apply Hnot. rewrite Hanc. by right.
Qed.

(** What one call does to a sound handler with an open tag. *)
Lemma receive_sound h c t rest :
  sound h -> consistent c -> Handler.ancestry h = t :: rest ->
  exists h', Handler.receive h c = Some h' /\ sound h'
    /\ Handler.ancestry h' =
       match c with
       | HandlerCall.onStartTag _ _ false =>
           length (Handler.store h) :: Handler.ancestry h
       | HandlerCall.onEndTag _ => rest
       | _ => Handler.ancestry h
       end.
Proof.
  intros Hs Hc Hanc. destruct c as [nm attrs sc|e|v|v|v|v|v]; simpl.
  - simpl in Hc. subst sc.
    destruct (attach_sound h (newTag nm (Handler.group attrs) TAG) (negb (void nm)) t rest)
      as (store' & Ha & Hlen & Hs'); try done.
    { split; [by right|done]. }
    { simpl. intros ->. done. }
    unfold Handler.onStartTag. rewrite Ha. simpl.
    destruct (void nm); simpl in *; eauto.
  - destruct (onEndTag_sound h t rest Hs Hanc) as (h' & ? & ? & ? & ?). eauto.
  - destruct (attach_sound h (newText v TEXT) false t rest)
      as (store' & Ha & Hlen & Hs'); try done.
    { split; [by left|done]. }
    unfold Handler.onText, Handler.onData. rewrite Ha. simpl. eauto.
  - destruct (attach_sound h (newText v COMMENT) false t rest)
      as (store' & Ha & Hlen & Hs'); try done.
    { split; [by left|done]. }
    unfold Handler.onComment, Handler.onData. rewrite Ha. simpl. eauto.
  - destruct (attach_sound h (newText v CDATA) false t rest)
      as (store' & Ha & Hlen & Hs'); try done.
    { split; [by left|done]. }
    unfold Handler.onCDATA, Handler.onData. rewrite Ha. simpl. eauto.
  - destruct (attach_sound h (newText v DOCTYPE) false t rest)
      as (store' & Ha & Hlen & Hs'); try done.
    { split; [by left|done]. }
    unfold Handler.onDeclaration, Handler.onData. rewrite Ha. simpl. eauto.
  - destruct (attach_sound h (newText v DIRECTIVE) false t rest)
      as (store' & Ha & Hlen & Hs'); try done.
    { split; [by left|done]. }
    unfold Handler.onDirective, Handler.onData. rewrite Ha. simpl. eauto.
Qed.

Lemma advances_refl p p' :
  Parser.handler p' = Parser.handler p -> Parser.stack p' = Parser.stack p ->
  advances p p'.
Proof.
  intros Hh Hs. exists [], []. simpl. rewrite app_nil_r.
  split; [done|]. split; [lia|]. left. by rewrite drop_0.
Qed.

Lemma advances_data p c :
  isData c -> advances p (Parser.call c p).
Proof.
  intros Hc. exists [], [c]. simpl. split; [done|]. split; [lia|].
  right. right. exists c. by rewrite drop_0.
Qed.

Lemma closeImplicit_pops close this :
  exists k, k <= length (Parser.stack this)
    /\ Forall (fun e => exists name, e = Some name /\ has close name = true)
              (take k (Parser.stack this))
    /\ Parser.closes close (drop k (Parser.stack this)) = false
    /\ Parser.closeImplicit close (Parser.stack this) this =
       Parser.mk (Parser.handler this ++ replicate k (onEndTag false))
         (Parser.buffer this) (drop k (Parser.stack this)) (Parser.text this)
         (Parser.tagName this) (Parser.attributeName this)
         (Parser.attributeValue this) (Parser.attributes this).
Proof.
  destruct this as [h b st tx tn an av at_]. simpl.
  revert h. induction st as [|top below IH]; intros h.
  - exists 0. simpl. rewrite app_nil_r. by repeat split.
  - cbn [Parser.closeImplicit].
    destruct (Parser.closes close (top :: below)) eqn:Hcl.
    + destruct (IH (h ++ [onEndTag false])) as (k & Hk & Hall & Hno & Heq).
      exists (S k). simpl. split; [lia|]. split; [|split; [done|]].
      * constructor; [|done]. destruct top as [name|]; simpl in Hcl.
        -- exists name. by split.
        -- discriminate.
      * unfold Parser.pop, Parser.call, Parser.set_stack. simpl.
        rewrite Heq. by rewrite <- app_assoc.
    + exists 0. simpl. rewrite app_nil_r. split; [lia|]. split; [constructor|]. by split.
Qed.

Lemma closeAll_spec this :
  Parser.closeAll (Parser.stack this) this =
  Parser.mk (Parser.handler this ++ replicate (length (Parser.stack this)) (onEndTag false))
    (Parser.buffer this) [] (Parser.text this)
    (Parser.tagName this) (Parser.attributeName this)
    (Parser.attributeValue this) (Parser.attributes this).
Proof.
  destruct this as [h b st tx tn an av at_]. simpl.
  revert h. induction st as [|top below IH]; intros h; simpl.
  - by rewrite app_nil_r.
  - unfold Parser.pop, Parser.call, Parser.set_stack. simpl.
    rewrite IH. by rewrite <- app_assoc.
Qed.

Lemma fmap_replicate_flag k (b : bool) :
  replicate k (onEndTag b) = onEndTag <$> replicate k b.
Proof. by rewrite fmap_replicate. Qed.

Lemma nearest_bound name stack d :
  Parser.nearest name stack = Some d -> d < length stack.
Proof.
  revert d. induction stack as [|top below IH]; intros d; simpl; [done|].
  case_bool_decide; [intros [= <-]; lia|].
  destruct (Parser.nearest name below) as [d'|]; simpl; [|done].
  intros [= <-]. specialize (IH d' eq_refl). lia.
Qed.

Section Steps.
Variable decode : string -> option string.

Lemma onStartTagClose_advances p : advances p (Parser.onStartTagClose p).
Proof.
  unfold Parser.onStartTagClose.
  set (close := Parser.tagName p ≫= _).
  assert (exists k, k <= length (Parser.stack p) /\
            match close with
            | Some close => Parser.closeImplicit close (Parser.stack p) p
            | None => p
            end =
            Parser.mk (Parser.handler p ++ replicate k (onEndTag false))
              (Parser.buffer p) (drop k (Parser.stack p)) (Parser.text p)
              (Parser.tagName p) (Parser.attributeName p)
              (Parser.attributeValue p) (Parser.attributes p)) as (k & Hk & ->).
  { destruct close as [close|].
    - destruct (closeImplicit_pops close p) as (k & ? & _ & _ & ?). eauto.
    - exists 0. split; [lia|]. destruct p. simpl. by rewrite app_nil_r. }
  cbn [Parser.tagName Parser.attributes].
  exists (replicate k false),
    [onStartTag (Parser.tagName p) (Parser.attributes p) (void (Parser.tagName p))].
  rewrite length_replicate, <- fmap_replicate_flag.
  assert (match Parser.tagName p with
          | Some name => has emptyElements name
          | None => false
          end = void (Parser.tagName p)) as -> by done.
  split; [|split; [done|]].
  - destruct (void (Parser.tagName p)); simpl; by rewrite <- app_assoc.
  - right. left. eexists _, _. split; [done|].
    by destruct (void (Parser.tagName p)).
Qed.

Lemma onEndTagName_advances p start end_ :
  advances p (Parser.onEndTagName p start end_).
Proof.
  unfold Parser.onEndTagName.
  destruct (has emptyElements _); [by apply advances_refl|].
  unfold Parser.lastIndexOf.
  destruct (Parser.nearest _ _) as [d|] eqn:Hd.
  - apply nearest_bound in Hd.
    case Z.eqb_spec; [lia|intros _].
    replace (Z.to_nat _) with d by lia.
    rewrite closeDistance_spec.
    exists (replicate d false ++ [true]), []. simpl.
    rewrite length_app, length_replicate. simpl.
    split; [|split; [lia|]].
    + by rewrite fmap_app, <- fmap_replicate_flag, app_nil_r.
    + left. split; [done|]. f_equal. lia.
  - case Z.eqb_spec; [intros _|lia]. by apply advances_refl.
Qed.

Lemma receive_advances p c : advances p (Parser.receive decode p c).
Proof.
  destruct c; cbn [Parser.receive].
  - by apply advances_refl.
  - by apply advances_refl.
  - exists [], [HandlerCall.onText (JS.trim (JS.join (Parser.text p)))].
    unfold Parser.onTextEnd. simpl. split; [done|]. split; [lia|]. right. right.
    eexists. split; [done|]. split; [done|]. by rewrite drop_0.
  - by apply advances_refl.
  - by apply advances_refl.
  - by apply advances_refl.
  - by apply advances_refl.
  - by apply advances_refl.
  - by apply advances_refl.
  - apply onStartTagClose_advances.
  - apply onEndTagName_advances.
  - by apply advances_data.
  - by apply advances_data.
  - by apply advances_data.
  - by apply advances_refl.
Qed.
End Steps.

Lemma run_app calls1 calls2 h :
  Handler.run (calls1 ++ calls2) h = h' ← Handler.run calls1 h; Handler.run calls2 h'.
Proof.
  revert h. induction calls1 as [|c calls1 IH]; intros h; simpl; [done|].
  destruct (Handler.receive h c); simpl; [apply IH|done].
Qed.

Lemma run_pops (flags : list bool) h :
  sound h -> length flags < length (Handler.ancestry h) ->
  exists h', Handler.run (onEndTag <$> flags) h = Some h'
    /\ sound h' /\ Handler.ancestry h' = drop (length flags) (Handler.ancestry h).
Proof.
  revert h. induction flags as [|b flags IH]; intros h Hs Hlen; simpl.
  - exists h. by rewrite drop_0.
  - destruct (Handler.ancestry h) as [|t rest] eqn:Hanc; [simpl in Hlen; lia|].
    destruct (onEndTag_sound h t rest Hs Hanc) as (h1 & -> & Hs1 & Hanc1 & _).
    simpl. destruct (IH h1 Hs1) as (h' & Hrun & Hs' & Hanc').
    { rewrite Hanc1. simpl in Hlen. lia. }
    exists h'. by rewrite Hanc' , Hanc1.
Qed.

Lemma last_drop {A} (l : list A) k : k < length l -> last (drop k l) = last l.
Proof.
  revert k. induction l as [|x l IH]; intros k Hk; [simpl in Hk; lia|].
  destruct k as [|k]; [done|]. simpl in *. rewrite IH by lia.
  destruct l; [simpl in Hk; lia|done].
Qed.

Lemma advances_aligned p p' h :
  advances p p' -> sound h -> aligned (Parser.stack p) h ->
  Handler.run (Parser.handler p) Handler.reset = Some h ->
  exists h', Handler.run (Parser.handler p') Handler.reset = Some h'
    /\ sound h' /\ aligned (Parser.stack p') h'.
Proof.
  intros (flags & calls & Hh & Hk & Hcases) Hs [Hlen Hlast] Hrun.
  rewrite Hh, run_app, Hrun. simpl. rewrite run_app.
  destruct (run_pops flags h Hs) as (h1 & -> & Hs1 & Hanc1); [lia|]. simpl.
  assert (aligned (drop (length flags) (Parser.stack p)) h1) as [Hlen1 Hlast1].
  { split; rewrite Hanc1.
    - rewrite !length_drop. lia.
    - rewrite last_drop by lia. done. }
  assert (exists t rest, Handler.ancestry h1 = t :: rest) as (t & rest & Hanc).
  { destruct (Handler.ancestry h1) as [|t rest]; [simpl in Hlen1; lia|eauto]. }
  destruct Hcases as [[-> Hst]|[(nm & attrs & -> & Hst)|(c & -> & Hc & Hst)]].
  - exists h1. simpl. rewrite Hst. done.
  - destruct (receive_sound h1 (onStartTag nm attrs (void nm)) t rest Hs1)
      as (h' & Hr & Hs' & Hanc'); [done|done|].
    exists h'. cbn [Handler.run]. rewrite Hr. simpl. split; [done|]. split; [done|].
    rewrite Hst. unfold aligned. rewrite Hanc'.
    destruct (void nm); [done|]. simpl. split; [lia|].
    rewrite Hanc in *. done.
  - destruct (receive_sound h1 c t rest Hs1) as (h' & Hr & Hs' & Hanc'); [|done|].
    { by destruct c. }
    exists h'. cbn [Handler.run]. rewrite Hr. simpl. split; [done|]. split; [done|].
    rewrite Hst. unfold aligned. rewrite Hanc'. by destruct c.
Qed.

Section Built.
Variable decode : string -> option string.

Lemma run_aligned chunk calls :
  exists h,
    Handler.run (Parser.handler (Parser.run decode chunk calls)) Handler.reset = Some h
    /\ sound h /\ aligned (Parser.stack (Parser.run decode chunk calls)) h.
Proof.
  unfold Parser.run. induction calls as [|c calls IH] using rev_ind.
  - exists Handler.reset. simpl. split; [done|]. split; [apply sound_reset|done].
  - rewrite foldl_app. simpl. destruct IH as (h & Hrun & Hs & Hal).
    eapply advances_aligned; eauto. apply receive_advances.
Qed.

(** Every sequence of calls of the Lexer builds a tree, all tags closed. *)
Lemma build_sound chunk calls :
  exists h, build decode chunk calls = Some h
    /\ sound h /\ Handler.ancestry h = [0].
Proof.
  destruct (run_aligned chunk calls) as (h & Hrun & Hs & Hlen & Hlast).
  unfold build, Parser.onEnd. rewrite closeAll_spec. simpl.
  rewrite run_app, Hrun. simpl. rewrite fmap_replicate_flag.
  destruct (run_pops (replicate (length (Parser.stack (Parser.run decode chunk calls))) false)
              h Hs) as (h' & -> & Hs' & Hanc).
  { rewrite length_replicate. lia. }
  exists h'. split; [done|]. split; [done|].
  rewrite length_replicate in Hanc.
  assert (length (Handler.ancestry h') = 1) as Hone.
  { rewrite Hanc, length_drop. lia. }
  assert (last (Handler.ancestry h') = Some 0) as Hl.
  { rewrite Hanc, last_drop by lia. done. }
  destruct (Handler.ancestry h') as [|x [|y l]]; simpl in *; try lia.
  congruence.
Qed.
End Built.

(** ** Invariant of the Parser's stack *)

Lemma isUpper_lower c : JS.isUpper (JS.lower c) = false.
Proof. by destruct c as [[] [] [] [] [] [] [] []]. Qed.

Lemma hasUpper_toLowerCase s : hasUpper (JS.toLowerCase s) = false.
Proof.
  induction s as [|c s IH]; simpl; [done|].
  by rewrite isUpper_lower, IH.
Qed.

Section Tidy.
Variable decode : string -> option string.

Lemma receive_tidy p c : tidy p -> tidy (Parser.receive decode p c).
Proof.
  intros [Hst Htn]. destruct c; cbn [Parser.receive]; try (split; assumption).
  - split; [done|]. simpl. intros name [= <-]. apply hasUpper_toLowerCase.
  - unfold Parser.onStartTagClose.
    set (close := Parser.tagName p ≫= _).
    assert (exists k,
              match close with
              | Some close => Parser.closeImplicit close (Parser.stack p) p
              | None => p
              end =
              Parser.mk (Parser.handler p ++ replicate k (onEndTag false))
                (Parser.buffer p) (drop k (Parser.stack p)) (Parser.text p)
                (Parser.tagName p) (Parser.attributeName p)
                (Parser.attributeValue p) (Parser.attributes p)) as (k & ->).
    { destruct close as [close|].
      - destruct (closeImplicit_pops close p) as (k & _ & _ & _ & ?). eauto.
      - exists 0. destruct p. simpl. by rewrite app_nil_r. }
    cbn [Parser.tagName Parser.attributes].
    change (match Parser.tagName p with
            | Some name => has emptyElements name
            | None => false
            end) with (void (Parser.tagName p)).
    split; [|done].
    destruct (void (Parser.tagName p)) eqn:Hv; simpl.
    + by apply Forall_drop.
    + constructor; [by split|by apply Forall_drop].
  - unfold Parser.onEndTagName.
    destruct (has emptyElements _); [done|].
    destruct (_ =? _)%Z; [done|].
    rewrite closeDistance_spec. split; [|done]. simpl. by apply Forall_drop.
Qed.

Lemma run_tidy chunk calls : tidy (Parser.run decode chunk calls).
Proof.
  unfold Parser.run. induction calls as [|c calls IH] using rev_ind.
  - split; [constructor|done].
  - rewrite foldl_app. by apply receive_tidy.
Qed.
End Tidy.

(** ** The [next] chain *)

Lemma chain_seq h :
  wf h -> forall bound r, r < length (Handler.store h) ->
  length (Handler.store h) - r <= bound ->
  chain bound (Handler.store h) r = seq r (length (Handler.store h) - r).
Proof.
  intros Hwf. induction bound as [|bound IH]; intros r Hr Hb; [lia|].
  simpl. change (Handler.store h !! r ≫= (fun node => next node))
    with (field next (Handler.store h) r).
  rewrite (wf_next h Hwf r Hr).
  replace (length (Handler.store h) - r) with (S (length (Handler.store h) - S r)) by lia.
  simpl. f_equal. case_decide.
  - apply IH; lia.
  - by replace (length (Handler.store h) - S r) with 0 by lia.
Qed.

(** The invariant holds after any calls the handler survives. *)
Lemma receive_wf h c h' : wf h -> Handler.receive h c = Some h' -> wf h'.
Proof.
  intros Hwf Hr.
  assert (forall node (open : bool) x,
            fresh node -> (open = true -> children node = Some []) ->
            Handler.attach node h = Some x ->
            wf (Handler.mk (Handler.store x.2) (Handler.document h)
                  (if open then length (Handler.store h) :: Handler.ancestry h
                   else Handler.ancestry h) (length (Handler.store h)))
            /\ x.1 = length (Handler.store h)
            /\ Handler.document x.2 = Handler.document h
            /\ Handler.ancestry x.2 = Handler.ancestry h
            /\ Handler.previous x.2 = length (Handler.store h)) as Hattach.
  { intros node open x Hf Ho Ha.
    assert (exists t rest, Handler.ancestry h = t :: rest) as (t & rest & Hanc).
    { unfold Handler.attach in Ha. revert Ha. destruct (Handler.ancestry h); [done|eauto]. }
    destruct (attach_some h node Hwf t rest Hanc) as (store' & branch & Hb & Hl & Ha' & Hlen).
    rewrite Ha in Ha'. injection Ha' as ->. simpl.
    split; [|done]. by eapply attach_wf. }
  destruct c as [nm attrs sc|e|v|v|v|v|v]; simpl in Hr.
  - unfold Handler.onStartTag in Hr.
    destruct (Handler.attach _ h) as [[tag x]|] eqn:Ha; [|done]. simpl in Hr.
    destruct (Hattach (newTag nm (Handler.group attrs) TAG) (negb sc) _
                ltac:(split; [by right|done]) ltac:(done) Ha)
      as (Hw & Htag & Hd & Hanc & Hp). simpl in *. subst tag.
    injection Hr as <-. destruct x as [s d a p]. simpl in *. subst.
    by destruct sc.
  - assert (exists t rest, Handler.ancestry h = t :: rest) as (t & rest & Hanc).
    { unfold Handler.onEndTag in Hr. revert Hr. destruct (Handler.ancestry h); [done|eauto]. }
    rewrite (onEndTag_some h Hwf t rest Hanc) in Hr. injection Hr as <-.
    by apply onEndTag_wf.
  - unfold Handler.onText, Handler.onData in Hr.
    destruct (Handler.attach _ h) as [[tag x]|] eqn:Ha; [|done]. simpl in Hr.
    destruct (Hattach (newText v TEXT) false _
                ltac:(split; [by left|done]) ltac:(done) Ha)
      as (Hw & Htag & Hd & Hanc & Hp). simpl in *.
    injection Hr as <-. destruct x as [s d a p]. simpl in *. by subst.
  - unfold Handler.onComment, Handler.onData in Hr.
    destruct (Handler.attach _ h) as [[tag x]|] eqn:Ha; [|done]. simpl in Hr.
    destruct (Hattach (newText v COMMENT) false _
                ltac:(split; [by left|done]) ltac:(done) Ha)
      as (Hw & Htag & Hd & Hanc & Hp). simpl in *.
    injection Hr as <-. destruct x as [s d a p]. simpl in *. by subst.
  - unfold Handler.onCDATA, Handler.onData in Hr.
    destruct (Handler.attach _ h) as [[tag x]|] eqn:Ha; [|done]. simpl in Hr.
    destruct (Hattach (newText v CDATA) false _
                ltac:(split; [by left|done]) ltac:(done) Ha)
      as (Hw & Htag & Hd & Hanc & Hp). simpl in *.
    injection Hr as <-. destruct x as [s d a p]. simpl in *. by subst.
  - unfold Handler.onDeclaration, Handler.onData in Hr.
    destruct (Handler.attach _ h) as [[tag x]|] eqn:Ha; [|done]. simpl in Hr.
    destruct (Hattach (newText v DOCTYPE) false _
                ltac:(split; [by left|done]) ltac:(done) Ha)
      as (Hw & Htag & Hd & Hanc & Hp). simpl in *.
    injection Hr as <-. destruct x as [s d a p]. simpl in *. by subst.
  - unfold Handler.onDirective, Handler.onData in Hr.
    destruct (Handler.attach _ h) as [[tag x]|] eqn:Ha; [|done]. simpl in Hr.
    destruct (Hattach (newText v DIRECTIVE) false _
                ltac:(split; [by left|done]) ltac:(done) Ha)
      as (Hw & Htag & Hd & Hanc & Hp). simpl in *.
    injection Hr as <-. destruct x as [s d a p]. simpl in *. by subst.
Qed.

Lemma run_wf calls h h' : wf h -> Handler.run calls h = Some h' -> wf h'.
Proof.
  revert h. induction calls as [|c calls IH]; intros h Hwf; simpl.
  - by intros [= <-].
  - destruct (Handler.receive h c) as [h1|] eqn:Hr; [|done]. simpl.
    apply IH. by eapply receive_wf.
Qed.

(** How one call of the handler that succeeds was served. *)
Lemma receive_cases h c h' :
  wf h -> Handler.receive h c = Some h' ->
  (exists e t rest,
     c = onEndTag e /\ Handler.ancestry h = t :: rest
     /\ h' = Handler.mk
               (alter (set_tail (Handler.lastDescendant (Handler.store h) t)) t
                      (Handler.store h))
               (Handler.document h) rest (Handler.previous h))
  \/ (exists node t rest branch (open : bool),
        (forall e, c ≠ onEndTag e) /\ fresh node
        /\ Handler.ancestry h = t :: rest
        /\ childrenOf (Handler.store h) t = Some branch
        /\ link (length (Handler.store h)) t (Handler.previous h)
                (Handler.store h ++ [node]) = Some (Handler.store h')
        /\ Handler.ancestry h' =
           if open then length (Handler.store h) :: Handler.ancestry h
           else Handler.ancestry h).
Proof.
  intros Hwf Hr.
  assert (forall node x,
            Handler.attach node h = Some x ->
            exists t rest branch,
              Handler.ancestry h = t :: rest
              /\ childrenOf (Handler.store h) t = Some branch
              /\ link (length (Handler.store h)) t (Handler.previous h)
                      (Handler.store h ++ [node]) = Some (Handler.store x.2)
              /\ x.1 = length (Handler.store h)
              /\ Handler.ancestry x.2 = Handler.ancestry h) as Hattach.
  { intros node x Ha.
    assert (exists t rest, Handler.ancestry h = t :: rest) as (t & rest & Hanc).
    { unfold Handler.attach in Ha. revert Ha. destruct (Handler.ancestry h); [done|eauto]. }
    destruct (attach_some h node Hwf t rest Hanc) as (store' & branch & Hb & Hl & Ha' & Hlen).
    rewrite Ha in Ha'. injection Ha' as ->. simpl. exists t, rest, branch. done. }
  destruct c as [nm attrs sc|e|v|v|v|v|v]; simpl in Hr.
  - right. unfold Handler.onStartTag in Hr.
    destruct (Handler.attach _ h) as [[tag x]|] eqn:Ha; [|done]. simpl in Hr.
    destruct (Hattach _ _ Ha) as (t & rest & branch & Hanc & Hb & Hl & Htag & Hanc').
    simpl in *. subst tag. injection Hr as <-.
    exists (newTag nm (Handler.group attrs) TAG), t, rest, branch, (negb sc).
    split; [done|]. split; [split; [by right|done]|]. split; [done|]. split; [done|].
    destruct sc; simpl; rewrite ?Hanc'; done.
  - left. assert (exists t rest, Handler.ancestry h = t :: rest) as (t & rest & Hanc).
    { unfold Handler.onEndTag in Hr. revert Hr. destruct (Handler.ancestry h); [done|eauto]. }
    rewrite (onEndTag_some h Hwf t rest Hanc) in Hr. injection Hr as <-.
    by exists e, t, rest.
  - right. unfold Handler.onText, Handler.onData in Hr.
    destruct (Handler.attach _ h) as [[tag x]|] eqn:Ha; [|done]. simpl in Hr.
    destruct (Hattach _ _ Ha) as (t & rest & branch & Hanc & Hb & Hl & Htag & Hanc').
    simpl in *. injection Hr as <-.
    exists (newText v TEXT), t, rest, branch, false.
    split; [done|]. split; [split; [by left|done]|]. done.
  - right. unfold Handler.onComment, Handler.onData in Hr.
    destruct (Handler.attach _ h) as [[tag x]|] eqn:Ha; [|done]. simpl in Hr.
    destruct (Hattach _ _ Ha) as (t & rest & branch & Hanc & Hb & Hl & Htag & Hanc').
    simpl in *. injection Hr as <-.
    exists (newText v COMMENT), t, rest, branch, false.
    split; [done|]. split; [split; [by left|done]|]. done.
  - right. unfold Handler.onCDATA, Handler.onData in Hr.
    destruct (Handler.attach _ h) as [[tag x]|] eqn:Ha; [|done]. simpl in Hr.
    destruct (Hattach _ _ Ha) as (t & rest & branch & Hanc & Hb & Hl & Htag & Hanc').
    simpl in *. injection Hr as <-.
    exists (newText v CDATA), t, rest, branch, false.
    split; [done|]. split; [split; [by left|done]|]. done.
  - right. unfold Handler.onDeclaration, Handler.onData in Hr.
    destruct (Handler.attach _ h) as [[tag x]|] eqn:Ha; [|done]. simpl in Hr.
    destruct (Hattach _ _ Ha) as (t & rest & branch & Hanc & Hb & Hl & Htag & Hanc').
    simpl in *. injection Hr as <-.
    exists (newText v DOCTYPE), t, rest, branch, false.
    split; [done|]. split; [split; [by left|done]|]. done.
  - right. unfold Handler.onDirective, Handler.onData in Hr.
    destruct (Handler.attach _ h) as [[tag x]|] eqn:Ha; [|done]. simpl in Hr.
    destruct (Hattach _ _ Ha) as (t & rest & branch & Hanc & Hb & Hl & Htag & Hanc').
    simpl in *. injection Hr as <-.
    exists (newText v DIRECTIVE), t, rest, branch, false.
    split; [done|]. split; [split; [by left|done]|]. done.
Qed.

(** Only the close of a tag writes its [tail], and a closed tag is not
    opened again. *)
Lemma receive_tail h c h' :
  wf h -> Handler.receive h c = Some h' ->
  (forall r, field tail (Handler.store h') r ≠ field tail (Handler.store h) r ->
     (exists e, c = onEndTag e) /\ head (Handler.ancestry h) = Some r)
  /\ (forall r, r ∈ Handler.ancestry h' ->
        r ∈ Handler.ancestry h \/ r = length (Handler.store h)).
Proof.
  intros Hwf Hr.
  destruct (receive_cases h c h' Hwf Hr)
    as [(e & t & rest & -> & Hanc & ->)
       |(node & t & rest & branch & open & Hc & Hf & Hanc & Hb & Hl & Hanc')].
  - simpl. split.
    + intros r Hne. split; [eauto|]. rewrite Hanc. simpl. f_equal.
      destruct (decide (t = r)); [done|]. by rewrite field_alter_ne in Hne.
    + intros r Hin. left. rewrite Hanc. by right.
  - split.
    + intros r Hne. exfalso. apply Hne.
      rewrite (link_frame _ node t (Handler.previous h) branch Hb tail _ r) by done.
      case_decide; [|done]. subst r. destruct Hf as (_ & -> & _).
      unfold field. by rewrite lookup_ge_None_2.
    + intros r. rewrite Hanc'. destruct open; [|auto].
      intros [->|]%elem_of_cons; auto.
Qed.

(** C7. When input ends, [Parser.onEnd] closes every tag still on the
    open-tag stack with the implicit flag, top first, and leaves the
    stack empty; the handler then holds a tree in which no tag but the
    document root is open, whatever calls the Lexer made. *)
Theorem onEnd_closes_every_open_tag (decode : string -> option string)
    (chunk : string) (calls : list ParserCall.t) :
  let p := Parser.run decode chunk calls in
  Parser.handler (Parser.onEnd p)
  = Parser.handler p ++ replicate (length (Parser.stack p)) (onEndTag false)
  /\ Parser.stack (Parser.onEnd p) = []
  /\ exists h, build decode chunk calls = Some h
       /\ Handler.ancestry h = [Handler.document h].
Proof.
  intros p. unfold Parser.onEnd. rewrite closeAll_spec. simpl.
  split; [done|]. split; [done|].
  destruct (build_sound decode chunk calls) as (h & Hb & [Hwf _] & Hanc).
  exists h. split; [done|]. by rewrite Hanc, (wf_document h Hwf).
Qed.

(** The Lexer, though, does not reach the end of every input: a failed
    sequence match that ends the start tag enters RAW_TEXT, then clears
    the sequence that END_SEQUENCE_MATCH reads. *)
Lemma lexer_throws_on_null_sequence : Lexer.end_ "<x></x>" = None.
Proof. reflexivity. Qed.



(** C2, as amended. A tag of the void-element set is never pushed on the
    Parser's open-tag stack and its node has no child in the finished
    tree, with or without the self-closing marker: the Lexer reports the
    marker by [onSelfClosingTag], which the Parser does not define, so the
    call changes nothing. *)
Theorem void_tags_never_open (decode : string -> option string)
    (chunk : string) (calls : list ParserCall.t) :
  Forall (fun entry => void entry = false) (Parser.stack (Parser.run decode chunk calls))
  /\ (forall p, Parser.receive decode p ParserCall.onSelfClosingTag = p)
  /\ exists h, build decode chunk calls = Some h
       /\ forall r node, Handler.store h !! r = Some node ->
            void (name node) = true -> children node = Some [].
Proof.
  split; [|split; [done|]].
  - destruct (run_tidy decode chunk calls) as [Hst _].
    eapply Forall_impl; [exact Hst|]. by intros e [? _].
  - destruct (build_sound decode chunk calls) as (h & Hb & [_ Hv] & _).
    exists h. split; [done|]. intros r node Hr Hvoid. by destruct (Hv r node Hr Hvoid).
Qed.

Lemma void_tags_never_open_witness :
  exists h,
    build unresolved "<br>x"
      [ParserCall.onStartTagName 1 3; ParserCall.onStartTagClose] = Some h
    /\ (name <$> Handler.store h !! 1) = Some (Some "br"%string)
    /\ (children <$> Handler.store h !! 1) = Some (Some []).
Proof.
  destruct (void_tags_never_open unresolved "<br>x"
              [ParserCall.onStartTagName 1 3; ParserCall.onStartTagClose])
    as (_ & _ & h & Hb & Hv).
  exists h. split; [exact Hb|].
  vm_compute in Hb. injection Hb as <-.
  split; [reflexivity|].
  exact (f_equal Some (Hv 1%nat _ eq_refl eq_refl)).
Defined.

(** C2 fails for the self-closing marker on a tag that is not void: the
    [div] of [<div/>x</div>] is opened and receives the text as a child. *)
Lemma marked_div_has_child :
  Lexer.end_ "<div/>x</div>"
  = Some [ParserCall.onStartTagName 1 4; ParserCall.onSelfClosingTag;
          ParserCall.onStartTagClose; ParserCall.onText 6 7; ParserCall.onTextEnd;
          ParserCall.onEndTagName 9 12]
  /\ (documentTree <$> parse unresolved "<div/>x</div>")
     = Some (Some (Element None [Element (Some "div"%string) [Data TEXT "x"]])).
Proof. split; vm_compute; reflexivity. Qed.

(** C3, as amended. Only the close of a tag writes its [tail], a closed
    tag is never open again and an open tag has no [tail] yet.  In the
    finished tree the [tail] of a tag with children, the root apart, is
    the last, deepest node below it; a tag without children, the root and
    the tags that were never closed have no [tail]. *)
Theorem tail_written_on_close (decode : string -> option string)
    (chunk : string) (calls : list ParserCall.t) :
  (forall log h c h',
     Handler.run log Handler.reset = Some h -> Handler.receive h c = Some h' ->
     (forall r, r ∈ Handler.ancestry h -> field tail (Handler.store h) r = None)
     /\ (forall r, field tail (Handler.store h') r ≠ field tail (Handler.store h) r ->
           (exists explicit, c = onEndTag explicit)
           /\ head (Handler.ancestry h) = Some r)
     /\ (forall r, r < length (Handler.store h) -> r ∉ Handler.ancestry h ->
           r ∉ Handler.ancestry h'))
  /\ exists h, build decode chunk calls = Some h
       /\ forall r node, Handler.store h !! r = Some node ->
            (r = Handler.document h -> tail node = None)
            /\ (forall d, tail node = Some d ->
                  Rightmost (Handler.store h) r d
                  /\ exists c cs, children node = Some (c :: cs))
            /\ (r ≠ Handler.document h ->
                forall c cs, children node = Some (c :: cs) ->
                exists d, tail node = Some d /\ Rightmost (Handler.store h) r d).
Proof.
  split.
  - intros log h c h' Hrun Hr.
    pose proof (run_wf log _ _ wf_reset Hrun) as Hwf.
    destruct (receive_tail h c h' Hwf Hr) as [Ht Ha].
    split; [apply (wf_tail_open h Hwf)|]. split; [done|].
    intros r Hlt Hnot Hin. destruct (Ha r Hin); [done|lia].
  - destruct (build_sound decode chunk calls) as (h & Hb & [Hwf _] & Hanc).
    exists h. split; [done|]. intros r node Hr.
    assert (forall proj : Node -> option ref, field proj (Handler.store h) r = proj node) as Hf.
    { intros proj. unfold field. by rewrite Hr. }
    assert (childrenOf (Handler.store h) r = children node) as Hc.
    { unfold childrenOf. by rewrite Hr. }
    rewrite (wf_document h Hwf).
    assert (forall d, tail node = Some d ->
              Rightmost (Handler.store h) r d
              /\ exists c cs, children node = Some (c :: cs)) as Hsome.
    { intros d Hd. rewrite <- Hf in Hd. rewrite <- Hc. by apply (wf_tail_some h Hwf). }
    split; [|split; [done|]].
    + intros ->. rewrite <- Hf. apply (wf_tail_open h Hwf). rewrite Hanc. by left.
    + intros Hne c cs Hch. destruct (tail node) as [d|] eqn:Hd.
      * exists d. split; [done|]. by apply Hsome.
      * exfalso. rewrite <- Hf in Hd.
        assert (r ∉ Handler.ancestry h) as Hnot.
        { rewrite Hanc. by intros ->%list_elem_of_singleton. }
        destruct (wf_tail_none h Hwf r Hnot Hd) as [Hn|Hn]; rewrite Hc, Hch in Hn; done.
Qed.

Lemma tail_written_on_close_witness :
  exists h,
    build unresolved "<p><b>x</b></p>"
      [ParserCall.onStartTagName 1 2; ParserCall.onStartTagClose;
       ParserCall.onStartTagName 4 5; ParserCall.onStartTagClose;
       ParserCall.onText 6 7; ParserCall.onTextEnd;
       ParserCall.onEndTagName 9 10; ParserCall.onEndTagName 13 14] = Some h
    /\ (tail <$> Handler.store h !! 1) = Some (Some 3)
    /\ Rightmost (Handler.store h) 1 3.
Proof.
  destruct (tail_written_on_close unresolved "<p><b>x</b></p>"
              [ParserCall.onStartTagName 1 2; ParserCall.onStartTagClose;
               ParserCall.onStartTagName 4 5; ParserCall.onStartTagClose;
               ParserCall.onText 6 7; ParserCall.onTextEnd;
               ParserCall.onEndTagName 9 10; ParserCall.onEndTagName 13 14])
    as (_ & h & Hb & Ht).
  exists h. split; [exact Hb|].
  vm_compute in Hb. injection Hb as <-.
  split; [reflexivity|].
  eapply Ht; reflexivity.
Defined.

(** C3 fails for a tag without children: after [<p></p>] the [tail] of
    the closed [p] is undefined, not the tag itself. *)
Lemma childless_tail_undefined :
  (h ← parse unresolved "<p></p>";
   node ← Handler.store h !! 1;
   Some (name node, children node, tail node))
  = Some (Some "p"%string, Some [], None).
Proof. vm_compute. reflexivity. Qed.

(** C10. The names on the open-tag stack are lowercased, an end-tag name
    is compared with them as written: an end tag whose name holds an
    upper-case letter matches no entry and is dropped, the Parser is left
    as it was; so [</DIV>] does not close the open [div] of
    [<div>a</DIV>b</div>], which receives both texts. *)
Theorem uppercase_end_tag_dropped (decode : string -> option string) :
  (forall chunk calls start end_,
     let p := Parser.run decode chunk calls in
     hasUpper (JS.slice (Parser.buffer p) start end_) = true ->
     Forall (fun entry => forall name, entry = Some name -> hasUpper name = false)
            (Parser.stack p)
     /\ Parser.onEndTagName p start end_ = p)
  /\ (documentTree <$> parse decode "<div>a</DIV>b</div>")
     = Some (Some (Element None
                     [Element (Some "div"%string) [Data TEXT "a"; Data TEXT "b"]])).
Proof.
  split; [|vm_compute; reflexivity].
  intros chunk calls start end_ p Hup.
  destruct (run_tidy decode chunk calls) as [Hst _]. fold p in Hst.
  assert (Forall (fun entry => forall name, entry = Some name -> hasUpper name = false)
                 (Parser.stack p)) as Hlow.
  { eapply Forall_impl; [exact Hst|]. by intros e [_ ?]. }
  split; [done|].
  destruct (has emptyElements (JS.slice (Parser.buffer p) start end_)) eqn:Hv.
  { unfold Parser.onEndTagName. by rewrite Hv. }
  apply (onEndTagName_absent p start end_ Hv).
  intros Hin. rewrite Forall_forall in Hlow.
  specialize (Hlow _ Hin _ eq_refl). congruence.
Qed.

Lemma uppercase_end_tag_dropped_witness :
  let p := Parser.run unresolved "<div>a</DIV>b</div>"
             [ParserCall.onStartTagName 1 4; ParserCall.onStartTagClose;
              ParserCall.onText 5 6; ParserCall.onTextEnd] in
  JS.slice (Parser.buffer p) 8 11 = "DIV"%string
  /\ Parser.stack p = [Some "div"%string]
  /\ Parser.onEndTagName p 8 11 = p.
Proof.
  intros p. split; [reflexivity|]. split; [reflexivity|].
  apply (proj1 (uppercase_end_tag_dropped unresolved)). reflexivity.
Defined.

(** C6. Before the new start tag is pushed, [onStartTagClose] closes as
    implicit the entries at the top of the stack that belong to the set
    the table gives for the opening name, as many as there are in a row;
    then the start tag is reported and pushed unless void.  So
    [<ul><li>A<li>B</ul>] gives a [ul] with two [li] children, holding
    the texts A and B. *)
Theorem implicit_close_cascades (decode : string -> option string) :
  (forall this name close,
     Parser.tagName this = Some name ->
     get implicitClose name = Some close ->
     exists k,
       k <= length (Parser.stack this)
       /\ Forall (fun entry => exists top, entry = Some top /\ has close top = true)
                 (take k (Parser.stack this))
       /\ Parser.closes close (drop k (Parser.stack this)) = false
       /\ Parser.onStartTagClose this
          = Parser.mk
              (Parser.handler this ++ replicate k (onEndTag false)
                 ++ [onStartTag (Some name) (Parser.attributes this)
                                (has emptyElements name)])
              (Parser.buffer this)
              (if has emptyElements name then drop k (Parser.stack this)
               else Some name :: drop k (Parser.stack this))
              (Parser.text this) None (Parser.attributeName this)
              (Parser.attributeValue this) [])
  /\ (documentTree <$> parse decode "<ul><li>A<li>B</ul>")
     = Some (Some (Element None
                     [Element (Some "ul"%string)
                        [Element (Some "li"%string) [Data TEXT "A"];
                         Element (Some "li"%string) [Data TEXT "B"]]])).
Proof.
  split; [|vm_compute; reflexivity].
  intros this name close Htn Hclose.
  destruct (closeImplicit_pops close this) as (k & Hk & Hall & Hno & Heq).
  exists k. split; [done|]. split; [done|]. split; [done|].
  unfold Parser.onStartTagClose. rewrite Htn. cbn [mbind option_bind]. rewrite Hclose, Heq.
  cbn [Parser.tagName Parser.attributes]. rewrite Htn.
  destruct (has emptyElements name);
    unfold Parser.set_attributes, Parser.set_tagName, Parser.set_stack, Parser.call;
    simpl; by rewrite <- app_assoc.
Qed.

Lemma implicit_close_cascades_witness :
  Parser.onStartTagClose
    (Parser.mk [] "<ul><li>A<li>" [Some "li"; Some "ul"]%string [] (Some "li"%string)
               None [] [])
  = Parser.mk [onEndTag false; onStartTag (Some "li"%string) [] false]
              "<ul><li>A<li>" [Some "li"; Some "ul"]%string [] None None [] [].
Proof.
  destruct (proj1 (implicit_close_cascades unresolved)
              (Parser.mk [] "<ul><li>A<li>" [Some "li"; Some "ul"]%string []
                         (Some "li"%string) None [] [])
              "li"%string ["li"%string] eq_refl eq_refl) as (k & _ & _ & _ & Heq).
  reflexivity.
Defined.

(** What [onTextEntity] does with a name the Decoder does not resolve:
    it appends [&] and the span's text to the pending text and calls
    nothing, no error either.  The span ends before the [;] that the
    Lexer consumed, so the input [&unknownEntity;] leaves the pending
    text [&unknownEntity]. *)
Theorem unknown_reference_kept_with_ampersand (decode : string -> option string) :
  (forall this start end_,
     decode (JS.slice (Parser.buffer this) start end_) = None ->
     Parser.onTextEntity decode this start end_
     = Parser.mk (Parser.handler this) (Parser.buffer this) (Parser.stack this)
         (Parser.text this ++ ["&" +:+ JS.slice (Parser.buffer this) start end_])
         (Parser.tagName this) (Parser.attributeName this)
         (Parser.attributeValue this) (Parser.attributes this))
  /\ (decode "unknownEntity"%string = None ->
      Lexer.end_ "&unknownEntity;" = Some [ParserCall.onTextEntity 1 14]
      /\ Parser.text (Parser.run decode "&unknownEntity;" [ParserCall.onTextEntity 1 14])
         = ["&unknownEntity"%string]).
Proof.
  split.
  - intros this start end_ Hnone. unfold Parser.onTextEntity. by rewrite Hnone.
  - intros Hnone. split; [vm_compute; reflexivity|].
    unfold Parser.run. simpl. unfold Parser.onTextEntity. simpl.
    change (JS.slice "&unknownEntity;" 1 14) with "unknownEntity"%string.
    by rewrite Hnone.
Qed.

Lemma unknown_reference_kept_with_ampersand_witness :
  Parser.onTextEntity unresolved (Parser.reset "&unknownEntity;") 1 14
  = Parser.mk [] "&unknownEntity;" [] ["&unknownEntity"%string] None None [] [].
Proof.
  apply (proj1 (unknown_reference_kept_with_ampersand unresolved)
           (Parser.reset "&unknownEntity;") 1%Z 14%Z).
  reflexivity.
Defined.

(** C5 fails on the code. An unresolved reference should come out
    unchanged; the [&] is restored but the [;] is not, so the text of
    [<p>&unknownEntity;!</p>] is [&unknownEntity!], and a reference that
    ends the input is never emitted: [&unknownEntity;] alone gives a
    document without any text. *)
Lemma unknown_reference_loses_semicolon :
  JS.join (Parser.text (Parser.run unresolved "&unknownEntity;"
                          [ParserCall.onTextEntity 1 14]))
  = "&unknownEntity"%string
  /\ "&unknownEntity"%string ≠ "&unknownEntity;"%string
  /\ (documentTree <$> parse unresolved "&unknownEntity;")
     = Some (Some (Element None []))
  /\ (documentTree <$> parse unresolved "<p>&unknownEntity;!</p>")
     = Some (Some (Element None
                     [Element (Some "p"%string) [Data TEXT "&unknownEntity!"]])).
Proof.
  split; [reflexivity|]. split; [discriminate|].
  split; vm_compute; reflexivity.
Qed.

(** C4 fails on the code: the two generators count levels differently.
    On the tree of [<div><b></b><i></i></div>]
    with [skip = 1], the depth-first generator yields the [div], a node
    of level 1, that the breadth-first generator skips. *)
Theorem traversals_differ_under_skip :
  (h ← parse unresolved "<div><b></b><i></i></div>";
   Some (documentTree h,
         Traversal.posterity (Handler.store h)
           (Traversal.mkOptions 1 None false false) (Handler.document h),
         Traversal.descendants (Handler.store h)
           (Traversal.mkOptions 1 None false false) (Handler.document h)))
  = Some (Some (Element None
                  [Element (Some "div"%string)
                     [Element (Some "b"%string) []; Element (Some "i"%string) []]]),
          ([1; 2; 3], Traversal.Returned),
          ([2; 3], Traversal.Returned)).
Proof. vm_compute. reflexivity. Qed.

Local Open Scope Z_scope.

(** * Raw text in the Lexer *)

Lemma get_lt s n c : String.get n s = Some c -> (n < String.length s)%nat.
Proof.
  revert n. induction s as [|a s IH]; intros [|n]; simpl; try done; try lia.
  intros H. apply IH in H. lia.
Qed.

Lemma get_some s n : (n < String.length s)%nat -> is_Some (String.get n s).
Proof.
  revert n. induction s as [|a s IH]; intros [|n]; simpl; try lia; eauto.
  intros H. apply IH. lia.
Qed.

Lemma charCodeAt_bound chunk j c :
  JS.charCodeAt chunk j = Some c -> 0 <= j < JS.len chunk.
Proof.
  unfold JS.charCodeAt, JS.len. case Z.ltb_spec; [done|]. intros Hj.
  destruct (String.get (Z.to_nat j) chunk) eqn:E; [|done].
  intros _. apply get_lt in E. lia.
Qed.

Lemma charCodeAt_some chunk j :
  0 <= j < JS.len chunk -> is_Some (JS.charCodeAt chunk j).
Proof.
  unfold JS.charCodeAt, JS.len. intros Hj. case Z.ltb_spec; [lia|]. intros _.
  destruct (get_some chunk (Z.to_nat j)) as [c ->]; [lia|]. by eexists.
Qed.

(** The three raw-text methods, as [this.state(char)] runs them. *)
Lemma invoke_RAW_TEXT this char :
  Lexer.state this = Lexer.RAW_TEXT ->
  Lexer.invoke Lexer.depth this char = Some (rawFallback this char).
Proof.
  intros Hs. destruct this. simpl in Hs. subst. unfold rawFallback. simpl.
  unfold Lexer.RAW_TEXT_. by destruct (char =? _).
Qed.

Lemma invoke_RAW_TEXT_END_OPEN this char :
  Lexer.state this = Lexer.RAW_TEXT_END_OPEN ->
  Lexer.invoke Lexer.depth this char =
  Some (if char =? Character.SLASH
        then Lexer.set_sequenceIndex 0 (Lexer.set_state Lexer.END_SEQUENCE_MATCH this)
        else rawFallback this char).
Proof.
  intros Hs. destruct this. simpl in Hs. subst. unfold rawFallback. simpl.
  unfold Lexer.RAW_TEXT_END_OPEN_. simpl. destruct (char =? Character.SLASH); [done|].
  unfold Lexer.RAW_TEXT_. simpl. by destruct (char =? _).
Qed.

Lemma invoke_END_SEQUENCE_MATCH this char sequence :
  Lexer.state this = Lexer.END_SEQUENCE_MATCH ->
  Lexer.sequence this = Some sequence ->
  Lexer.invoke Lexer.depth this char =
  Some (if negb (Sequence.eqAt (Z.lor char Character.SPACE) sequence
                   (Lexer.sequenceIndex this))
        then rawFallback this char
        else
          if Lexer.sequenceIndex this + 1 =? Sequence.length sequence then
            let stop := Lexer.index this - Sequence.length sequence - 1 in
            Lexer.mk
              (Lexer.parser this ++
                 if Lexer.sectionStart this =? stop then []
                 else [ParserCall.onText (Lexer.sectionStart this) stop;
                       ParserCall.onTextEnd])
              (Lexer.previous this) (Lexer.next this) Lexer.END_TAG_NAME
              (Lexer.index this) (Lexer.index this - Sequence.length sequence + 1)
              None (Lexer.sequenceIndex this + 1)
          else Lexer.set_sequenceIndex (Lexer.sequenceIndex this + 1) this).
Proof.
  intros Hs Hq. destruct this. simpl in Hs, Hq. subst. unfold rawFallback. simpl.
  unfold Lexer.END_SEQUENCE_MATCH_. simpl.
  destruct (Sequence.eqAt _ _ _); simpl.
  - destruct (_ =? Sequence.length sequence); [|done].
    unfold Lexer.when, Lexer.call, Lexer.set_state, Lexer.set_sectionStart,
      Lexer.set_sequence. simpl.
    destruct (_ =? _); simpl; [by rewrite app_nil_r|by rewrite <- app_assoc].
  - unfold Lexer.RAW_TEXT_. simpl. by destruct (char =? _).
Qed.

Lemma eqAt_spec char sequence (k : nat) :
  Sequence.eqAt char sequence (Z.of_nat k) = true <-> sequence !! k = Some char.
Proof.
  unfold Sequence.eqAt, Sequence.at_. case Z.ltb_spec; [lia|]. intros _.
  rewrite Nat2Z.id. destruct (sequence !! k) as [v|]; [|done].
  rewrite Z.eqb_eq. split; congruence.
Qed.

Lemma rawText_letters sequence :
  sequence ∈ rawText ->
  (0 < length sequence)%nat /\ Forall (fun v => v ≠ Character.LESS_THAN) sequence.
Proof.
  unfold rawText. rewrite !elem_of_cons, elem_of_nil.
  intros [->|[->|[->|[->|[->|[]]]]]]; (split; [simpl; lia|repeat constructor; done]).
Qed.

Lemma endsAt_spec chunk sequence j :
  endsAt chunk sequence j = true <->
  JS.charCodeAt chunk j = Some Character.LESS_THAN
  /\ JS.charCodeAt chunk (j + 1) = Some Character.SLASH
  /\ forall t : nat, (t < length sequence)%nat ->
       (fun c => Z.lor c Character.SPACE) <$> JS.charCodeAt chunk (j + 2 + Z.of_nat t)
       = sequence !! t.
Proof.
  unfold endsAt. rewrite !andb_true_iff, !bool_decide_eq_true, forallb_forall.
  split.
  - intros [[H1 H2] H3]. split; [done|]. split; [done|]. intros t Ht.
    specialize (H3 t). rewrite bool_decide_eq_true in H3. apply H3.
    apply in_seq. lia.
  - intros (H1 & H2 & H3). split; [done|]. intros t Ht%in_seq.
    apply bool_decide_eq_true. apply H3. lia.
Qed.

Section RawText.
Variables (chunk : string) (sequence : list Z) (this0 : Lexer.t) (e : Z).
Hypothesis Hseq : sequence ∈ rawText.
Hypothesis Hstate : Lexer.state this0 = Lexer.RAW_TEXT.
Hypothesis Hsequence : Lexer.sequence this0 = Some sequence.
Hypothesis Hindex : 0 <= Lexer.index this0 <= e.
Hypothesis Hnone :
  forall j, Lexer.index this0 <= j < e -> endsAt chunk sequence j = false.
Hypothesis Hend : endsAt chunk sequence e = true.

Lemma raw_start : rawAt chunk sequence this0 (Lexer.index this0) this0.
Proof.
  exists Lexer.RAW_TEXT, (Lexer.sequenceIndex this0). split; [|done].
  destruct this0. simpl in *. by subst.
Qed.

Lemma rawFallback_raw j st k char :
  Lexer.index this0 <= j ->
  JS.charCodeAt chunk j = Some char ->
  rawAt chunk sequence this0 (j + 1)
    (Lexer.set_index (j + 1)
       (rawFallback (Lexer.mk (Lexer.parser this0) (Lexer.previous this0)
                       (Lexer.next this0) st j (Lexer.sectionStart this0)
                       (Some sequence) k) char)).
Proof.
  intros Hj Hc. unfold rawFallback. case Z.eqb_spec.
  - intros ->. exists Lexer.RAW_TEXT_END_OPEN, k. split; [done|].
    replace (j + 1 - 1) with j by lia. split; [lia|done].
  - intros _. by exists Lexer.RAW_TEXT, k.
Qed.

(** One character before the end tag keeps the Lexer in raw text. *)
Lemma raw_step j this char :
  rawAt chunk sequence this0 j this ->
  Lexer.index this0 <= j < e ->
  JS.charCodeAt chunk j = Some char ->
  exists this1,
    Lexer.invoke Lexer.depth this char = Some this1
    /\ rawAt chunk sequence this0 (j + 1) (Lexer.set_index (Lexer.index this1 + 1) this1).
Proof.
  intros (st & k & -> & Hst) Hj Hc.
  destruct st; try done.
  - rewrite invoke_RAW_TEXT by done. eexists. split; [done|].
    replace (Lexer.index _) with j by (unfold rawFallback; by destruct (_ =? _)).
    apply rawFallback_raw; [lia|done].
  - destruct Hst as [Hi Hlt].
    rewrite invoke_RAW_TEXT_END_OPEN by done. eexists. split; [done|].
    case Z.eqb_spec.
    + intros ->. simpl. exists Lexer.END_SEQUENCE_MATCH, 0. split; [done|].
      exists 0%nat. destruct (rawText_letters sequence Hseq) as [Hlen _].
      split; [done|]. split; [done|].
      replace (j + 1 - 0 - 2) with (j - 1) by lia.
      replace (j + 1 - 0 - 1) with j by lia.
      split; [lia|]. split; [done|]. split; [done|]. intros t Ht. lia.
    + intros _.
      replace (Lexer.index _) with j by (unfold rawFallback; by destruct (_ =? _)).
      apply rawFallback_raw; [lia|done].
  - destruct Hst as (n & -> & Hn & Hi & Hlt & Hsl & Hpre).
    rewrite (invoke_END_SEQUENCE_MATCH _ _ sequence) by done.
    eexists. split; [done|]. cbn [Lexer.sequenceIndex Lexer.index Lexer.sectionStart
                                  Lexer.parser Lexer.previous Lexer.next].
    destruct (Sequence.eqAt _ _ _) eqn:Heq; simpl negb; cbv iota.
    + apply eqAt_spec in Heq.
      case Z.eqb_spec.
      * (* the sequence would be complete: an end tag would start before [e] *)
        intros Hfull. exfalso.
        unfold Sequence.length in Hfull.
        assert (endsAt chunk sequence (j - Z.of_nat n - 2) = true) as Hat.
        { apply endsAt_spec. split; [done|].
          replace (j - Z.of_nat n - 2 + 1) with (j - Z.of_nat n - 1) by lia.
          split; [done|]. intros t Ht.
          replace (j - Z.of_nat n - 2 + 2 + Z.of_nat t) with (j - Z.of_nat n + Z.of_nat t) by lia.
          destruct (decide (t < n)%nat) as [Hlt'|Hge]; [by apply Hpre|].
          assert (t = n) as -> by lia.
          replace (j - Z.of_nat n + Z.of_nat n) with j by lia.
          rewrite Hc. simpl. by rewrite Heq. }
        rewrite Hnone in Hat by lia. done.
      * intros Hmore. simpl.
        exists Lexer.END_SEQUENCE_MATCH, (Z.of_nat n + 1). split; [done|].
        exists (S n). unfold Sequence.length in Hmore.
        split; [lia|]. split; [lia|].
        replace (j + 1 - (Z.of_nat n + 1) - 2) with (j - Z.of_nat n - 2) by lia.
        replace (j + 1 - (Z.of_nat n + 1) - 1) with (j - Z.of_nat n - 1) by lia.
        split; [lia|]. split; [done|]. split; [done|]. intros t Ht.
        replace (j + 1 - (Z.of_nat n + 1) + Z.of_nat t) with (j - Z.of_nat n + Z.of_nat t) by lia.
        destruct (decide (t < n)%nat) as [Hlt'|Hge]; [by apply Hpre|].
        assert (t = n) as -> by lia.
        replace (j - Z.of_nat n + Z.of_nat n) with j by lia.
        rewrite Hc. simpl. by rewrite Heq.
    + replace (Lexer.index _) with j by (unfold rawFallback; by destruct (_ =? _)).
      apply rawFallback_raw; [lia|done].
Qed.

Lemma end_tag_in_chunk : e + 2 + Sequence.length sequence <= JS.len chunk.
Proof.
  destruct (rawText_letters sequence Hseq) as [Hlen _].
  apply endsAt_spec in Hend as (_ & _ & H3).
  specialize (H3 (length sequence - 1)%nat ltac:(lia)).
  destruct (JS.charCodeAt chunk _) as [c|] eqn:Hc.
  - apply charCodeAt_bound in Hc. unfold Sequence.length. lia.
  - simpl in H3. symmetry in H3. apply lookup_ge_None in H3. lia.
Qed.

(** The characters before the end tag: nothing is called. *)
Lemma raw_loop (m : nat) :
  forall j this,
    rawAt chunk sequence this0 j this ->
    Lexer.index this0 <= j -> j + Z.of_nat m = e ->
    exists this', rawAt chunk sequence this0 e this'
      /\ forall n, Lexer.loop (m + n) chunk this = Lexer.loop n chunk this'.
Proof.
  pose proof end_tag_in_chunk as Hlen.
  destruct (rawText_letters sequence Hseq) as [Hpos _].
  unfold Sequence.length in Hlen.
  induction m as [|m IH]; intros j this Hraw Hj Hje.
  - exists this. replace e with j by lia. done.
  - destruct (charCodeAt_some chunk j) as [char Hc]; [lia|].
    destruct (raw_step j this char Hraw ltac:(lia) Hc) as (this1 & Hinv & Hraw1).
    destruct (IH (j + 1) _ Hraw1 ltac:(lia) ltac:(lia)) as (this' & Hraw' & Hloop).
    exists this'. split; [done|]. intros n.
    assert (Lexer.index this = j) as Hidx by (destruct Hraw as (? & ? & -> & _); done).
    assert (Lexer.index (Lexer.set_index (Lexer.index this1 + 1) this1) = j + 1) as Hidx1
      by (destruct Hraw1 as (? & ? & -> & _); done).
    change (S m + n)%nat with (S (m + n)). cbn [Lexer.loop].
    rewrite Hidx, Hc. cbn [mbind option_bind]. rewrite Hinv. cbn [mbind option_bind].
    rewrite Hidx1. case Z.ltb_spec; [intros _|lia]. apply Hloop.
Qed.

(** The end tag: [<], [/] and the sequence, whatever raw-text state the
    Lexer is in when it reaches it. *)
Lemma raw_end_open this n :
  rawAt chunk sequence this0 e this ->
  Lexer.loop (S (S n)) chunk this
  = Lexer.loop n chunk
      (Lexer.mk (Lexer.parser this0) (Lexer.previous this0) (Lexer.next this0)
         Lexer.END_SEQUENCE_MATCH (e + 2) (Lexer.sectionStart this0)
         (Some sequence) 0).
Proof.
  pose proof end_tag_in_chunk as Hlen.
  destruct (rawText_letters sequence Hseq) as [Hpos Hletters].
  unfold Sequence.length in Hlen.
  pose proof Hend as (H1 & H2 & H3)%endsAt_spec.
  intros (st & k & -> & Hst).
  assert (exists k',
            Lexer.invoke Lexer.depth
              (Lexer.mk (Lexer.parser this0) (Lexer.previous this0) (Lexer.next this0)
                 st e (Lexer.sectionStart this0) (Some sequence) k)
              Character.LESS_THAN
            = Some (Lexer.mk (Lexer.parser this0) (Lexer.previous this0) (Lexer.next this0)
                      Lexer.RAW_TEXT_END_OPEN e (Lexer.sectionStart this0)
                      (Some sequence) k')) as [k' Hfirst].
  { destruct st; try done.
    - exists k. by rewrite invoke_RAW_TEXT.
    - exists k. by rewrite invoke_RAW_TEXT_END_OPEN.
    - exists k. rewrite (invoke_END_SEQUENCE_MATCH _ _ sequence) by done.
      destruct Hst as (m & -> & Hm & _).
      cbn [Lexer.sequenceIndex].
      destruct (Sequence.eqAt _ _ _) eqn:Heq; [|done].
      apply eqAt_spec in Heq. rewrite Forall_forall in Hletters.
      apply list_elem_of_lookup_2, Hletters in Heq. done. }
  cbn [Lexer.loop Lexer.index]. rewrite H1. cbn [mbind option_bind].
  rewrite Hfirst. cbn [mbind option_bind Lexer.index Lexer.set_index].
  case Z.ltb_spec; [intros _|lia].
  rewrite H2. cbn [mbind option_bind].
  rewrite invoke_RAW_TEXT_END_OPEN by done. cbn [mbind option_bind].
  rewrite Z.eqb_refl.
  cbn [Lexer.set_index Lexer.set_sequenceIndex Lexer.set_state Lexer.index
       Lexer.sequenceIndex Lexer.sectionStart Lexer.parser Lexer.previous
       Lexer.next Lexer.state Lexer.sequence].
  case Z.ltb_spec; [intros _|lia].
  by replace (e + 1 + 1) with (e + 2) by lia.
Qed.

Lemma raw_match (m : nat) :
  forall k : nat,
    (k + S m = length sequence)%nat ->
    Lexer.loop (S m) chunk
      (Lexer.mk (Lexer.parser this0) (Lexer.previous this0) (Lexer.next this0)
         Lexer.END_SEQUENCE_MATCH (e + 2 + Z.of_nat k) (Lexer.sectionStart this0)
         (Some sequence) (Z.of_nat k))
    = Some (Lexer.mk
              (Lexer.parser this0 ++
                 if Lexer.sectionStart this0 =? e then []
                 else [ParserCall.onText (Lexer.sectionStart this0) e;
                       ParserCall.onTextEnd])
              (Lexer.previous this0) (Lexer.next this0) Lexer.END_TAG_NAME
              (e + 2 + Sequence.length sequence) (e + 2) None
              (Sequence.length sequence)).
Proof.
  pose proof end_tag_in_chunk as Hlen.
  pose proof Hend as (H1 & H2 & H3)%endsAt_spec.
  unfold Sequence.length in *.
  induction m as [|m IH]; intros k Hk.
  - specialize (H3 k ltac:(lia)).
    destruct (JS.charCodeAt chunk (e + 2 + Z.of_nat k)) as [char|] eqn:Hc;
      [|simpl in H3; symmetry in H3; apply lookup_ge_None in H3; lia].
    simpl in H3. symmetry in H3. apply eqAt_spec in H3.
    cbn [Lexer.loop Lexer.index]. rewrite Hc. cbn [mbind option_bind].
    rewrite (invoke_END_SEQUENCE_MATCH _ _ sequence) by done.
    cbn [Lexer.sequenceIndex Lexer.index Lexer.sectionStart
         Lexer.parser Lexer.previous Lexer.next mbind option_bind].
    rewrite H3. simpl negb. cbv iota. unfold Sequence.length.
    case Z.eqb_spec; [intros _|lia].
    cbv zeta. cbn [Lexer.set_index Lexer.index Lexer.sequenceIndex Lexer.sectionStart
                   Lexer.parser Lexer.previous Lexer.next Lexer.state Lexer.sequence].
    replace (e + 2 + Z.of_nat k - Z.of_nat (length sequence) - 1) with e by lia.
    assert (forall x : Lexer.t, (if Lexer.index x <? JS.len chunk then Some x else Some x) = Some x)
      as Hif by (intros x; by destruct (_ <? _)).
    cbn [Lexer.loop]. destruct (_ <? _); unfold Lexer.set_index; simpl; do 2 f_equal; lia.
  - specialize (H3 k ltac:(lia)).
    destruct (JS.charCodeAt chunk (e + 2 + Z.of_nat k)) as [char|] eqn:Hc;
      [|simpl in H3; symmetry in H3; apply lookup_ge_None in H3; lia].
    simpl in H3. symmetry in H3. apply eqAt_spec in H3.
    cbn [Lexer.loop Lexer.index]. rewrite Hc. cbn [mbind option_bind].
    rewrite (invoke_END_SEQUENCE_MATCH _ _ sequence) by done.
    cbn [Lexer.sequenceIndex Lexer.index Lexer.sectionStart
         Lexer.parser Lexer.previous Lexer.next mbind option_bind].
    rewrite H3. simpl negb. cbv iota. unfold Sequence.length.
    case Z.eqb_spec; [lia|intros _].
    cbn [Lexer.set_index Lexer.set_sequenceIndex Lexer.index Lexer.sequenceIndex
         Lexer.sectionStart Lexer.parser Lexer.previous Lexer.next Lexer.state
         Lexer.sequence].
    case Z.ltb_spec; [intros _|lia].
    specialize (IH (S k) ltac:(lia)).
    replace (e + 2 + Z.of_nat k + 1) with (e + 2 + Z.of_nat (S k)) by lia.
    replace (Z.of_nat k + 1) with (Z.of_nat (S k)) by lia.
    exact IH.
Qed.

Lemma raw_text_loop :
  Lexer.loop (Z.to_nat (e + 2 + Sequence.length sequence - Lexer.index this0)) chunk this0
  = Some (Lexer.mk
            (Lexer.parser this0 ++
               if Lexer.sectionStart this0 =? e then []
               else [ParserCall.onText (Lexer.sectionStart this0) e;
                     ParserCall.onTextEnd])
            (Lexer.previous this0) (Lexer.next this0) Lexer.END_TAG_NAME
            (e + 2 + Sequence.length sequence) (e + 2) None
            (Sequence.length sequence)).
Proof.
  destruct (rawText_letters sequence Hseq) as [Hpos _].
  destruct (raw_loop (Z.to_nat (e - Lexer.index this0)) (Lexer.index this0) this0
              raw_start ltac:(lia) ltac:(lia)) as (this' & Hraw & Hloop).
  replace (Z.to_nat (e + 2 + Sequence.length sequence - Lexer.index this0))
    with (Z.to_nat (e - Lexer.index this0) + (2 + length sequence))%nat
    by (unfold Sequence.length; lia).
  rewrite Hloop.
  destruct (length sequence) as [|m] eqn:Hm; [lia|].
  change (2 + S m)%nat with (S (S (S m))). rewrite raw_end_open by done.
  rewrite <- (Z.add_0_r (e + 2)) at 1.
  apply (raw_match m 0%nat). lia.
Qed.
End RawText.



Local Open Scope nat_scope.

(** ** Parent and sibling links *)

Lemma atLast2_snoc {A} (l : list A) x : atLast2 (l ++ [x]) = last l.
Proof.
  unfold atLast2. rewrite reverse_snoc, <- head_reverse.
  by destruct (reverse l).
Qed.

(** [link] with the sibling it reads written out. *)
Lemma link_unfold (store : Store) node parent previous_ branch :
  childrenOf store parent = Some branch ->
  link (length store) parent previous_ (store ++ [node]) =
  Some (alter (set_next (Some (length store))) previous_
         (alter (set_previous (Some previous_)) (length store)
           (match last branch with
            | Some sibling => alter (set_nextSibling (Some (length store))) sibling
            | None => id
            end
             (alter (set_previousSibling (last branch)) (length store)
               (alter (push (length store)) parent
                 (alter (set_parent (Some parent)) (length store)
                    (store ++ [node]))))))).
Proof.
  intros Hparent. pose proof (field_lt _ _ _ _ Hparent) as Hlt.
  unfold link. rewrite (childrenOf_field (store ++ [node]) parent), field_app_l by done.
  change (childrenOf store parent) with (field children store parent) in Hparent.
  rewrite Hparent. cbn [mbind option_bind].
  assert (childrenOf
            (alter (push (length store)) parent
               (alter (set_parent (Some parent)) (length store) (store ++ [node])))
            parent = Some (branch ++ [length store])) as ->.
  { rewrite childrenOf_field, field_alter_eq.
    rewrite list_lookup_alter_ne by lia. rewrite lookup_app_l by done.
    unfold field in Hparent. destruct (store !! parent); simpl in *; [|done].
    by rewrite Hparent. }
  cbn [mbind option_bind]. rewrite atLast2_snoc. by destruct (last branch).
Qed.

Section LinkSiblings.
Variables (store : Store) (node : Node) (owner previous_ : ref) (branch : list ref).
Let this := length store.
Hypothesis Hparent : childrenOf store owner = Some branch.
Hypothesis Hbranch : Forall (fun c => c < this) branch.
Variable store' : Store.
Hypothesis Hlink : link this owner previous_ (store ++ [node]) = Some store'.

Lemma field_beyond {A} (proj : Node -> option A) r :
  r ≠ this -> field proj (store ++ [node]) r = field proj store r.
Proof.
  intros Hr. unfold field. destruct (decide (r < this)).
  - by rewrite lookup_app_l.
  - unfold this in *.
    rewrite (lookup_ge_None_2 (store ++ [node])) by (rewrite length_app; simpl; lia).
    by rewrite lookup_ge_None_2 by lia.
Qed.

Lemma link_parent r :
  field parent store' r =
    if decide (r = this) then Some owner else field parent store r.
Proof.
  pose proof (field_lt _ _ _ _ Hparent) as Hlt.
  unfold this in Hlink. rewrite (link_unfold _ _ _ _ _ Hparent) in Hlink.
  injection Hlink as <-.
  rewrite !field_alter_frame by done.
  assert (forall s, field parent
            (match last branch with
             | Some sibling => alter (set_nextSibling (Some (length store))) sibling
             | None => id end s) r = field parent s r) as ->.
  { intros s. destruct (last branch); [|done]. by rewrite field_alter_frame. }
  rewrite !field_alter_frame by done.
  destruct (decide (r = this)) as [->|Hr].
  - rewrite field_alter_eq. unfold this. rewrite lookup_app_r by lia.
    by rewrite Nat.sub_diag.
  - rewrite field_alter_ne by (unfold this in Hr; done). by apply field_beyond.
Qed.

Lemma link_previousSibling r :
  field previousSibling store' r =
    if decide (r = this) then last branch else field previousSibling store r.
Proof.
  pose proof (field_lt _ _ _ _ Hparent) as Hlt.
  unfold this in Hlink. rewrite (link_unfold _ _ _ _ _ Hparent) in Hlink.
  injection Hlink as <-.
  rewrite !field_alter_frame by done.
  assert (forall s, field previousSibling
            (match last branch with
             | Some sibling => alter (set_nextSibling (Some (length store))) sibling
             | None => id end s) r = field previousSibling s r) as ->.
  { intros s. destruct (last branch); [|done]. by rewrite field_alter_frame. }
  destruct (decide (r = this)) as [->|Hr].
  - rewrite field_alter_eq. unfold this.
    rewrite list_lookup_alter_ne by lia.
    rewrite list_lookup_alter, decide_True by done.
    rewrite lookup_app_r by lia. by rewrite Nat.sub_diag.
  - rewrite field_alter_ne by (unfold this in Hr; done).
    rewrite field_alter_frame by (intros x; reflexivity).
    rewrite field_alter_frame by done. by apply field_beyond.
Qed.

Lemma link_nextSibling r :
  field nextSibling store' r =
    if decide (last branch = Some r) then Some this
    else if decide (r = this) then nextSibling node
    else field nextSibling store r.
Proof.
  pose proof (field_lt _ _ _ _ Hparent) as Hlt.
  unfold this in Hlink. rewrite (link_unfold _ _ _ _ _ Hparent) in Hlink.
  injection Hlink as <-.
  rewrite !field_alter_frame by done.
  assert (forall s, field nextSibling s r
                    = field nextSibling (store ++ [node]) r ->
            field nextSibling
              (alter (set_previousSibling (last branch)) (length store)
                 (alter (push (length store)) owner
                    (alter (set_parent (Some owner)) (length store) s))) r
            = field nextSibling (store ++ [node]) r) as Hinner.
  { intros s <-. rewrite field_alter_frame by done.
    rewrite field_alter_frame by (intros x; reflexivity).
    by rewrite field_alter_frame by done. }
  destruct (last branch) as [sibling|] eqn:Hlast.
  - assert (sibling < this) as Hs.
    { rewrite Forall_forall in Hbranch. apply Hbranch.
      apply last_Some in Hlast as [l' ->]. apply elem_of_app. right. by left. }
    destruct (decide (Some sibling = Some r)) as [[= ->]|Hne].
    + rewrite field_alter_eq.
      match goal with |- (?o ≫= _) = _ => assert (is_Some o) as [x ->]; [|done] end.
      apply lookup_lt_is_Some. rewrite !length_alter, length_app.
      unfold this in Hs. simpl. lia.
    + rewrite field_alter_ne by congruence.
      rewrite Hinner by done.
      destruct (decide (r = this)) as [->|Hr]; [apply field_app_new|by apply field_beyond].
  - rewrite decide_False by done. simpl. rewrite Hinner by done.
    destruct (decide (r = this)) as [->|Hr]; [apply field_app_new|by apply field_beyond].
Qed.
End LinkSiblings.

Lemma created_pristine c node : created c = Some node -> pristine node.
Proof.
  destruct c; intros [= <-]; repeat split; simpl; auto.
Qed.

Lemma receive_created h c h' node :
  wf h -> Handler.receive h c = Some h' -> created c = Some node ->
  exists t rest branch,
    Handler.ancestry h = t :: rest
    /\ childrenOf (Handler.store h) t = Some branch
    /\ link (length (Handler.store h)) t (Handler.previous h)
            (Handler.store h ++ [node]) = Some (Handler.store h').
Proof.
  intros Hwf Hr Hc.
  assert (forall x,
            Handler.attach node h = Some x ->
            exists t rest branch,
              Handler.ancestry h = t :: rest
              /\ childrenOf (Handler.store h) t = Some branch
              /\ link (length (Handler.store h)) t (Handler.previous h)
                      (Handler.store h ++ [node]) = Some (Handler.store x.2)) as Hattach.
  { intros x Ha.
    assert (exists t rest, Handler.ancestry h = t :: rest) as (t & rest & Hanc).
    { unfold Handler.attach in Ha. revert Ha. destruct (Handler.ancestry h); [done|eauto]. }
    destruct (attach_some h node Hwf t rest Hanc) as (store' & branch & Hb & Hl & Ha' & Hlen).
    rewrite Ha in Ha'. injection Ha' as ->. simpl. exists t, rest, branch. done. }
  destruct c as [nm attrs sc|e|v|v|v|v|v]; simpl in Hr, Hc; try done;
    injection Hc as <-;
    unfold Handler.onStartTag, Handler.onText, Handler.onComment, Handler.onCDATA,
      Handler.onDeclaration, Handler.onDirective, Handler.onData in Hr;
    destruct (Handler.attach _ h) as [[tag x]|] eqn:Ha; try done; simpl in Hr;
    destruct (Hattach _ eq_refl) as (t & rest & branch & Hanc & Hb & Hl);
    injection Hr as <-; exists t, rest, branch; simpl in *;
    (split; [done|]); (split; [done|]); by destruct sc || done.
Qed.

Lemma receive_closed h c h' :
  wf h -> Handler.receive h c = Some h' -> created c = None ->
  exists t, Handler.store h'
    = alter (set_tail (Handler.lastDescendant (Handler.store h) t)) t (Handler.store h).
Proof.
  intros Hwf Hr Hc.
  destruct (receive_cases h c h' Hwf Hr)
    as [(e & t & rest & -> & Hanc & ->)
       |(node & t & rest & branch & open & Hne & _)].
  - by exists t.
  - destruct c; try done. by destruct (Hne explicit).
Qed.

Lemma linked_reset : linked Handler.reset.
Proof.
  split; simpl.
  - done.
  - intros r p. split.
    + destruct r as [|[|r]]; done.
    + intros (branch & Hb & Hr). destruct p as [|[|p]]; try done.
      injection Hb as <-. by apply elem_of_nil in Hr.
  - intros r Hr. lia.
  - intros [|[|p]] branch i c Hb; try done. injection Hb as <-. done.
  - intros [|[|p]] branch i c Hb; try done. injection Hb as <-. done.
Qed.

Lemma sorted_NoDup (l : list nat) : StronglySorted lt l -> NoDup l.
Proof.
  induction 1 as [|x l _ IH Hall]; constructor; [|done].
  intros Hin. rewrite Forall_forall in Hall. apply Hall in Hin. lia.
Qed.

Lemma receive_linked h c h' :
  wf h -> linked h -> Handler.receive h c = Some h' -> linked h'.
Proof.
  intros Hwf Hln Hr.
  destruct (created c) as [node|] eqn:Hc.
  - destruct (receive_created h c h' node Hwf Hr Hc) as (t & rest & branch & Hanc & Hb & Hl).
    destruct (created_pristine c node Hc) as ((Hfc & _ & _) & Hfp & Hfps & Hfns).
    set (n := length (Handler.store h)) in *.
    destruct (wf_children h Hwf t branch Hb) as [Hall Hsorted].
    assert (Forall (fun c => c < n) branch) as Hlt.
    { eapply Forall_impl; [exact Hall|]. simpl. intros; lia. }
    pose proof (link_children _ node t (Handler.previous h) branch Hb (Handler.store h')) as Hch.
    specialize (fun r => Hch r Hl). fold n in Hch.
    pose proof (link_parent _ node t (Handler.previous h) branch Hb _ Hl) as Hpa.
    pose proof (link_previousSibling _ node t (Handler.previous h) branch Hb _ Hl) as Hps.
    pose proof (link_nextSibling _ node t (Handler.previous h) branch Hb Hlt _ Hl) as Hns.
    fold n in Hpa, Hps, Hns.
    pose proof (field_lt _ _ _ _ Hb) as Htn. fold n in Htn.
    assert (length (Handler.store h') = S n) as Hlen.
    { destruct (link_some _ node t (Handler.previous h) branch Hb) as (s & Hs & Hlen).
      fold n in Hs. rewrite Hl in Hs. by injection Hs as <-. }
    assert (forall r b, childrenOf (Handler.store h) r = Some b -> r < n) as Hdom.
    { intros r b Hrb. by apply field_lt in Hrb. }
    assert (forall r b x, childrenOf (Handler.store h) r = Some b -> x ∈ b -> x < n) as Hrange.
    { intros r b x Hrb Hx. destruct (wf_children h Hwf r b Hrb) as [Hall' _].
      rewrite Forall_forall in Hall'. apply Hall' in Hx. lia. }
    assert (forall p b x, childrenOf (Handler.store h') p = Some b -> x ∈ b ->
              x = n /\ p = t \/
              x ≠ n /\ exists b0, childrenOf (Handler.store h) p = Some b0 /\ x ∈ b0)
      as Hmember.
    { intros p b x. rewrite Hch. destruct (decide (p = t)) as [->|Hpt].
      - intros [= <-] [Hx|Hx%list_elem_of_singleton]%elem_of_app.
        + right. split; [|eauto]. apply (Hrange t branch x Hb) in Hx. lia.
        + by left.
      - destruct (decide (p = n)) as [->|Hpn].
        + destruct Hfc as [->| ->]; [done|]. intros [= <-] Hx. by apply elem_of_nil in Hx.
        + intros Hpb Hx. right. split; [|eauto].
          apply (Hrange p b x Hpb) in Hx. lia. }
    split.
    + rewrite Hpa. rewrite decide_False by lia. apply (ln_root h Hln).
    + intros r p. rewrite Hpa. split.
      * destruct (decide (r = n)) as [->|Hrn].
        -- intros [= <-]. exists (branch ++ [n]). rewrite Hch, decide_True by done.
           split; [done|]. apply elem_of_app. right. by left.
        -- intros Hp. apply (ln_parent h Hln) in Hp as (b0 & Hb0 & Hr0).
           rewrite Hch. destruct (decide (p = t)) as [->|Hpt].
           ++ exists (branch ++ [n]). split; [done|]. apply elem_of_app. left. congruence.
           ++ rewrite decide_False by (apply Hdom in Hb0; lia). eauto.
      * intros (b & Hpb & Hx).
        destruct (Hmember p b r Hpb Hx) as [[-> ->]|(Hrn & b0 & Hb0 & Hx0)].
        -- by rewrite decide_True.
        -- rewrite decide_False by done. apply (ln_parent h Hln). eauto.
    + intros r Hr'. rewrite Hpa. destruct (decide (r = n)); [done|].
      apply (ln_total h Hln). fold n. lia.
    + intros p b i x Hpb Hx.
      destruct (Hmember p b x Hpb (list_elem_of_lookup_2 _ _ _ Hx))
        as [[-> ->]|(Hxn & b0 & Hb0 & Hx0)].
      * rewrite Hch, decide_True in Hpb by done. injection Hpb as <-.
        rewrite Hns.
        assert (i = length branch) as ->.
        { destruct (decide (i < length branch)) as [Hi|Hi].
          - rewrite lookup_app_l in Hx by done.
            apply list_elem_of_lookup_2 in Hx. apply (Hrange t branch n Hb) in Hx. lia.
          - apply lookup_lt_Some in Hx. rewrite length_app in Hx. simpl in Hx. lia. }
        rewrite decide_False.
        2:{ intros Hlast. apply last_Some in Hlast as [l' ->].
            rewrite Forall_forall in Hlt.
            assert (n < n); [|lia]. apply Hlt, elem_of_app. right. by left. }
        rewrite decide_True by done. rewrite Hfns.
        symmetry. apply lookup_ge_None_2. rewrite length_app. simpl. lia.
      * rewrite Hns. rewrite (decide_False (P := x = n)) by done.
        rewrite Hch in Hpb. destruct (decide (p = t)) as [->|Hpt].
        -- injection Hpb as <-.
           assert (i < length branch) as Hi.
           { destruct (decide (i < length branch)); [done|].
             rewrite lookup_app_r in Hx by lia.
             destruct (i - length branch) as [|k]; simpl in Hx; [|done].
             by injection Hx as <-. }
           rewrite lookup_app_l in Hx by done.
           destruct (decide (last branch = Some x)) as [Hlast|Hlast].
           ++ assert (i = pred (length branch)) as ->.
              { rewrite last_lookup in Hlast.
                eapply NoDup_lookup; eauto using sorted_NoDup. }
              replace (S (pred (length branch))) with (length branch) by lia.
              rewrite lookup_app_r by lia. by rewrite Nat.sub_diag.
           ++ rewrite (ln_next h Hln t branch i x Hb Hx).
              assert (S i < length branch) as Hi'.
              { destruct (decide (S i < length branch)); [done|]. exfalso. apply Hlast.
                rewrite last_lookup. replace (pred (length branch)) with i by lia. done. }
              by rewrite lookup_app_l.
        -- rewrite decide_False in Hpb by (apply Hdom in Hb0; lia).
           rewrite decide_False.
           2:{ intros Hlast. apply Hpt.
               assert (field parent (Handler.store h) x = Some p) as Hp1.
               { apply (ln_parent h Hln). exists b. split; [done|].
                 by eapply list_elem_of_lookup_2. }
               assert (field parent (Handler.store h) x = Some t) as Hp2.
               { apply (ln_parent h Hln). exists branch. split; [done|].
                 apply last_Some in Hlast as [l' ->]. apply elem_of_app. right. by left. }
               congruence. }
           by apply (ln_next h Hln p b i x).
    + intros p b i x Hpb Hx.
      destruct (Hmember p b x Hpb (list_elem_of_lookup_2 _ _ _ Hx))
        as [[-> ->]|(Hxn & b0 & Hb0 & Hx0)].
      * rewrite Hch, decide_True in Hpb by done. injection Hpb as <-.
        rewrite Hps, decide_True by done.
        assert (i = length branch) as ->.
        { destruct (decide (i < length branch)) as [Hi|Hi].
          - rewrite lookup_app_l in Hx by done.
            apply list_elem_of_lookup_2 in Hx. apply (Hrange t branch n Hb) in Hx. lia.
          - apply lookup_lt_Some in Hx. rewrite length_app in Hx. simpl in Hx. lia. }
        rewrite last_lookup. destruct branch as [|b0 branch']; [done|].
        cbn [length pred]. rewrite lookup_app_l by (simpl; lia). done.
      * rewrite Hps, decide_False by done.
        rewrite Hch in Hpb. destruct (decide (p = t)) as [->|Hpt].
        -- injection Hpb as <-.
           assert (i < length branch) as Hi.
           { destruct (decide (i < length branch)); [done|].
             rewrite lookup_app_r in Hx by lia.
             destruct (i - length branch) as [|k]; simpl in Hx; [|done].
             by injection Hx as <-. }
           rewrite lookup_app_l in Hx by done.
           rewrite (ln_prev h Hln t branch i x Hb Hx).
           destruct i as [|j]; [done|]. by rewrite lookup_app_l by lia.
        -- rewrite decide_False in Hpb by (apply Hdom in Hb0; lia).
           by apply (ln_prev h Hln p b i x).
  - destruct (receive_closed h c h' Hwf Hr Hc) as (t & Hs).
    assert (forall r, childrenOf (Handler.store h') r = childrenOf (Handler.store h) r) as Hch.
    { intros r. rewrite Hs, !childrenOf_field. by rewrite field_alter_frame. }
    split.
    + rewrite Hs, field_alter_frame by done. apply (ln_root h Hln).
    + intros r p. rewrite Hs at 1. rewrite field_alter_frame by done.
      rewrite (ln_parent h Hln). by setoid_rewrite Hch.
    + intros r. rewrite Hs, length_alter, field_alter_frame by done. apply (ln_total h Hln).
    + intros p b i x. rewrite Hch, Hs, field_alter_frame by done. apply (ln_next h Hln).
    + intros p b i x. rewrite Hch, Hs, field_alter_frame by done. apply (ln_prev h Hln).
Qed.

Lemma run_linked calls h h' :
  wf h -> linked h -> Handler.run calls h = Some h' -> linked h'.
Proof.
  revert h. induction calls as [|c calls IH]; intros h Hwf Hln; simpl.
  - by intros [= <-].
  - destruct (Handler.receive h c) as [h1|] eqn:Hr; [|done]. simpl.
    apply IH; [by eapply receive_wf|by eapply receive_linked].
Qed.

(** ** The span of a subtree *)

Lemma Rightmost_unique store r d d' :
  Rightmost store r d -> Rightmost store r d' -> d = d'.
Proof.
  induction 1 as [r Hlast|r child d Hlast _ IH]; inversion 1; subst; try congruence.
  apply IH. congruence.
Qed.

Lemma Rightmost_ge h r d :
  wf h -> Rightmost (Handler.store h) r d -> r <= d.
Proof.
  intros Hwf. induction 1 as [r Hlast|r child d Hlast _ IH]; [done|].
  destruct (childrenOf (Handler.store h) r) as [branch|] eqn:Hb; [|done]. simpl in Hlast.
  destruct (wf_children h Hwf r branch Hb) as [Hall _].
  rewrite Forall_forall in Hall.
  unfold atLast in Hlast. apply last_Some in Hlast as [l' ->].
  specialize (Hall child). assert (r < child) as Hc; [|lia].
  apply Hall, elem_of_app. right. by left.
Qed.

Lemma spanned_reset : spanned Handler.reset.
Proof.
  split; simpl.
  - intros t rest [= <- <-]. by apply Rightmost_here.
  - intros r d Hr Hd bound Hb.
    assert (d = r) as ->.
    { inversion Hd as [|? child ? Hlast]; [done|]. subst.
      destruct r as [|[|r]]; done. }
    replace (S r - r) with 1 by lia. destruct bound as [|bound]; [lia|].
    simpl. destruct r as [|[|r]]; done.
Qed.

Lemma receive_spanned h c h' :
  wf h -> spanned h -> Handler.receive h c = Some h' -> spanned h'.
Proof.
  intros Hwf Hsp Hr.
  destruct (receive_cases h c h' Hwf Hr)
    as [(e & t & rest & -> & Hanc & ->)
       |(node & t & rest & branch & open & Hne & Hf & Hanc & Hb & Hl & Hanc')].
  - assert (forall r, childrenOf
              (alter (set_tail (Handler.lastDescendant (Handler.store h) t)) t
                 (Handler.store h)) r = childrenOf (Handler.store h) r) as Hch.
    { intros r. rewrite !childrenOf_field. by rewrite field_alter_frame. }
    pose proof (sp_top h Hsp t rest Hanc) as Htop.
    split; simpl.
    + intros t' rest' ->. rewrite length_alter.
      eapply Rightmost_ext; [exact Hch|].
      eapply Rightmost_below; [|exact Htop].
      apply (wf_spine h Hwf 0); by rewrite Hanc.
    + intros r d Hr' Hd bound Hbound.
      rewrite (flatten_ext _ _ _ _ Hch).
      apply (Rightmost_ext _ (Handler.store h)) in Hd; [|by intros; rewrite Hch].
      destruct (decide (r = t)) as [->|Hrt].
      * pose proof (Rightmost_unique _ _ _ _ Hd Htop) as ->.
        pose proof (wf_previous h Hwf) as Hlen.
        replace (S (pred (length (Handler.store h))) - t)
          with (length (Handler.store h) - t) in * by lia.
        apply (wf_flat h Hwf); [rewrite Hanc; by left|done].
      * apply (sp_closed h Hsp); [|done..].
        rewrite Hanc. intros [->|Hin]%elem_of_cons; done.
  - set (n := length (Handler.store h)) in *.
    pose proof (link_children _ node t (Handler.previous h) branch Hb (Handler.store h')) as Hch.
    specialize (fun r => Hch r Hl). fold n in Hch.
    pose proof (field_lt _ _ _ _ Hb) as Htn. fold n in Htn.
    assert (length (Handler.store h') = S n) as Hlen.
    { destruct (link_some _ node t (Handler.previous h) branch Hb) as (s & Hs & Hlen).
      fold n in Hs. rewrite Hl in Hs. by injection Hs as <-. }
    destruct Hf as (Hfc & _ & _).
    assert ((branch ← childrenOf (Handler.store h') n; atLast branch) = None) as Hleaf.
    { rewrite Hch, decide_False, decide_True by (done || lia).
      by destruct Hfc as [->| ->]. }
    assert (t ∈ Handler.ancestry h) as Ht_anc by (rewrite Hanc; by left).
    assert (forall r, r ∈ Handler.ancestry h -> r < n) as Hanc_lt.
    { intros r Hr'. destruct (wf_ancestry h Hwf r Hr') as [x Hx].
      by apply field_lt in Hx. }
    split.
    + rewrite Hlen. simpl. intros t' rest' Heq. rewrite Hanc' in Heq.
      destruct open.
      * injection Heq as <- _. by apply Rightmost_here.
      * rewrite Hanc in Heq. injection Heq as <- _.
        eapply Rightmost_below; [|by apply Rightmost_here].
        rewrite Hch, decide_True by done. simpl. unfold atLast. by rewrite last_snoc.
    + intros r d Hr' Hd bound Hbound.
      destruct (decide (r = n)) as [->|Hrn].
      * assert (d = n) as ->.
        { inversion Hd as [|? child ? Hlast]; [done|]. subst. congruence. }
        replace (S n - n) with 1 in * by lia. destruct bound as [|bound]; [lia|].
        simpl. rewrite Hch, decide_False, decide_True by (done || lia).
        by destruct Hfc as [->| ->].
      * assert (r ∉ Handler.ancestry h) as Hr0.
        { intros Hin. apply Hr'. rewrite Hanc'. destruct open; [by right|done]. }
        set (closed := fun r => (r ∉ Handler.ancestry h) /\ r ≠ n).
        assert (forall r, closed r ->
                  childrenOf (Handler.store h') r = childrenOf (Handler.store h) r) as Hsame.
        { intros x [Hx1 Hx2]. rewrite Hch.
          rewrite decide_False by (intros ->; done). by rewrite decide_False. }
        assert (forall r branch, closed r -> childrenOf (Handler.store h) r = Some branch ->
                  Forall closed branch) as Hdown.
        { intros x b [Hx1 Hx2] Hxb.
          pose proof (wf_closed h Hwf x b Hxb Hx1) as H1.
          destruct (wf_children h Hwf x b Hxb) as [H2 _].
          rewrite Forall_forall in *. intros y Hy. split; [by apply H1|].
          specialize (H2 y Hy). fold n in H2. lia. }
        assert (Rightmost (Handler.store h) r d) as Hd0.
        { eapply (Rightmost_frame (Handler.store h') (Handler.store h) closed);
            [| |exact Hd|done].
          - intros x Hx. by rewrite Hsame.
          - intros x b Hx Hxb. rewrite Hsame in Hxb by done. by eapply Hdown. }
        rewrite (flatten_frame (Handler.store h) (Handler.store h') closed) by done.
        by apply (sp_closed h Hsp).
Qed.

Lemma run_spanned calls h h' :
  wf h -> spanned h -> Handler.run calls h = Some h' -> spanned h'.
Proof.
  revert h. induction calls as [|c calls IH]; intros h Hwf Hsp; simpl.
  - by intros [= <-].
  - destruct (Handler.receive h c) as [h1|] eqn:Hr; [|done]. simpl.
    apply IH; [by eapply receive_wf|by eapply receive_spanned].
Qed.

(** The finished handler of any run of the Parser, with what holds of it. *)
Lemma build_linked decode chunk calls :
  exists h, build decode chunk calls = Some h
    /\ wf h /\ linked h /\ spanned h /\ Handler.ancestry h = [0].
Proof.
  destruct (build_sound decode chunk calls) as (h & Hb & [Hwf _] & Hanc).
  exists h. split; [done|]. split; [done|].
  unfold build in Hb.
  split; [|split; [|done]].
  - eapply run_linked; [apply wf_reset|apply linked_reset|exact Hb].
  - eapply run_spanned; [apply wf_reset|apply spanned_reset|exact Hb].
Qed.

Lemma run_invariants calls h :
  Handler.run calls Handler.reset = Some h -> wf h /\ linked h /\ spanned h.
Proof.
  intros Hr. split; [|split].
  - eapply run_wf; [apply wf_reset|exact Hr].
  - eapply run_linked; [apply wf_reset|apply linked_reset|exact Hr].
  - eapply run_spanned; [apply wf_reset|apply spanned_reset|exact Hr].
Qed.

Lemma Rightmost_lt h r d :
  wf h -> r < length (Handler.store h) -> Rightmost (Handler.store h) r d ->
  d < length (Handler.store h).
Proof.
  intros Hwf Hr. induction 1 as [r Hlast|r child d Hlast _ IH]; [done|].
  apply IH.
  destruct (childrenOf (Handler.store h) r) as [branch|] eqn:Hb; [|done]. simpl in Hlast.
  destruct (wf_children h Hwf r branch Hb) as [Hall _].
  rewrite Forall_forall in Hall.
  unfold atLast in Hlast. apply last_Some in Hlast as [l' ->].
  apply Hall, elem_of_app. right. by left.
Qed.

(** What a [tail] tells about the subtree it closes. *)
Lemma tail_span h r d :
  wf h -> spanned h -> field tail (Handler.store h) r = Some d ->
  r < d < length (Handler.store h)
  /\ flatten (length (Handler.store h)) (Handler.store h) r = seq r (S d - r).
Proof.
  intros Hwf Hsp Ht.
  destruct (wf_tail_some h Hwf r d Ht) as (Hd & c & cs & Hc).
  pose proof (field_lt _ _ _ _ Ht) as Hr.
  pose proof (Rightmost_lt h r d Hwf Hr Hd) as Hdl.
  assert (r < d) as Hrd.
  { inversion Hd as [? Hlast|? child ? Hlast Hd']; subst.
    - rewrite Hc in Hlast. cbn [mbind option_bind] in Hlast. unfold atLast in Hlast.
      by apply last_None in Hlast.
    - pose proof (Rightmost_ge h child d Hwf Hd').
      destruct (wf_children h Hwf r _ Hc) as [Hall _].
      rewrite Forall_forall in Hall.
      rewrite Hc in Hlast. cbn [mbind option_bind] in Hlast. unfold atLast in Hlast.
      apply last_Some in Hlast as [l' Hl'].
      assert (r < child); [|lia]. apply Hall. rewrite Hl'.
      apply elem_of_app. right. by left. }
  split; [lia|].
  apply (sp_closed h Hsp); [|done|lia].
  intros Hin. by rewrite (wf_tail_open h Hwf r Hin) in Ht.
Qed.

Lemma iteratorLoop_seq h stop :
  wf h -> stop < length (Handler.store h) ->
  forall k x bound, x + k = stop -> k < bound ->
  Tag.iteratorLoop bound (Handler.store h) stop (Some x)
  = (Some <$> seq x k, Traversal.Returned).
Proof.
  intros Hwf Hstop. induction k as [|k IH]; intros x bound Hx Hb.
  - destruct bound as [|bound]; [lia|]. simpl.
    rewrite bool_decide_true by (f_equal; lia). done.
  - destruct bound as [|bound]; [lia|]. simpl.
    rewrite bool_decide_false by (intros [= ->]; lia).
    pose proof (wf_next h Hwf x ltac:(lia)) as Hn. unfold field in Hn.
    rewrite Hn, decide_True by lia.
    rewrite (IH (S x) bound) by lia. done.
Qed.

(** X1. Whatever calls the Handler has served, the [parent] links and
    the [children] arrays describe one tree: the document has no parent,
    every other node has a parent whose [children] hold it, a node found
    in some [children] array has the owner of the array as its parent,
    and no array holds a node twice. *)
Theorem parent_is_owner_of_children (calls : list HandlerCall.t) (h : Handler.t) :
  Handler.run calls Handler.reset = Some h ->
  field parent (Handler.store h) (Handler.document h) = None
  /\ (forall r, r < length (Handler.store h) -> r ≠ Handler.document h ->
        exists p branch,
          field parent (Handler.store h) r = Some p
          /\ childrenOf (Handler.store h) p = Some branch /\ r ∈ branch)
  /\ (forall r p branch,
        childrenOf (Handler.store h) p = Some branch -> r ∈ branch ->
        field parent (Handler.store h) r = Some p)
  /\ (forall p branch, childrenOf (Handler.store h) p = Some branch -> NoDup branch).
Proof.
  intros Hr. destruct (run_invariants calls h Hr) as (Hwf & Hln & _).
  rewrite (wf_document h Hwf).
  split; [apply (ln_root h Hln)|]. split; [|split].
  - intros r Hlt Hne. destruct (ln_total h Hln r) as [p Hp]; [lia|].
    pose proof Hp as Hp'. apply (ln_parent h Hln) in Hp' as (branch & Hb & Hin).
    by exists p, branch.
  - intros r p branch Hb Hin. apply (ln_parent h Hln). eauto.
  - intros p branch Hb. apply sorted_NoDup. by apply (wf_children h Hwf p).
Qed.

Lemma parent_is_owner_of_children_witness :
  exists h,
    Handler.run [onStartTag (Some "p"%string) [] false; onText "x"; onEndTag true]
                Handler.reset = Some h
    /\ field parent (Handler.store h) 2 = Some 1.
Proof.
  destruct (Handler.run [onStartTag (Some "p"%string) [] false; onText "x"; onEndTag true]
                        Handler.reset) as [h|] eqn:E; [|by vm_compute in E].
  exists h. split; [reflexivity|].
  destruct (parent_is_owner_of_children _ _ E) as (_ & _ & Hin & _).
  vm_compute in E. injection E as <-.
  apply (Hin 2 1 [2]); [reflexivity|by left].
Defined.

(** X2. The sibling links follow the [children] arrays: the
    [nextSibling] of a child is the element after it in its parent's
    array and its [previousSibling] the element before it, undefined at
    the two ends. *)
Theorem sibling_links_follow_children (calls : list HandlerCall.t) (h : Handler.t) :
  Handler.run calls Handler.reset = Some h ->
  forall p branch i c,
    childrenOf (Handler.store h) p = Some branch -> branch !! i = Some c ->
    field nextSibling (Handler.store h) c = branch !! S i
    /\ field previousSibling (Handler.store h) c =
       match i with O => None | S j => branch !! j end.
Proof.
  intros Hr p branch i c Hb Hc. destruct (run_invariants calls h Hr) as (_ & Hln & _).
  split; [by eapply (ln_next h Hln)|by eapply (ln_prev h Hln)].
Qed.

Lemma sibling_links_follow_children_witness :
  exists h,
    Handler.run [onStartTag (Some "br"%string) [] true; onText "x"; onComment "y"]
                Handler.reset = Some h
    /\ field nextSibling (Handler.store h) 2 = Some 3
    /\ field previousSibling (Handler.store h) 2 = Some 1.
Proof.
  destruct (Handler.run [onStartTag (Some "br"%string) [] true; onText "x"; onComment "y"]
                        Handler.reset) as [h|] eqn:E; [|by vm_compute in E].
  exists h. split; [reflexivity|].
  pose proof (sibling_links_follow_children _ _ E 0 [1; 2; 3] 1 2) as Hs.
  vm_compute in E. injection E as <-.
  exact (Hs eq_refl eq_refl).
Defined.

(** X3. The subtree-skip invariant: the subtree of a tag that has a
    [tail] occupies the consecutive references from the tag to its
    [tail] in depth-first order, and the [next] of the [tail] is the node
    right after them, or is undefined when the subtree ends the store. *)
Theorem tail_next_leaves_the_subtree (calls : list HandlerCall.t) (h : Handler.t) :
  Handler.run calls Handler.reset = Some h ->
  forall r d, field tail (Handler.store h) r = Some d ->
    r < d
    /\ flatten (length (Handler.store h)) (Handler.store h) r = seq r (S d - r)
    /\ field next (Handler.store h) d =
       (if decide (S d < length (Handler.store h)) then Some (S d) else None).
Proof.
  intros Hr r d Ht. destruct (run_invariants calls h Hr) as (Hwf & _ & Hsp).
  destruct (tail_span h r d Hwf Hsp Ht) as ([Hrd Hd] & Hflat).
  split; [done|]. split; [done|]. by apply (wf_next h Hwf).
Qed.

Lemma tail_next_leaves_the_subtree_witness :
  exists h,
    Handler.run [onStartTag (Some "p"%string) [] false; onText "x"; onEndTag true;
                 onText "y"] Handler.reset = Some h
    /\ flatten 4 (Handler.store h) 1 = [1; 2]
    /\ field next (Handler.store h) 2 = Some 3.
Proof.
  destruct (Handler.run [onStartTag (Some "p"%string) [] false; onText "x"; onEndTag true;
                         onText "y"] Handler.reset) as [h|] eqn:E; [|by vm_compute in E].
  exists h. split; [reflexivity|].
  pose proof (tail_next_leaves_the_subtree _ _ E 1 2) as Hs.
  vm_compute in E. injection E as <-.
  destruct (Hs eq_refl) as (_ & Hflat & Hnext). split; [exact Hflat|exact Hnext].
Defined.

(** X4. Iterating a tag that has a [tail] yields its proper descendants
    in depth-first order when a node follows its subtree; when the
    subtree ends the store, [tail.next] is undefined and the iterator
    yields nothing, although the tag has descendants. *)
Theorem iterator_yields_descendants (calls : list HandlerCall.t) (h : Handler.t) :
  Handler.run calls Handler.reset = Some h ->
  forall r d, field tail (Handler.store h) r = Some d ->
    drop 1 (flatten (length (Handler.store h)) (Handler.store h) r) ≠ []
    /\ Tag.iterator (Handler.store h) r =
       if decide (S d < length (Handler.store h))
       then (Some <$> drop 1 (flatten (length (Handler.store h)) (Handler.store h) r),
             Traversal.Returned)
       else ([], Traversal.Returned).
Proof.
  intros Hr r d Ht. destruct (run_invariants calls h Hr) as (Hwf & _ & Hsp).
  destruct (tail_span h r d Hwf Hsp Ht) as ([Hrd Hd] & ->).
  replace (S d - r) with (S (d - r)) by lia. cbn [seq drop].
  split; [destruct (d - r) eqn:E; [lia|done]|].
  unfold Tag.iterator.
  unfold field in Ht. rewrite Ht. cbn [mbind option_bind].
  pose proof (wf_next h Hwf d Hd) as Hn. unfold field in Hn. rewrite Hn.
  destruct (decide (S d < length (Handler.store h))) as [Hlt|Hge]; [|done].
  pose proof (wf_next h Hwf r ltac:(lia)) as Hn'. unfold field in Hn'.
  rewrite Hn', decide_True by lia.
  apply (iteratorLoop_seq h (S d) Hwf Hlt); lia.
Qed.

Lemma iterator_yields_descendants_witness :
  exists h,
    Handler.run [onStartTag (Some "p"%string) [] false; onText "x"; onEndTag true;
                 onText "y"] Handler.reset = Some h
    /\ Tag.iterator (Handler.store h) 1 = ([Some 2], Traversal.Returned).
Proof.
  destruct (Handler.run [onStartTag (Some "p"%string) [] false; onText "x"; onEndTag true;
                         onText "y"] Handler.reset) as [h|] eqn:E; [|by vm_compute in E].
  exists h. split; [reflexivity|].
  pose proof (iterator_yields_descendants _ _ E 1 2) as Hs.
  vm_compute in E. injection E as <-.
  destruct (Hs eq_refl) as (_ & Hit). exact Hit.
Defined.

Local Open Scope Z_scope.

(** * The states the Lexer reaches *)

Lemma CDATA_unmatched char :
  Sequence.eqAt (Z.lor char Character.SPACE) Sequence.CDATA 1 = false.
Proof.
  unfold Sequence.eqAt. simpl. apply Z.eqb_neq. intros H.
  apply (f_equal (fun z => Z.testbit z 5)) in H.
  rewrite Z.lor_spec in H. simpl in H. by rewrite orb_true_r in H.
Qed.

Lemma extends_refl {A} (log : list A) : log = log ++ [].
Proof. by rewrite app_nil_r. Qed.

Lemma extends_snoc {A} (log log' new : list A) c :
  log' = log ++ new -> log' ++ [c] = log ++ (new ++ [c]).
Proof. intros ->. by rewrite app_assoc. Qed.

Ltac split_if :=
  match goal with
  | |- context [match ?x with Some _ => _ | None => _ end] => is_var x; destruct x
  | |- context [if ?b then _ else _] => destruct b eqn:?
  end.

Ltac unfold_states :=
  unfold Lexer.PAGE_, Lexer.TEXT_, Lexer.BEFORE_TEXT_ENTITY_, Lexer.TEXT_ENTITY_,
    Lexer.RAW_TEXT_, Lexer.RAW_TEXT_END_OPEN_, Lexer.START_TAG_OPEN_,
    Lexer.START_TAG_OPEN_tail, Lexer.START_TAG_NAME_, Lexer.S_SEQUENCE_START_,
    Lexer.T_SEQUENCE_START_, Lexer.START_SEQUENCE_MATCH_, Lexer.END_SEQUENCE_MATCH_,
    Lexer.EXCLAIMATION_, Lexer.COMMENT_START_, Lexer.COMMENT_, Lexer.COMMENT_END_OPEN_,
    Lexer.COMMENT_END_, Lexer.COMMENT_END_CLOSE_, Lexer.DECLARATION_,
    Lexer.DASHLESS_COMMENT_, Lexer.DIRECTIVE_, Lexer.DIRECTIVE_END_, Lexer.closeStartTag,
    Lexer.BEFORE_ATTRIBUTE_NAME_, Lexer.ATTRIBUTE_NAME_, Lexer.AFTER_ATTRIBUTE_NAME_,
    Lexer.BEFORE_ATTRIBUTE_VALUE_, Lexer.finishValue, Lexer.DQ_ATTRIBUTE_VALUE_,
    Lexer.SQ_ATTRIBUTE_VALUE_, Lexer.NQ_ATTRIBUTE_VALUE_, Lexer.BEFORE_ATTRIBUTE_ENTITY_,
    Lexer.ATTRIBUTE_ENTITY_, Lexer.SELF_CLOSING_TAG_, Lexer.END_TAG_OPEN_,
    Lexer.END_TAG_NAME_, Lexer.AFTER_END_TAG_NAME_, Lexer.afterStartTag, Lexer.when,
    Lexer.set_state, Lexer.set_previous, Lexer.set_next, Lexer.set_sequence,
    Lexer.set_sequenceIndex, Lexer.set_index, Lexer.set_sectionStart, Lexer.call,
    Lexer.enter;
  cbn [Lexer.state Lexer.previous Lexer.next Lexer.sequence Lexer.sequenceIndex
       Lexer.index Lexer.sectionStart Lexer.parser
       mbind option_bind Lexer.invoke Lexer.method negb].

Ltac narrow H :=
  repeat match type of H with
         | context [match ?x with _ => _ end] => is_var x; destruct x; try discriminate H
         end.

Ltac extend_log :=
  repeat first [apply extends_refl | apply extends_snoc].

Ltac numbers :=
  repeat match goal with
         | H : (_ =? _) = true |- _ => apply Z.eqb_eq in H
         end;
  cbn [entered] in *; try lia.

Lemma START_TAG_OPEN_tail_eq log prev nxt st idx ss sq k :
  Lexer.START_TAG_OPEN_tail (Lexer.mk log prev nxt st idx ss sq k) =
  Lexer.mk (if negb (ss =? idx - 1)
            then (log ++ [ParserCall.onText ss (idx - 1)]) ++ [ParserCall.onTextEnd]
            else log) prev nxt st idx idx sq k.
Proof.
  unfold Lexer.START_TAG_OPEN_tail, Lexer.when. cbn [Lexer.sectionStart Lexer.index].
  by destruct (negb (ss =? idx - 1)).
Qed.

Ltac leaves :=
  unfold Lexer.set_index;
  cbn [Lexer.state Lexer.previous Lexer.next Lexer.sequence
       Lexer.sequenceIndex Lexer.index Lexer.sectionStart Lexer.parser];
  try (split; reflexivity);
  (split; [split; [try reflexivity|numbers; repeat split; numbers; try done]|]);
  (split; [reflexivity|]);
  (eexists; split; [extend_log|]);
  cbn [app];
  (split; [rewrite ?Forall_cons, ?Forall_nil; cbn [isCDATA inside];
           numbers; repeat split; numbers|]);
  cbn [inTag]; intros b Hb; try specialize (Hb eq_refl); subst; cbn [scan];
  eexists; (split; [reflexivity|]); try done.

(** START_TAG_OPEN, whose branches share the tail that reports the pending
    text. *)
Lemma stepped_START_TAG_OPEN log prev nxt idx ss sq k char :
  let this := Lexer.mk log prev nxt Lexer.START_TAG_OPEN idx ss sq k in
  sane this ->
  match Lexer.invoke Lexer.depth this char with
  | Some this' => stepped this this'
  | None => Lexer.state this = Lexer.END_SEQUENCE_MATCH /\ Lexer.sequence this = None
  end.
Proof.
  intros this. unfold this. clear this.
  intros (Hs & Hss & Hidx & Hk). unfold stepped, sane, Lexer.depth.
  cbn [Lexer.invoke Lexer.state Lexer.index Lexer.sectionStart Lexer.sequenceIndex
       Lexer.parser Lexer.method] in *.
  unfold Lexer.START_TAG_OPEN_.
  destruct (char =? Character.SLASH) eqn:?.
  { unfold Lexer.set_state. cbn [Lexer.state Lexer.previous Lexer.next Lexer.sequence
      Lexer.sequenceIndex Lexer.index Lexer.sectionStart Lexer.parser]. leaves. }
  destruct (isAlphabetic char) eqn:?.
  { cbv zeta.
    destruct (Sequence.eqAt char Sequence.SCRIPT 0) eqn:?;
      [|destruct (Sequence.eqAt char Sequence.TEXT_AREA 0) eqn:?;
        [|destruct (Sequence.eqAt char Sequence.XMP 0) eqn:?]];
      unfold Lexer.set_state, Lexer.set_previous, Lexer.set_next, Lexer.set_sequence,
        Lexer.set_sequenceIndex;
      cbn [Lexer.state Lexer.previous Lexer.next Lexer.sequence
           Lexer.sequenceIndex Lexer.index Lexer.sectionStart Lexer.parser];
      rewrite START_TAG_OPEN_tail_eq;
      destruct (negb (ss =? idx - 1)) eqn:?;
      cbn [Lexer.state Lexer.previous Lexer.next Lexer.sequence
           Lexer.sequenceIndex Lexer.index Lexer.sectionStart Lexer.parser].
    all: leaves. }
  destruct (char =? Character.EXCLAIMATION_MARK) eqn:?.
  { unfold Lexer.set_state.
    cbn [Lexer.state Lexer.previous Lexer.next Lexer.sequence
         Lexer.sequenceIndex Lexer.index Lexer.sectionStart Lexer.parser].
    rewrite START_TAG_OPEN_tail_eq.
    destruct (negb (ss =? idx - 1)) eqn:?;
      cbn [Lexer.state Lexer.previous Lexer.next Lexer.sequence
           Lexer.sequenceIndex Lexer.index Lexer.sectionStart Lexer.parser]; leaves. }
  destruct (char =? Character.QUESTION_MARK) eqn:?.
  { unfold Lexer.set_state.
    cbn [Lexer.state Lexer.previous Lexer.next Lexer.sequence
         Lexer.sequenceIndex Lexer.index Lexer.sectionStart Lexer.parser].
    rewrite START_TAG_OPEN_tail_eq.
    destruct (negb (ss =? idx - 1)) eqn:?;
      cbn [Lexer.state Lexer.previous Lexer.next Lexer.sequence
           Lexer.sequenceIndex Lexer.index Lexer.sectionStart Lexer.parser]; leaves. }
  unfold Lexer.set_state. cbn [Lexer.invoke Lexer.method Lexer.state].
  unfold Lexer.TEXT_, Lexer.set_state.
  repeat (split_if; cbn [Lexer.state Lexer.previous Lexer.next Lexer.sequence
           Lexer.sequenceIndex Lexer.index Lexer.sectionStart Lexer.parser]); leaves.
Qed.

(** One call [this.state(char)] from a state as [sane] describes it: it
    fails only in END_SEQUENCE_MATCH with a null sequence, and what it
    returns is as [stepped] describes it. *)
Lemma invoke_stepped this char :
  sane this ->
  match Lexer.invoke Lexer.depth this char with
  | Some this' => stepped this this'
  | None => Lexer.state this = Lexer.END_SEQUENCE_MATCH /\ Lexer.sequence this = None
  end.
Proof.
  destruct this as [log prev nxt st idx ss sq k]. intros Hsane.
  destruct st; try (exact (stepped_START_TAG_OPEN log prev nxt idx ss sq k char Hsane));
    destruct Hsane as (Hs & Hss & Hidx & Hk); unfold stepped, sane, Lexer.depth;
    cbn [Lexer.invoke Lexer.state Lexer.index Lexer.sectionStart Lexer.sequenceIndex
         Lexer.parser] in *;
    try discriminate Hs; cbn [Lexer.method];
    unfold shape, matching, tagStart, valueState in Hs; cbn in Hs; narrow Hs;
    try (apply andb_true_iff in Hs as [?%bool_decide_eq_true ?%Z.eqb_eq]; subst);
    repeat unfold_states; rewrite ?CDATA_unmatched; cbn [negb];
    repeat (split_if; cbn [Lexer.state Lexer.previous Lexer.next Lexer.sequence
                           Lexer.sequenceIndex Lexer.index Lexer.sectionStart
                           Lexer.parser negb mbind option_bind]);
    try specialize (Hk eq_refl); leaves.
Qed.

Lemma scan_app b calls1 calls2 :
  scan b (calls1 ++ calls2) = b' ← scan b calls1; scan b' calls2.
Proof.
  revert b. induction calls1 as [|c calls1 IH]; intros b; [done|].
  destruct c; simpl; try apply IH. destruct b; [apply IH|done].
Qed.

Lemma inside_mono n m c : n <= m -> inside n c -> inside m c.
Proof. intros Hnm. destruct c; simpl; lia. Qed.

Lemma sane_reset : sane Lexer.reset.
Proof. repeat split; simpl; (lia || done). Qed.

(** A run that stopped before the end of the chunk goes on from where
    it stopped. *)
Lemma loop_add k m chunk this0 this :
  Lexer.loop k chunk this0 = Some this -> Lexer.index this < JS.len chunk ->
  Lexer.loop (k + m) chunk this0 = Lexer.loop m chunk this.
Proof.
  revert this0. induction k as [|k IH]; intros this0.
  - simpl. by intros [= ->].
  - replace (S k + m)%nat with (S (k + m)) by lia. cbn [Lexer.loop].
    destruct (JS.charCodeAt chunk (Lexer.index this0)) as [c|]; [|done].
    cbn [mbind option_bind].
    destruct (Lexer.invoke Lexer.depth this0 c) as [this1|]; [|done].
    cbn [mbind option_bind].
    destruct (Lexer.index (Lexer.set_index (Lexer.index this1 + 1) this1) <? JS.len chunk)
      eqn:E.
    + apply IH.
    + intros [= <-] Hlt. apply Z.ltb_ge in E. lia.
Qed.

(** The Lexer over the characters of a chunk, from a state as [sane]
    describes it. *)
Lemma loop_stepped n chunk this :
  sane this -> Lexer.index this < JS.len chunk ->
  match Lexer.loop n chunk this with
  | Some this' =>
      (exists new,
         Lexer.parser this' = Lexer.parser this ++ new
         /\ Forall (fun c => isCDATA c = false /\ inside (JS.len chunk) c) new
         /\ forall b, (inTag (Lexer.state this) = true -> b = true) ->
              exists b', scan b new = Some b'
                         /\ (inTag (Lexer.state this') = true -> b' = true))
      /\ sane this'
      /\ (Lexer.index this' < JS.len chunk
          \/ Lexer.index this + Z.of_nat n <= JS.len chunk ->
          Lexer.index this' = Lexer.index this + Z.of_nat n)
  | None =>
      exists k this1,
        Lexer.loop k chunk this = Some this1
        /\ Lexer.index this1 < JS.len chunk
        /\ Lexer.state this1 = Lexer.END_SEQUENCE_MATCH
        /\ Lexer.sequence this1 = None
  end.
Proof.
  revert this. induction n as [|n IH]; intros this Hsane Hlt.
  - simpl. split; [|split; [done|lia]].
    exists []. split; [by rewrite app_nil_r|]. split; [done|].
    intros b Hb. by exists b.
  - cbn [Lexer.loop].
    destruct (charCodeAt_some chunk (Lexer.index this)) as [c Hc].
    { destruct Hsane as (_ & Hss & _). lia. }
    rewrite Hc. cbn [mbind option_bind].
    pose proof (invoke_stepped this c Hsane) as Hstep.
    destruct (Lexer.invoke Lexer.depth this c) as [this1|] eqn:Hinv.
    2:{ destruct Hstep as [Hst Hsq]. exists 0%nat, this. done. }
    cbn [mbind option_bind].
    destruct Hstep as (Hsane1 & Hidx & new1 & Hlog1 & Hall1 & Hscan1).
    assert (Forall (fun c => isCDATA c = false /\ inside (JS.len chunk) c) new1) as Hall1'.
    { eapply Forall_impl; [exact Hall1|]. intros x [? ?]. split; [done|].
      eapply inside_mono; [|done]. lia. }
    rewrite <- Hidx in Hsane1.
    set (this2 := Lexer.set_index (Lexer.index this1 + 1) this1) in *.
    assert (Lexer.index this2 = Lexer.index this + 1) as Hidx2 by (simpl; lia).
    assert (Lexer.state this2 = Lexer.state this1) as Hst2 by done.
    assert (Lexer.parser this2 = Lexer.parser this1) as Hlog2 by done.
    destruct (Lexer.index this2 <? JS.len chunk) eqn:E.
    + apply Z.ltb_lt in E. specialize (IH this2 Hsane1 E).
      destruct (Lexer.loop n chunk this2) as [this'|] eqn:Hloop.
      * destruct IH as ((new2 & Hlog' & Hall2 & Hscan2) & Hsane' & Hend).
        split; [|split; [done|]].
        -- exists (new1 ++ new2). split; [|split].
           ++ rewrite Hlog', Hlog2, Hlog1. by rewrite app_assoc.
           ++ by apply Forall_app.
           ++ intros b Hb. destruct (Hscan1 b Hb) as (b1 & Hb1 & Hin1).
              rewrite <- Hst2 in Hin1.
              destruct (Hscan2 b1 Hin1) as (b2 & Hb2 & Hin2).
              exists b2. split; [|done]. rewrite scan_app, Hb1. done.
        -- intros Hlt'. rewrite Hend by lia. lia.
      * destruct IH as (k & this3 & Hk & ?). exists (S k), this3. split; [|done].
        cbn [Lexer.loop]. rewrite Hc. cbn [mbind option_bind]. rewrite Hinv.
        cbn [mbind option_bind]. fold this2. apply Z.ltb_lt in E. by rewrite E.
    + apply Z.ltb_ge in E. split; [|split; [done|]].
      * exists new1. split; [by rewrite Hlog2|]. split; [done|].
        intros b Hb. destruct (Hscan1 b Hb) as (b1 & Hb1 & Hin1). exists b1.
        by rewrite Hst2.
      * intros Hlt'. lia.
Qed.

Lemma len_pos chunk : chunk ≠ EmptyString -> 0 < JS.len chunk.
Proof. destruct chunk; [done|]. intros _. unfold JS.len. simpl. lia. Qed.

(** What holds of the calls the Lexer makes on a chunk it reads to the
    end. *)
Lemma end_stepped chunk calls :
  Lexer.end_ chunk = Some calls ->
  Forall (fun c => isCDATA c = false /\ inside (JS.len chunk) c) calls
  /\ is_Some (scan false calls).
Proof.
  unfold Lexer.end_, Lexer.write. destruct chunk as [|a chunk].
  - intros [= <-]. split; [done|]. by eexists.
  - set (text := String a chunk).
    pose proof (loop_stepped (String.length text) text Lexer.reset sane_reset
                  (len_pos text ltac:(done))) as Hloop.
    destruct (Lexer.loop (String.length text) text Lexer.reset) as [this|]; [|done].
    simpl. intros [= <-].
    destruct Hloop as ((new & Hlog & Hall & Hscan) & _). simpl in Hlog. subst new.
    split; [done|]. destruct (Hscan false) as (b & Hb & _); [done|]. by eexists.
Qed.

(** X5. The Lexer fails on a chunk exactly when, after some of its
    characters, it stands in END_SEQUENCE_MATCH with a null sequence,
    which the method then reads; no other state method fails, and no
    chain of re-dispatches runs away. *)
Theorem lexer_fails_only_on_null_sequence (chunk : string) :
  Lexer.end_ chunk = None <->
  exists k this,
    Lexer.loop k chunk Lexer.reset = Some this
    /\ Lexer.index this < JS.len chunk
    /\ Lexer.state this = Lexer.END_SEQUENCE_MATCH
    /\ Lexer.sequence this = None.
Proof.
  split.
  - unfold Lexer.end_, Lexer.write. destruct chunk as [|a chunk]; [done|].
    set (text := String a chunk).
    pose proof (loop_stepped (String.length text) text Lexer.reset sane_reset
                  (len_pos text ltac:(done))) as Hloop.
    destruct (Lexer.loop (String.length text) text Lexer.reset) as [this|]; [done|].
    intros _. exact Hloop.
  - intros (k & this & Hk & Hlt & Hst & Hsq).
    assert (chunk ≠ EmptyString) as Hne.
    { intros ->. destruct k; [|done]. simpl in Hk. injection Hk as <-.
      unfold JS.len in Hlt. simpl in Hlt. lia. }
    pose proof (loop_stepped k chunk Lexer.reset sane_reset (len_pos chunk Hne)) as Hloop.
    rewrite Hk in Hloop. destruct Hloop as (_ & Hsane & Hend).
    pose proof (Hend (or_introl Hlt)) as Hidx. simpl in Hidx.
    assert (exists m, String.length chunk = (k + S m)%nat) as [m Hm].
    { exists (String.length chunk - S k)%nat. unfold JS.len in Hlt. lia. }
    unfold Lexer.end_, Lexer.write. destruct chunk as [|a chunk]; [done|].
    rewrite Hm, (loop_add k (S m) _ _ _ Hk Hlt).
    cbn [Lexer.loop].
    destruct (charCodeAt_some (String a chunk) (Lexer.index this)) as [c ->]; [lia|].
    cbn [mbind option_bind].
    destruct this as [log prev nxt st idx ss sq j]. simpl in Hst, Hsq. subst st sq.
    reflexivity.
Qed.

Lemma lexer_fails_only_on_null_sequence_witness : Lexer.end_ "<x>1</x>" = None.
Proof.
  apply lexer_fails_only_on_null_sequence.
  exists 6%nat. eexists. split; [vm_compute; reflexivity|].
  split; [reflexivity|]. split; reflexivity.
Defined.





Local Open Scope nat_scope.

(** ** What reaches the tree *)

Lemma plain_emitted c : plain c -> emitted c.
Proof. by destruct c. Qed.

Lemma Forall_plain_pops k : Forall plain (replicate k (onEndTag false)).
Proof. induction k; by constructor. Qed.

Section Log.
Variable decode : string -> option string.

(** The calls one call of the Lexer makes the Parser make. *)
Lemma receive_log p c :
  exists extra,
    Parser.handler (Parser.receive decode p c) = Parser.handler p ++ extra
    /\ match c with
       | ParserCall.onStartTagClose =>
           exists k, extra = replicate k (onEndTag false)
                             ++ [onStartTag (Parser.tagName p) (Parser.attributes p)
                                            (void (Parser.tagName p))]
       | ParserCall.onCDATA _ _ => True
       | _ => Forall plain extra
       end.
Proof.
  destruct c; cbn [Parser.receive];
    try (exists []; split; [by rewrite app_nil_r|done]);
    try (eexists [_]; split; [reflexivity|by repeat constructor]).
  - unfold Parser.onStartTagClose.
    set (close := Parser.tagName p ≫= _).
    assert (exists k,
              match close with
              | Some close => Parser.closeImplicit close (Parser.stack p) p
              | None => p
              end =
              Parser.mk (Parser.handler p ++ replicate k (onEndTag false))
                (Parser.buffer p) (drop k (Parser.stack p)) (Parser.text p)
                (Parser.tagName p) (Parser.attributeName p)
                (Parser.attributeValue p) (Parser.attributes p)) as (k & ->).
    { destruct close as [close|].
      - destruct (closeImplicit_pops close p) as (k & _ & _ & _ & ?). eauto.
      - exists 0. destruct p. simpl. by rewrite app_nil_r. }
    cbn [Parser.tagName Parser.attributes].
    change (match Parser.tagName p with
            | Some name => has emptyElements name
            | None => false
            end) with (void (Parser.tagName p)).
    eexists. split; [|by exists k].
    destruct (void (Parser.tagName p)); simpl; by rewrite <- app_assoc.
  - unfold Parser.onEndTagName.
    destruct (has emptyElements _); [exists []; split; [by rewrite app_nil_r|done]|].
    destruct (_ =? _)%Z; [exists []; split; [by rewrite app_nil_r|done]|].
    rewrite closeDistance_spec. simpl. eexists. split; [reflexivity|].
    apply Forall_app. split; [apply Forall_plain_pops|by repeat constructor].
Qed.

Lemma receive_tagName p c :
  Parser.tagName (Parser.receive decode p c) =
  match c with
  | ParserCall.onStartTagName start end_ =>
      Some (JS.toLowerCase (JS.slice (Parser.buffer p) start end_))
  | ParserCall.onStartTagClose => None
  | _ => Parser.tagName p
  end.
Proof.
  destruct c; try reflexivity.
  unfold Parser.receive, Parser.onEndTagName.
  destruct (has emptyElements _); [done|].
  destruct (_ =? _)%Z; [done|]. by rewrite closeDistance_spec.
Qed.

Lemma run_emitted calls p b b' :
  scan b calls = Some b' ->
  Forall (fun c => isCDATA c = false) calls ->
  tidy p -> (b = true -> is_Some (Parser.tagName p)) ->
  Forall emitted (Parser.handler p) ->
  Forall emitted (Parser.handler (foldl (Parser.receive decode) p calls)).
Proof.
  revert p b. induction calls as [|c calls IH]; intros p b Hscan Hcd Htidy Hb Hall; [done|].
  apply Forall_cons in Hcd as [Hc Hcd]. cbn [foldl].
  pose proof (receive_tidy decode p c Htidy) as Htidy'.
  pose proof (receive_tagName p c) as Htn.
  destruct (receive_log p c) as (extra & Hlog & Hextra).
  assert (forall b1, scan b1 calls = Some b' ->
            (b1 = true -> is_Some (Parser.tagName (Parser.receive decode p c))) ->
            Forall emitted extra ->
            Forall emitted
              (Parser.handler (foldl (Parser.receive decode)
                                 (Parser.receive decode p c) calls))) as Hnext.
  { intros b1 Hb1 Hnamed Hex. apply (IH _ b1); try done.
    rewrite Hlog. by apply Forall_app. }
  assert (forall l, Forall plain l -> Forall emitted l) as Hplain.
  { intros l H. eapply Forall_impl; [exact H|apply plain_emitted]. }
  destruct c; cbn [scan] in Hscan; try discriminate Hc;
    try (apply (Hnext b Hscan); [by rewrite Htn|by apply Hplain]).
  - apply (Hnext true Hscan); [rewrite Htn; by eexists|by apply Hplain].
  - destruct b; [|done]. destruct (Hb eq_refl) as [text Htext].
    apply (Hnext false Hscan); [done|].
    destruct Hextra as (k & ->). apply Forall_app. split.
    + apply Hplain, Forall_plain_pops.
    + constructor; [|done]. exists text. split; [done|].
      destruct Htidy as [_ Hlow]. by apply Hlow.
Qed.
End Log.

(** The type, the name and the value of a node are those of the call it
    was allocated for: what holds of the nodes that the calls create
    holds of the nodes of the tree. *)
Section Nodes.
Variables (P : Node -> Prop) (Q : HandlerCall.t -> Prop).
Hypothesis Hsame : forall node1 node2,
  type node1 = type node2 -> name node1 = name node2 -> value node1 = value node2 ->
  P node1 -> P node2.
Hypothesis Hcreated : forall c node, Q c -> created c = Some node -> P node.

Lemma receive_nodes h c h' :
  wf h -> Q c ->
  (forall r node, Handler.store h !! r = Some node -> P node) ->
  Handler.receive h c = Some h' ->
  forall r node, Handler.store h' !! r = Some node -> P node.
Proof.
  intros Hwf Hc Hall Hr r node' Hlook.
  set (proj := fun x : Node => Some (type x, name x, value x)).
  assert (forall node1 node2, proj node1 = proj node2 -> P node1 -> P node2) as Hproj.
  { intros node1 node2 [= Ht Hn Hv]. by apply Hsame. }
  assert (forall x, field proj (Handler.store h) r = Some x ->
            exists node, Handler.store h !! r = Some node /\ proj node = Some x) as Hfield.
  { intros x. unfold field. destruct (Handler.store h !! r) as [node|]; [|done].
    simpl. eauto. }
  assert (field proj (Handler.store h') r = proj node') as Hnew.
  { unfold field. by rewrite Hlook. }
  destruct (created c) as [node|] eqn:Hcr.
  - destruct (receive_created h c h' node Hwf Hr Hcr) as (t & rest & branch & Hanc & Hb & Hl).
    rewrite (link_frame _ node t (Handler.previous h) branch Hb proj _ r
               ltac:(done) ltac:(done) ltac:(done) ltac:(done) ltac:(done) ltac:(done) Hl)
      in Hnew.
    case_decide.
    + apply (Hproj node); [done|]. by apply (Hcreated c).
    + destruct (Hfield _ Hnew) as (node0 & Hlook0 & Hp0).
      apply (Hproj node0); [exact Hp0|]. by eapply Hall.
  - destruct (receive_closed h c h' Hwf Hr Hcr) as (t & Hs).
    rewrite Hs, field_alter_frame in Hnew by done.
    destruct (Hfield _ Hnew) as (node0 & Hlook0 & Hp0).
    apply (Hproj node0); [exact Hp0|]. by eapply Hall.
Qed.

Lemma run_nodes calls h h' :
  wf h -> Forall Q calls ->
  (forall r node, Handler.store h !! r = Some node -> P node) ->
  Handler.run calls h = Some h' ->
  forall r node, Handler.store h' !! r = Some node -> P node.
Proof.
  revert h. induction calls as [|c calls IH]; intros h Hwf Hcalls Hall; simpl.
  - by intros [= <-].
  - apply Forall_cons in Hcalls as [Hc Hcalls].
    destruct (Handler.receive h c) as [h1|] eqn:Hr; [|done]. simpl.
    apply IH; [by eapply receive_wf|done|by eapply receive_nodes].
Qed.
End Nodes.

Lemma created_built c node : emitted c -> created c = Some node -> built node.
Proof.
  intros Hc Hcr.
  destruct c; simpl in Hcr; try done; injection Hcr as <-; unfold built; simpl;
    (split; [done|split; done]).
Qed.

Lemma parse_built decode chunk h :
  parse decode chunk = Some h ->
  forall r node, Handler.store h !! r = Some node -> built node.
Proof.
  unfold parse. destruct (Lexer.end_ chunk) as [calls|] eqn:Hend; [|done]. simpl.
  unfold build, Parser.onEnd. rewrite closeAll_spec. simpl. intros Hrun.
  destruct (end_stepped chunk calls Hend) as [Hall [b Hscan]].
  eapply (run_nodes built emitted); [|apply created_built|apply wf_reset| |
                                     |exact Hrun].
  - intros node1 node2 Ht Hn _. unfold built. by rewrite Ht, Hn.
  - apply Forall_app. split.
    + apply (run_emitted decode calls (Parser.reset chunk) false b Hscan).
      * eapply Forall_impl; [exact Hall|]. by intros c [? _].
      * split; [constructor|done].
      * done.
      * constructor.
    + eapply Forall_impl; [apply Forall_plain_pops|]. apply plain_emitted.
  - intros [|[|r]] node; try done. intros [= <-]. by split.
Qed.

(** X8. Every tag of a tree built from a chunk has a name, and the name
    holds no upper-case letter: the Lexer reports a tag name before it
    closes a start tag, and the Parser lowers it. *)
Theorem tags_have_lower_case_names (decode : string -> option string)
    (chunk : string) (h : Handler.t) :
  parse decode chunk = Some h ->
  forall r node, Handler.store h !! r = Some node -> type node = TAG ->
    exists text, name node = Some text /\ hasUpper text = false.
Proof.
  intros Hp r node Hlook Ht.
  destruct (parse_built decode chunk h Hp r node Hlook) as (Hname & _). by apply Hname.
Qed.

Lemma tags_have_lower_case_names_witness :
  exists h, parse unresolved "<P>x</P>" = Some h
    /\ exists node text,
         Handler.store h !! 1 = Some node /\ name node = Some text
         /\ hasUpper text = false.
Proof.
  destruct (parse unresolved "<P>x</P>") as [h|] eqn:E; [|by vm_compute in E].
  exists h. split; [reflexivity|].
  pose proof (tags_have_lower_case_names _ _ _ E 1) as Hn.
  vm_compute in E. injection E as <-.
  destruct (Hn _ eq_refl eq_refl) as (text & Htext & Hlow).
  eexists _, text. split; [reflexivity|]. split; [exact Htext|exact Hlow].
Defined.

(** X9. No tree built from a chunk holds a CDATA node or a directive
    node: the Lexer reports no CDATA section, and the Parser has no
    [onDirective] to take the directives the Lexer reports. *)
Theorem no_CDATA_or_directive_node (decode : string -> option string)
    (chunk : string) (h : Handler.t) :
  parse decode chunk = Some h ->
  forall r node, Handler.store h !! r = Some node ->
    type node ≠ CDATA /\ type node ≠ DIRECTIVE.
Proof.
  intros Hp r node Hlook.
  by destruct (parse_built decode chunk h Hp r node Hlook) as (_ & ? & ?).
Qed.

Lemma no_CDATA_or_directive_node_witness :
  exists h node,
    parse unresolved "<?xml?><![CDATA[x]]><p>" = Some h
    /\ Handler.store h !! 1 = Some node
    /\ value node = Some "[CDATA[x]]"%string
    /\ type node ≠ CDATA /\ type node ≠ DIRECTIVE.
Proof.
  destruct (parse unresolved "<?xml?><![CDATA[x]]><p>") as [h|] eqn:E;
    [|by vm_compute in E].
  pose proof (no_CDATA_or_directive_node _ _ _ E 1) as Hn.
  vm_compute in E. injection E as <-.
  eexists _, _. split; [reflexivity|]. split; [reflexivity|]. split; [reflexivity|].
  exact (Hn _ eq_refl).
Defined.

(** ** The two traversals over the whole depth *)

Section Walk.
Variables (store : Store) (options : Traversal.Options).
Hypothesis Hchildren : forall r branch, childrenOf store r = Some branch ->
  Forall (fun c => r < c < length store) branch.

Let size := length store.

Lemma walk_fuel bound bound' node :
  size - node < bound -> size - node < bound' ->
  walk store options bound node = walk store options bound' node.
Proof.
  revert bound' node. induction bound as [|bound IH]; intros bound' node Hb Hb'; [lia|].
  destruct bound' as [|bound']; [lia|]. simpl. f_equal.
  destruct (Traversal.internal store options node); [|done].
  destruct (childrenOf store node) as [branch|] eqn:E; [|done]. simpl.
  apply Forall_bind_ext. eapply Forall_impl; [exact (Hchildren _ _ E)|].
  intros c Hc. simpl in Hc. apply IH; unfold size in *; lia.
Qed.

Lemma walk_unfold bound node :
  size < bound ->
  walk store options bound node =
  node :: if Traversal.internal store options node
          then mbind (walk store options bound) (default [] (childrenOf store node))
          else [].
Proof.
  intros Hb. destruct bound as [|bound]; [lia|].
  change (walk store options (S bound) node) with
    (node :: if Traversal.internal store options node
             then mbind (walk store options bound) (default [] (childrenOf store node))
             else []).
  f_equal.
  destruct (Traversal.internal store options node); [|done].
  destruct (childrenOf store node) as [branch|] eqn:E; [|done]. cbn [default from_option id].
  apply Forall_bind_ext. eapply Forall_impl; [exact (Hchildren _ _ E)|].
  intros c Hc. cbn beta in Hc. apply walk_fuel; unfold size in *; lia.
Qed.

Lemma internal_children node :
  Traversal.internal store options node = true ->
  exists first rest, childrenOf store node = Some (first :: rest).
Proof.
  unfold Traversal.internal. destruct (childrenOf store node) as [[|first rest]|]; try done.
  eauto.
Qed.

Lemma todo_cons fuel frame stack :
  todo store options fuel (frame :: stack)
  = mbind (walk store options fuel)
          (drop frame.2 (default [] (childrenOf store frame.1)))
    ++ todo store options fuel stack.
Proof. reflexivity. Qed.

Lemma inspect_filter branch :
  Traversal.inspect store options true true branch
  = (List.filter (kept store options) branch,
     List.filter (Traversal.internal store options) branch).
Proof.
  induction branch as [|node branch IH]; [done|].
  cbn [Traversal.inspect List.filter]. rewrite IH. unfold kept.
  destruct (Traversal.internal store options node), (Traversal.leaf options); done.
Qed.

Lemma sweep_filter ceiling :
  Forall (fun node => is_Some (childrenOf store node)) ceiling ->
  Traversal.sweep store options true true ceiling
  = Some (List.filter (kept store options)
            (mbind (fun node => default [] (childrenOf store node)) ceiling),
          List.filter (Traversal.internal store options)
            (mbind (fun node => default [] (childrenOf store node)) ceiling)).
Proof.
  induction 1 as [|node ceiling [branch Hb] _ IH]; [done|].
  cbn [Traversal.sweep]. rewrite Hb. cbn [mbind option_bind].
  rewrite inspect_filter, IH. cbn [mbind option_bind list_bind default from_option id].
  rewrite Hb. cbn [default from_option id]. by rewrite !List.filter_app.
Qed.

Lemma queued_next bound queue :
  Forall (queued store (S bound)) queue ->
  Forall (queued store bound)
    (List.filter (Traversal.internal store options)
       (mbind (fun node => default [] (childrenOf store node)) queue)).
Proof.
  intros Hq. apply Forall_forall. intros c Hc.
  apply list_elem_of_In, List.filter_In in Hc as [Hc Hint].
  apply list_elem_of_In, list_elem_of_bind in Hc as (q & Hcq & Hq').
  rewrite Forall_forall in Hq. destruct (Hq q Hq') as [[branch Hb] Hlt].
  rewrite Hb in Hcq. simpl in Hcq.
  pose proof (Hchildren q branch Hb) as Hall. rewrite Forall_forall in Hall.
  specialize (Hall c Hcq). simpl in Hall.
  destruct (internal_children c Hint) as (first & others & Hcb).
  split; [by eexists|]. unfold size in *. lia.
Qed.

Lemma bind_bind {A B C} (f : A -> list B) (g : B -> list C) (l : list A) :
  mbind g (mbind f l) = mbind (fun x => mbind g (f x)) l.
Proof.
  induction l as [|x l IH]; [done|]. cbn [mbind list_bind].
  change (list_bind ?f ?l) with (mbind f l) in *. by rewrite bind_app, IH.
Qed.

Lemma walk_split fuel branch :
  size < fuel ->
  mbind (walk store options fuel) branch ≡ₚ
  branch ++ mbind (fun node => mbind (walk store options fuel)
                                     (default [] (childrenOf store node)))
                  (List.filter (Traversal.internal store options) branch).
Proof.
  intros Hfuel. induction branch as [|c branch IH]; [done|].
  cbn [mbind list_bind List.filter].
  change (list_bind ?f ?l) with (mbind f l) in *.
  rewrite walk_unfold by done. rewrite IH.
  destruct (Traversal.internal store options c); cbn [mbind list_bind app].
  - change (list_bind ?f ?l) with (mbind f l) in *.
    constructor. apply Permutation_app_swap_app.
  - done.
Qed.

Lemma levels_walk fuel :
  size < fuel ->
  forall bound queue,
    Forall (queued store bound) queue ->
    levels store options bound queue ≡ₚ
    mbind (fun node => mbind (walk store options fuel)
                             (default [] (childrenOf store node))) queue.
Proof.
  intros Hfuel. induction bound as [|bound IH]; intros queue Hq.
  - destruct queue as [|q queue]; [done|].
    apply Forall_cons in Hq as [[_ Hlt] _]. lia.
  - destruct queue as [|q queue]; [done|]. cbn [levels].
    rewrite IH by (by apply queued_next).
    rewrite <- walk_split by done. by rewrite bind_bind.
Qed.

Section Whole.
Hypothesis Hskip : Traversal.skip options = 0.
Hypothesis Hlast : Traversal.last options = None.

Lemma posterityLoop_todo fuel :
  size < fuel ->
  forall bound stack level,
    Forall (pending store) stack -> 1 <= level ->
    length (todo store options fuel stack) <= bound ->
    Traversal.posterityLoop store options bound stack level
    = (List.filter (kept store options) (todo store options fuel stack),
       Traversal.Returned).
Proof.
  intros Hfuel. induction bound as [|bound IH]; intros stack level Hstack Hlevel Hlen.
  - destruct stack as [|[ancestor index] rest]; [done|]. exfalso.
    apply Forall_cons in Hstack as [(branch & Hb & Hi) _]. simpl in Hb, Hi.
    rewrite todo_cons in Hlen. cbn [fst snd] in Hlen. rewrite Hb in Hlen.
    cbn [default from_option id] in Hlen.
    destruct (lookup_lt_is_Some_2 branch index Hi) as [node Hnode].
    rewrite (drop_S _ _ _ Hnode) in Hlen. cbn [mbind list_bind] in Hlen.
    rewrite walk_unfold in Hlen by done. simpl in Hlen. lia.
  - destruct stack as [|[ancestor index] rest]; [done|].
    apply Forall_cons in Hstack as [(branch & Hb & Hi) Hrest]. simpl in Hb, Hi.
    destruct (lookup_lt_is_Some_2 branch index Hi) as [node Hnode].
    assert (todo store options fuel ((ancestor, index) :: rest)
            = node :: (if Traversal.internal store options node
                       then mbind (walk store options fuel)
                                  (default [] (childrenOf store node))
                       else [])
                   ++ mbind (walk store options fuel) (drop (S index) branch)
                   ++ todo store options fuel rest) as Htodo.
    { rewrite todo_cons. cbn [fst snd]. rewrite Hb. cbn [default from_option id].
      rewrite (drop_S _ _ _ Hnode). cbn [mbind list_bind].
      rewrite walk_unfold by done. cbn [app]. by rewrite <- app_assoc. }
    rewrite Htodo in Hlen |- *. simpl in Hlen.
    cbn [Traversal.posterityLoop]. rewrite Hb, Hnode, Hlast. cbn [Traversal.below andb].
    set (released := Nat.eqb (S index) (length branch)).
    set (stack1 := if released then rest else (ancestor, S index) :: rest).
    assert (Forall (pending store) stack1) as Hstack1.
    { unfold stack1, released. destruct (Nat.eqb_spec (S index) (length branch)); [done|].
      constructor; [|done]. exists branch. simpl. split; [done|lia]. }
    assert (todo store options fuel stack1
            = mbind (walk store options fuel) (drop (S index) branch)
              ++ todo store options fuel rest) as Htodo1.
    { unfold stack1, released. destruct (Nat.eqb_spec (S index) (length branch)) as [E|E].
      - by rewrite drop_ge by lia.
      - rewrite todo_cons. cbn [fst snd]. by rewrite Hb. }
    destruct (Traversal.internal store options node) eqn:Hint;
      rewrite ?Hint in Hlen; cbn [app] in Hlen.
    + destruct (internal_children node Hint) as (first & others & Hnb).
      assert (Forall (pending store) ((node, 0) :: stack1)) as Hstack2.
      { constructor; [|done]. exists (first :: others). simpl. split; [done|lia]. }
      assert (todo store options fuel ((node, 0) :: stack1)
              = mbind (walk store options fuel) (default [] (childrenOf store node))
                ++ mbind (walk store options fuel) (drop (S index) branch)
                ++ todo store options fuel rest) as Htodo2.
      { rewrite todo_cons. cbn [fst snd]. by rewrite drop_0, Htodo1. }
      cbn [List.filter]. unfold kept at 1. rewrite Hint. cbn [andb].
      destruct (Traversal.leaf options) eqn:Hleaf; cbn [negb].
      * rewrite (IH _ (S level)); [by rewrite Htodo2|done|lia|rewrite Htodo2; lia].
      * rewrite Hskip. cbn [Nat.ltb Nat.leb].
        rewrite IH; [by rewrite Htodo2|done| |rewrite Htodo2; lia].
        destruct (Nat.eqb _ 0) eqn:E; [lia|]. apply Nat.eqb_neq in E. lia.
    + cbn [List.filter app]. unfold kept at 1. rewrite Hint. cbn [andb negb].
      rewrite Hskip.
      assert (Nat.ltb 0 level = true) as -> by (apply Nat.ltb_lt; lia).
      rewrite IH; [by rewrite Htodo1|done| |rewrite Htodo1; lia].
      destruct (Nat.eqb _ 0) eqn:E; [lia|]. apply Nat.eqb_neq in E. lia.
Qed.

Lemma descendantsLoop_levels bound queue level :
  Forall (queued store bound) queue -> 1 <= level ->
  Traversal.descendantsLoop store options bound queue level
  = (List.filter (kept store options) (levels store options bound queue),
     Traversal.Returned).
Proof.
  revert queue level. induction bound as [|bound IH]; intros queue level Hq Hlevel.
  - destruct queue as [|q queue]; [done|].
    apply Forall_cons in Hq as [[_ Hlt] _]. lia.
  - destruct queue as [|q queue]; [done|].
    cbn [Traversal.descendantsLoop levels].
    rewrite Hlast, Hskip. cbn [Traversal.below].
    assert (Nat.ltb 0 level = true) as -> by (apply Nat.ltb_lt; lia).
    rewrite sweep_filter by (eapply Forall_impl; [exact Hq|]; by intros ? [? _]).
    rewrite IH by (by apply queued_next || lia).
    cbn [fst snd]. by rewrite List.filter_app.
Qed.
End Whole.
End Walk.

Lemma filter_sublist {A} (f : A -> bool) (l : list A) : List.filter f l `sublist_of` l.
Proof.
  induction l as [|x l IH]; [done|]. simpl.
  destruct (f x); [by apply sublist_skip|by apply sublist_cons].
Qed.

Lemma filter_permutation {A} (f : A -> bool) (l1 l2 : list A) :
  l1 ≡ₚ l2 -> List.filter f l1 ≡ₚ List.filter f l2.
Proof.
  induction 1 as [|x l1 l2 _ IH|x y l|l1 l2 l3 _ IH1 _ IH2]; simpl.
  - done.
  - destruct (f x); [by constructor|done].
  - destruct (f x), (f y); try done. apply perm_swap.
  - by etrans.
Qed.

Lemma bind_sublist {A B} (f g : A -> list B) (l : list A) :
  (forall x, f x `sublist_of` g x) -> mbind f l `sublist_of` mbind g l.
Proof.
  intros Hfg. induction l as [|x l IH]; [done|].
  cbn [mbind list_bind]. by apply sublist_app.
Qed.

Lemma walk_sublist store options bound node :
  walk store options bound node `sublist_of` flatten bound store node.
Proof.
  revert node. induction bound as [|bound IH]; intros node; [done|].
  cbn [walk flatten]. apply sublist_skip.
  destruct (Traversal.internal store options node); [|apply sublist_nil_l].
  by apply bind_sublist.
Qed.

(** The flattening of a tag with children is its span of the store. *)
Lemma flatten_span h r c cs :
  wf h -> spanned h -> childrenOf (Handler.store h) r = Some (c :: cs) ->
  exists m, r + m <= length (Handler.store h)
    /\ forall bound, length (Handler.store h) <= bound ->
         flatten bound (Handler.store h) r = seq r m.
Proof.
  intros Hwf Hsp Hc. pose proof (field_lt _ _ _ _ Hc) as Hr.
  destruct (decide (r ∈ Handler.ancestry h)) as [Hin|Hout].
  - exists (length (Handler.store h) - r). split; [lia|].
    intros bound Hb. apply (wf_flat h Hwf r Hin). lia.
  - destruct (field tail (Handler.store h) r) as [d|] eqn:Ht.
    + destruct (tail_span h r d Hwf Hsp Ht) as ([Hrd Hd] & _).
      destruct (wf_tail_some h Hwf r d Ht) as (Hright & _).
      exists (S d - r). split; [lia|]. intros bound Hb.
      apply (sp_closed h Hsp r d Hout Hright). lia.
    + destruct (wf_tail_none h Hwf r Hout Ht) as [E|E]; rewrite E in Hc; done.
Qed.

(** X10. On a tag without children [posterity] throws, reading the
    [children] of the child it takes from the empty array, where
    [descendants] ends without a yield; with [last = 0] neither begins. *)
Theorem posterity_throws_on_childless_tag (store : Store)
    (options : Traversal.Options) (this : ref) :
  childrenOf store this = Some [] ->
  Traversal.last options ≠ Some 0 ->
  Traversal.posterity store options this = ([], Traversal.Threw)
  /\ Traversal.descendants store options this = ([], Traversal.Returned).
Proof.
  intros Hc Hlast. pose proof (field_lt _ _ _ _ Hc) as Hlt.
  unfold Traversal.posterity, Traversal.descendants.
  rewrite bool_decide_false by done.
  destruct (length store) as [|size] eqn:E; [lia|].
  cbn [Traversal.posterityLoop Traversal.descendantsLoop Traversal.sweep].
  rewrite Hc. cbn [mbind option_bind Traversal.inspect lookup list_lookup].
  split; [done|]. by destruct size.
Qed.

Lemma posterity_throws_on_childless_tag_witness :
  Traversal.posterity [newTag None [] DOCUMENT] Traversal.defaults 0
  = ([], Traversal.Threw)
  /\ Traversal.descendants [newTag None [] DOCUMENT] Traversal.defaults 0
     = ([], Traversal.Returned).
Proof.
  apply posterity_throws_on_childless_tag; [reflexivity|discriminate].
Defined.

(** The two traversals over the whole depth, by the nodes they inspect. *)
Lemma whole_depth calls h options this c cs :
  Handler.run calls Handler.reset = Some h ->
  Traversal.skip options = 0 -> Traversal.last options = None ->
  childrenOf (Handler.store h) this = Some (c :: cs) ->
  exists inspected breadth,
    Traversal.posterity (Handler.store h) options this
    = (List.filter (kept (Handler.store h) options) inspected, Traversal.Returned)
    /\ Traversal.descendants (Handler.store h) options this
       = (List.filter (kept (Handler.store h) options) breadth, Traversal.Returned)
    /\ inspected ≡ₚ breadth
    /\ inspected `sublist_of`
       drop 1 (flatten (length (Handler.store h)) (Handler.store h) this)
    /\ NoDup inspected
    /\ inspected = mbind (walk (Handler.store h) options (S (length (Handler.store h))))
                         (c :: cs).
Proof.
  intros Hrun Hskip Hlast Hc.
  destruct (run_invariants calls h Hrun) as (Hwf & _ & Hsp).
  set (store := Handler.store h) in *. set (size := length store).
  assert (forall r branch, childrenOf store r = Some branch ->
            Forall (fun c => r < c < length store) branch) as Hchildren.
  { intros r branch Hb. by apply (wf_children h Hwf r branch). }
  destruct (flatten_span h this c cs Hwf Hsp Hc) as (m & Hm & Hflat).
  fold store in Hm, Hflat. fold size in Hm, Hflat.
  assert (todo store options (S size) [(this, 0)]
          = mbind (walk store options (S size)) (c :: cs)) as Htodo.
  { rewrite todo_cons. cbn [fst snd]. rewrite Hc. cbn [default from_option id].
    by rewrite drop_0, app_nil_r. }
  assert (todo store options (S size) [(this, 0)]
            `sublist_of` drop 1 (flatten size store this)) as Hsub.
  { rewrite Htodo, (Hflat size), <- (Hflat (S (S size))) by lia.
    cbn [flatten drop]. rewrite Hc. cbn [default from_option id].
    apply bind_sublist. intros x. apply walk_sublist. }
  assert (length (todo store options (S size) [(this, 0)]) <= size) as Hlen.
  { apply sublist_length in Hsub. rewrite Hflat, length_drop, length_seq in Hsub by lia.
    lia. }
  exists (todo store options (S size) [(this, 0)]), (levels store options (S size) [this]).
  split; [|split; [|split; [|split; [|split]]]].
  - unfold Traversal.posterity. rewrite Hlast, bool_decide_false by done.
    apply (posterityLoop_todo store options Hchildren Hskip Hlast (S size)); try done.
    + unfold size. lia.
    + constructor; [|done]. exists (c :: cs). simpl. split; [done|lia].
  - unfold Traversal.descendants. rewrite Hlast, bool_decide_false by done.
    apply (descendantsLoop_levels store options Hchildren Hskip Hlast); [|done].
    constructor; [|done]. split; [by eexists|]. unfold size. lia.
  - etrans; [|symmetry; apply (levels_walk store options Hchildren (S size))].
    + rewrite Htodo. cbn [mbind list_bind]. rewrite Hc. cbn [default from_option id].
      by rewrite app_nil_r.
    + unfold size. lia.
    + constructor; [|done]. split; [by eexists|]. unfold size. lia.
  - exact Hsub.
  - apply (sublist_NoDup _ (drop 1 (flatten size store this))); [|exact Hsub].
    rewrite Hflat by lia. destruct m; [constructor|]. cbn [seq drop]. apply NoDup_seq.
  - exact Htodo.
Qed.

(** X11. Over the whole depth ([skip = 0], [last = Infinity]) and for
    both values of [inclusive] and of [leaf], the two traversals of a
    tag with children end, and yield the same nodes, each once:
    [posterity] in the order of the depth-first flattening, of which
    its yields are a part, [descendants] in another order. *)
Theorem traversals_agree_over_whole_depth (calls : list HandlerCall.t)
    (h : Handler.t) (options : Traversal.Options) (this c : ref) (cs : list ref) :
  Handler.run calls Handler.reset = Some h ->
  Traversal.skip options = 0 -> Traversal.last options = None ->
  childrenOf (Handler.store h) this = Some (c :: cs) ->
  exists depthFirst breadthFirst,
    Traversal.posterity (Handler.store h) options this
    = (depthFirst, Traversal.Returned)
    /\ Traversal.descendants (Handler.store h) options this
       = (breadthFirst, Traversal.Returned)
    /\ depthFirst ≡ₚ breadthFirst
    /\ depthFirst `sublist_of`
       drop 1 (flatten (length (Handler.store h)) (Handler.store h) this)
    /\ NoDup depthFirst.
Proof.
  intros Hrun Hskip Hlast Hc.
  destruct (whole_depth calls h options this c cs Hrun Hskip Hlast Hc)
    as (inspected & breadth & Hd & Hb & Hperm & Hsub & Hnd & _).
  eexists _, _. split; [exact Hd|]. split; [exact Hb|].
  split; [by apply filter_permutation|].
  split; [etrans; [apply filter_sublist|exact Hsub]|].
  eapply sublist_NoDup; [exact Hnd|apply filter_sublist].
Qed.

Lemma traversals_agree_over_whole_depth_witness :
  exists h,
    Handler.run [HandlerCall.onStartTag (Some "div"%string) [] false;
                 HandlerCall.onStartTag (Some "b"%string) [] false;
                 HandlerCall.onEndTag true;
                 HandlerCall.onStartTag (Some "i"%string) [] false;
                 HandlerCall.onText "x";
                 HandlerCall.onEndTag true; HandlerCall.onEndTag true]
                Handler.reset = Some h
    /\ exists breadthFirst,
         Traversal.posterity (Handler.store h) (Traversal.mkOptions 0 None true false) 1
         = ([2; 3; 4], Traversal.Returned)
         /\ Traversal.descendants (Handler.store h)
              (Traversal.mkOptions 0 None true false) 1
            = (breadthFirst, Traversal.Returned)
         /\ [2; 3; 4] ≡ₚ breadthFirst.
Proof.
  destruct (Handler.run
              [HandlerCall.onStartTag (Some "div"%string) [] false;
               HandlerCall.onStartTag (Some "b"%string) [] false;
               HandlerCall.onEndTag true;
               HandlerCall.onStartTag (Some "i"%string) [] false;
               HandlerCall.onText "x";
               HandlerCall.onEndTag true; HandlerCall.onEndTag true]
              Handler.reset) as [h|] eqn:E; [|by vm_compute in E].
  exists h. split; [reflexivity|].
  pose proof (traversals_agree_over_whole_depth _ _
                (Traversal.mkOptions 0 None true false) 1 2 [3] E eq_refl eq_refl) as Ht.
  vm_compute in E. injection E as <-.
  destruct (Ht eq_refl) as (dfs & bfs & Hd & Hb & Hperm & _).
  exists bfs. split; [reflexivity|]. split; [exact Hb|].
  assert (dfs = [2; 3; 4]) as <-; [|exact Hperm].
  vm_compute in Hd. by injection Hd as <-.
Defined.

Lemma walk_reach store options bound node x :
  x ∈ walk store options bound node ->
  x = node
  \/ exists q branch,
       Traversal.internal store options q = true
       /\ childrenOf store q = Some branch /\ x ∈ branch.
Proof.
  revert node. induction bound as [|bound IH]; intros node; cbn [walk].
  - by intros ?%elem_of_nil.
  - intros [->|Hin]%elem_of_cons; [by left|]. right.
    destruct (Traversal.internal store options node) eqn:Hint;
      [|by apply elem_of_nil in Hin].
    apply list_elem_of_bind in Hin as (child & Hx & Hchild).
    destruct (IH child Hx) as [->|?]; [|done].
    destruct (childrenOf store node) as [branch|] eqn:Hb; [|by apply elem_of_nil in Hchild].
    by exists node, branch.
Qed.

(** X12. Outside the inclusive mode a tag whose only child is a text is
    a leaf to both traversals: over the whole depth they yield the tag
    and never its text, unless they begin at the tag itself. *)
Theorem lone_text_is_not_yielded (calls : list HandlerCall.t) (h : Handler.t)
    (options : Traversal.Options) (this c : ref) (cs : list ref) (tag text : ref) :
  Handler.run calls Handler.reset = Some h ->
  Traversal.skip options = 0 -> Traversal.last options = None ->
  Traversal.inclusive options = false ->
  childrenOf (Handler.store h) this = Some (c :: cs) ->
  childrenOf (Handler.store h) tag = Some [text] ->
  Traversal.isText (Handler.store h) text = true ->
  tag ≠ this ->
  (text ∉ (Traversal.posterity (Handler.store h) options this).1)
  /\ (text ∉ (Traversal.descendants (Handler.store h) options this).1).
Proof.
  intros Hrun Hskip Hlast Hincl Hc Htag Htext Hne.
  destruct (whole_depth calls h options this c cs Hrun Hskip Hlast Hc)
    as (inspected & breadth & -> & -> & Hperm & _ & _ & Hwalk).
  destruct (run_invariants calls h Hrun) as (Hwf & Hln & _).
  assert (text ∉ inspected) as Hout.
  { rewrite Hwalk. intros Hin.
    apply list_elem_of_bind in Hin as (child & Hx & Hchild).
    assert (exists q branch, childrenOf (Handler.store h) q = Some branch /\ text ∈ branch
              /\ (q = this \/ Traversal.internal (Handler.store h) options q = true))
      as (q & branch & Hq & Hin & Hcase).
    { destruct (walk_reach _ _ _ _ _ Hx) as [->|(q & branch & Hint & Hq & Hin)].
      - exists this, (c :: cs). auto.
      - exists q, branch. auto. }
    assert (q = tag) as ->.
    { assert (field parent (Handler.store h) text = Some q) as H1
        by (apply (ln_parent h Hln); eauto).
      assert (field parent (Handler.store h) text = Some tag) as H2.
      { apply (ln_parent h Hln). exists [text]. split; [done|]. by left. }
      congruence. }
    destruct Hcase as [?|Hint]; [done|].
    unfold Traversal.internal in Hint. rewrite Htag, Hincl, Htext in Hint. done. }
  cbn [fst]. split.
  - intros Hin. apply Hout. apply list_elem_of_In in Hin.
    apply List.filter_In in Hin as [Hin _]. by apply list_elem_of_In.
  - intros Hin. apply Hout. rewrite Hperm. apply list_elem_of_In in Hin.
    apply List.filter_In in Hin as [Hin _]. by apply list_elem_of_In.
Qed.

Lemma lone_text_is_not_yielded_witness :
  exists h,
    Handler.run [HandlerCall.onStartTag (Some "div"%string) [] false;
                 HandlerCall.onStartTag (Some "b"%string) [] false;
                 HandlerCall.onText "x";
                 HandlerCall.onEndTag true; HandlerCall.onEndTag true]
                Handler.reset = Some h
    /\ (Traversal.posterity (Handler.store h) Traversal.defaults 1).1 = [2]
    /\ (3 ∉ (Traversal.posterity (Handler.store h) Traversal.defaults 1).1).
Proof.
  destruct (Handler.run
              [HandlerCall.onStartTag (Some "div"%string) [] false;
               HandlerCall.onStartTag (Some "b"%string) [] false;
               HandlerCall.onText "x";
               HandlerCall.onEndTag true; HandlerCall.onEndTag true]
              Handler.reset) as [h|] eqn:E; [|by vm_compute in E].
  exists h. split; [reflexivity|].
  pose proof (lone_text_is_not_yielded _ _ Traversal.defaults 1 2 [] 2 3 E
                eq_refl eq_refl eq_refl) as Ht.
  vm_compute in E. injection E as <-.
  split; [reflexivity|].
  apply Ht; [reflexivity|reflexivity|reflexivity|discriminate].
Defined.

Local Open Scope Z_scope.

(** * Text after the last markup *)

Lemma length_append (a b : string) :
  String.length (a +:+ b) = (String.length a + String.length b)%nat.
Proof. induction a as [|c a IH]; simpl; [done|]. by rewrite IH. Qed.

Lemma get_append_l (a b : string) n :
  (n < String.length a)%nat -> String.get n (a +:+ b) = String.get n a.
Proof.
  revert n. induction a as [|c a IH]; intros n Hn; simpl in *; [lia|].
  destruct n as [|n]; [done|]. apply IH. lia.
Qed.

Lemma get_append_r (a b : string) n :
  (String.length a <= n)%nat ->
  String.get n (a +:+ b) = String.get (n - String.length a) b.
Proof.
  revert n. induction a as [|c a IH]; intros n Hn; simpl in *.
  - by rewrite Nat.sub_0_r.
  - destruct n as [|n]; [lia|]. apply IH. lia.
Qed.

Lemma charCodeAt_append_l (a b : string) i :
  0 <= i < JS.len a -> JS.charCodeAt (a +:+ b) i = JS.charCodeAt a i.
Proof.
  unfold JS.charCodeAt, JS.len. intros Hi. destruct (i <? 0); [done|].
  by rewrite get_append_l by lia.
Qed.

Lemma charCodeAt_append_r (a b : string) i :
  JS.len a <= i -> JS.charCodeAt (a +:+ b) i = JS.charCodeAt b (i - JS.len a).
Proof.
  unfold JS.charCodeAt, JS.len. intros Hi.
  case Z.ltb_spec; [lia|]. case Z.ltb_spec; [lia|]. intros _ _.
  rewrite get_append_r by lia. do 2 f_equal. lia.
Qed.

Lemma substring_append_l (a b : string) n m :
  (n + m <= String.length a)%nat ->
  String.substring n m (a +:+ b) = String.substring n m a.
Proof.
  revert n m. induction a as [|c a IH]; intros n m Hnm; simpl in *.
  - assert (n = 0%nat) as -> by lia. assert (m = 0%nat) as -> by lia.
    by destruct b.
  - destruct n as [|n].
    + destruct m as [|m]; [done|]. f_equal. apply (IH 0%nat). lia.
    + apply IH. lia.
Qed.

(** A span within a chunk reads the same characters after text is
    appended to the chunk. *)
Lemma slice_append_l (a b : string) start end_ :
  0 <= start <= JS.len a -> 0 <= end_ <= JS.len a ->
  JS.slice (a +:+ b) start end_ = JS.slice a start end_.
Proof.
  intros Hs He. unfold JS.slice, JS.relative, JS.len in *.
  rewrite length_append.
  repeat case Z.ltb_spec; try lia. intros _ _.
  rewrite !Z.min_l by lia. apply substring_append_l. lia.
Qed.

(** In a text state a character other than [<] keeps the Lexer in a text
    state, and the Lexer reports at most text spans and references. *)
Lemma invoke_textual this char :
  textual (Lexer.state this) = true -> char ≠ Character.LESS_THAN ->
  exists this' new,
    Lexer.invoke Lexer.depth this char = Some this'
    /\ textual (Lexer.state this') = true
    /\ Lexer.index this' = Lexer.index this
    /\ Lexer.parser this' = Lexer.parser this ++ new
    /\ Forall (fun c => gathers c = true) new.
Proof.
  destruct this as [log prev nxt st idx ss sq k]. intros Hs Hc.
  apply Z.eqb_neq in Hc. unfold Lexer.depth.
  cbn [Lexer.invoke Lexer.state Lexer.index Lexer.parser] in *.
  destruct st; try discriminate Hs; cbn [Lexer.method];
    repeat unfold_states; rewrite ?Hc;
    repeat (split_if; cbn [Lexer.state Lexer.previous Lexer.next Lexer.sequence
                           Lexer.sequenceIndex Lexer.index Lexer.sectionStart
                           Lexer.parser negb mbind option_bind]);
    eexists _, _; (split; [reflexivity|]); (split; [reflexivity|]);
    (split; [reflexivity|]); (split; [extend_log|]); by repeat constructor.
Qed.

Lemma loop_textual n text this :
  textual (Lexer.state this) = true -> 0 <= Lexer.index this < JS.len text ->
  (forall i, Lexer.index this <= i -> JS.charCodeAt text i ≠ Some Character.LESS_THAN) ->
  exists this' new,
    Lexer.loop n text this = Some this'
    /\ Lexer.parser this' = Lexer.parser this ++ new
    /\ Forall (fun c => gathers c = true) new.
Proof.
  revert this. induction n as [|n IH]; intros this Hs Hidx Hno.
  - exists this, []. simpl. by rewrite app_nil_r.
  - cbn [Lexer.loop].
    destruct (charCodeAt_some text (Lexer.index this)) as [c Hc]; [lia|].
    rewrite Hc. cbn [mbind option_bind].
    destruct (invoke_textual this c Hs) as (this1 & new1 & -> & Hs1 & Hidx1 & Hlog1 & Hall1).
    { intros ->. by apply (Hno (Lexer.index this)). }
    cbn [mbind option_bind].
    set (this2 := Lexer.set_index (Lexer.index this1 + 1) this1).
    destruct (Lexer.index this2 <? JS.len text) eqn:E.
    + apply Z.ltb_lt in E.
      destruct (IH this2) as (this' & new2 & Hloop & Hlog2 & Hall2); [done|simpl in *; lia| |].
      { intros i Hi. apply Hno. simpl in Hi. lia. }
      exists this', (new1 ++ new2). split; [done|]. split; [|by apply Forall_app].
      rewrite Hlog2. simpl. rewrite Hlog1. by rewrite app_assoc.
    + exists this2, new1. split; [done|]. split; [by simpl|done].
Qed.

(** Over the characters of a chunk the Lexer does not see what follows
    the chunk. *)
Lemma loop_append_l k chunk rest this :
  sane this -> Lexer.index this + Z.of_nat k <= JS.len chunk ->
  Lexer.loop k (chunk +:+ rest) this = Lexer.loop k chunk this.
Proof.
  revert this. induction k as [|k IH]; intros this Hsane Hk; [done|].
  cbn [Lexer.loop].
  assert (0 <= Lexer.index this) as Hpos by (destruct Hsane as (_ & ? & _); lia).
  rewrite charCodeAt_append_l by lia.
  destruct (JS.charCodeAt chunk (Lexer.index this)) as [c|]; [|done].
  cbn [mbind option_bind].
  pose proof (invoke_stepped this c Hsane) as Hstep.
  destruct (Lexer.invoke Lexer.depth this c) as [this1|]; [|done].
  cbn [mbind option_bind].
  destruct Hstep as (Hsane1 & Hidx & _). rewrite <- Hidx in Hsane1.
  set (this2 := Lexer.set_index (Lexer.index this1 + 1) this1) in *.
  assert (Lexer.index this2 = Lexer.index this + 1) as Hidx2 by (simpl; lia).
  destruct k as [|k].
  - simpl. by destruct (_ <? _), (_ <? _).
  - unfold JS.len in *. rewrite length_append.
    rewrite (proj2 (Z.ltb_lt _ _)) by lia. rewrite (proj2 (Z.ltb_lt _ _)) by lia.
    apply IH; [done|lia].
Qed.

Section Buffers.
Variable decode : string -> option string.

Lemma closeImplicit_rebuffer buffer close stack p :
  Parser.closeImplicit close stack (rebuffer buffer p)
  = rebuffer buffer (Parser.closeImplicit close stack p).
Proof.
  revert p. induction stack as [|top stack IH]; intros p; [done|].
  cbn [Parser.closeImplicit]. destruct (Parser.closes close (top :: stack)); [|done].
  apply (IH (Parser.pop (Parser.call (HandlerCall.onEndTag false) p))).
Qed.

Lemma onStartTagClose_rebuffer buffer p :
  Parser.onStartTagClose (rebuffer buffer p)
  = rebuffer buffer (Parser.onStartTagClose p).
Proof.
  unfold Parser.onStartTagClose.
  change (Parser.tagName (rebuffer buffer p)) with (Parser.tagName p).
  change (Parser.stack (rebuffer buffer p)) with (Parser.stack p).
  set (close := Parser.tagName p ≫= get implicitClose).
  assert (match close with
          | Some close => Parser.closeImplicit close (Parser.stack p) (rebuffer buffer p)
          | None => rebuffer buffer p
          end
          = rebuffer buffer
              match close with
              | Some close => Parser.closeImplicit close (Parser.stack p) p
              | None => p
              end) as ->.
  { destruct close; [apply closeImplicit_rebuffer|done]. }
  destruct (match close with
            | Some close => Parser.closeImplicit close (Parser.stack p) p
            | None => p
            end) as [h b st tx tn an av at_].
  unfold rebuffer.
  cbn [Parser.buffer Parser.handler Parser.stack Parser.text Parser.tagName
       Parser.attributeName Parser.attributeValue Parser.attributes].
  by destruct (match tn with Some name => has emptyElements name | None => false end).
Qed.

(** A call whose span lies within the chunk does the same to the Parser
    whatever follows the chunk in its buffer. *)
Lemma receive_rebuffer chunk rest p c :
  Parser.buffer p = chunk -> inside (JS.len chunk) c ->
  Parser.receive decode (rebuffer (chunk +:+ rest) p) c
  = rebuffer (chunk +:+ rest) (Parser.receive decode p c)
  /\ Parser.buffer (Parser.receive decode p c) = chunk.
Proof.
  intros Hbuf Hin.
  assert (Parser.buffer (Parser.onStartTagClose p) = Parser.buffer p) as Hclose.
  { unfold Parser.onStartTagClose.
    set (close := Parser.tagName p ≫= get implicitClose).
    assert (Parser.buffer
              match close with
              | Some close => Parser.closeImplicit close (Parser.stack p) p
              | None => p
              end = Parser.buffer p) as Hb.
    { destruct close as [close|]; [|done].
      by destruct (closeImplicit_pops close p) as (k & _ & _ & _ & ->). }
    destruct (match close with
              | Some close => Parser.closeImplicit close (Parser.stack p) p
              | None => p
              end) as [h b st tx tn an av at_].
    cbn [Parser.buffer Parser.tagName] in *.
    by destruct (match tn with Some name => has emptyElements name | None => false end). }
  destruct c; cbn [inside] in Hin; cbn [Parser.receive].
  10: { rewrite onStartTagClose_rebuffer, Hclose. done. }
  all: destruct p as [h b st tx tn an av at_]; simpl in Hbuf; subst b; unfold rebuffer;
    try match type of Hin with _ /\ _ => destruct Hin as [Hs He] end;
    unfold Parser.onText, Parser.onTextEntity, Parser.onTextEnd, Parser.onStartTagName,
      Parser.onAttributeName, Parser.onAttributeValue, Parser.onAttributeEntity,
      Parser.onAttributeEnd, Parser.onComment, Parser.onCDATA, Parser.onDeclaration;
    cbn [Parser.buffer Parser.handler Parser.stack Parser.text Parser.tagName
         Parser.attributeName Parser.attributeValue Parser.attributes
         Parser.set_text Parser.set_tagName Parser.set_attributeName
         Parser.set_attributeValue Parser.set_attributes Parser.call];
    rewrite ?slice_append_l by done; try done.
  unfold Parser.onEndTagName.
  cbn [Parser.buffer Parser.stack]. rewrite slice_append_l by done.
  destruct (has emptyElements _); [done|].
  destruct (_ =? _); [done|]. by rewrite !closeDistance_spec.
Qed.

Lemma run_rebuffer chunk rest calls p :
  Parser.buffer p = chunk -> Forall (inside (JS.len chunk)) calls ->
  foldl (Parser.receive decode) (rebuffer (chunk +:+ rest) p) calls
  = rebuffer (chunk +:+ rest) (foldl (Parser.receive decode) p calls).
Proof.
  revert p. induction calls as [|c calls IH]; intros p Hbuf Hall; [done|].
  apply Forall_cons in Hall as [Hc Hall]. cbn [foldl].
  destruct (receive_rebuffer chunk rest p c Hbuf Hc) as [-> Hbuf'].
  by apply IH.
Qed.

(** Text spans and references only add to the pending text. *)
Lemma run_gathers calls p :
  Forall (fun c => gathers c = true) calls ->
  Parser.handler (foldl (Parser.receive decode) p calls) = Parser.handler p
  /\ Parser.stack (foldl (Parser.receive decode) p calls) = Parser.stack p.
Proof.
  revert p. induction calls as [|c calls IH]; intros p Hall; [done|].
  apply Forall_cons in Hall as [Hc Hall]. cbn [foldl].
  destruct (IH (Parser.receive decode p c) Hall) as [-> ->].
  by destruct c.
Qed.
End Buffers.

Lemma append_empty_r (a : string) : a +:+ EmptyString = a.
Proof.
  induction a as [|c a IH]; [done|].
  change (String c (a +:+ EmptyString) = String c a). by rewrite IH.
Qed.

Lemma end_write chunk :
  chunk ≠ EmptyString ->
  Lexer.end_ chunk = Lexer.parser <$> Lexer.write chunk Lexer.reset.
Proof. by destruct chunk. Qed.

(** X13. Text after the last markup never reaches the tree: when the
    Lexer ends a chunk in one of its text states, appending characters
    other than [<] to the chunk leaves the tree as it is; the Lexer
    reports the end of a text only when it meets the start of a tag, and
    nothing flushes the pending text at the end of the input.  So a
    chunk without any [<] gives the empty document. *)
Theorem text_after_last_markup_is_dropped (decode : string -> option string)
    (chunk rest : string) (this : Lexer.t) :
  Lexer.write chunk Lexer.reset = Some this ->
  textual (Lexer.state this) = true ->
  (forall i, JS.charCodeAt rest i ≠ Some Character.LESS_THAN) ->
  parse decode (chunk +:+ rest) = parse decode chunk.
Proof.
  intros Hwrite Htext Hrest.
  destruct rest as [|r rest]; [by rewrite append_empty_r|].
  set (tail := String r rest) in *. set (text := chunk +:+ tail).
  assert (0 < JS.len tail) as Htail by (unfold JS.len; simpl; lia).
  assert (JS.len text = JS.len chunk + JS.len tail) as Hlen.
  { unfold JS.len, text. rewrite length_append. lia. }
  assert (Lexer.loop (String.length chunk) text Lexer.reset = Some this
          /\ sane this /\ Lexer.index this = JS.len chunk
          /\ Forall (inside (JS.len chunk)) (Lexer.parser this)
          /\ Lexer.end_ chunk = Some (Lexer.parser this)) as (Hloop & Hsane & Hidx & Hin & Hend).
  { destruct chunk as [|a chunk].
    - injection Hwrite as <-. split; [done|]. split; [apply sane_reset|]. done.
    - set (body := String a chunk) in *.
      unfold text. rewrite loop_append_l by (apply sane_reset || (unfold JS.len; simpl; lia)).
      unfold Lexer.write in Hwrite.
      pose proof (loop_stepped (String.length body) body Lexer.reset sane_reset
                    (len_pos body ltac:(done))) as Hstep.
      rewrite Hwrite in Hstep.
      destruct Hstep as ((new & Hlog & Hall & _) & Hsane & Hidx).
      simpl in Hlog. subst new.
      split; [done|]. split; [done|]. split; [|split].
      + rewrite Hidx by (right; unfold JS.len; simpl; lia). by unfold JS.len.
      + eapply Forall_impl; [exact Hall|]. by intros c [_ ?].
      + unfold Lexer.end_, Lexer.write. fold body. by rewrite Hwrite. }
  assert (0 <= JS.len chunk) as Hpos by (unfold JS.len; lia).
  destruct (loop_textual (String.length tail) text this Htext) as (this' & new & Hloop' & Hlog & Hnew).
  { lia. }
  { intros i Hi. unfold text. rewrite charCodeAt_append_r by lia. apply Hrest. }
  assert (Lexer.end_ text = Some (Lexer.parser this ++ new)) as Hend'.
  { rewrite end_write.
    2:{ intros E. apply (f_equal String.length) in E. unfold text in E.
        rewrite length_append in E. simpl in E. lia. }
    unfold Lexer.write.
    replace (String.length text) with (String.length chunk + String.length tail)%nat
      by (unfold text; by rewrite length_append).
    rewrite (loop_add _ _ _ _ _ Hloop) by lia.
    by rewrite Hloop', <- Hlog. }
  unfold parse. rewrite Hend, Hend'. cbn [mbind option_bind].
  unfold build. f_equal. unfold Parser.onEnd. rewrite !closeAll_spec.
  cbn [Parser.handler]. unfold Parser.run. rewrite foldl_app.
  change (Parser.reset text) with (rebuffer text (Parser.reset chunk)).
  unfold text.
  rewrite (run_rebuffer decode chunk tail _ (Parser.reset chunk) eq_refl Hin). fold text.
  destruct (run_gathers decode new
              (rebuffer text (foldl (Parser.receive decode) (Parser.reset chunk)
                                (Lexer.parser this))) Hnew) as [-> ->].
  done.
Qed.

Lemma text_after_last_markup_is_dropped_witness :
  parse unresolved "<p>a</p> tail" = parse unresolved "<p>a</p>".
Proof.
  eapply (text_after_last_markup_is_dropped unresolved "<p>a</p>" " tail").
  - vm_compute. reflexivity.
  - reflexivity.
  - intros i. unfold JS.charCodeAt. destruct (i <? 0); [done|].
    by destruct (Z.to_nat i) as [|[|[|[|[|[|]]]]]].
Defined.

Local Open Scope nat_scope.

(** ** The Parser's stack and the Handler's ancestry *)

Section Proceeds.
Variable decode : string -> option string.

Lemma proceeds_refl p p' :
  Parser.handler p' = Parser.handler p -> Parser.stack p' = Parser.stack p ->
  proceeds p p'.
Proof.
  intros Hh Hs. exists [], []. simpl. rewrite app_nil_r. split; [done|].
  split; [lia|]. left. by rewrite drop_0.
Qed.

Lemma proceeds_data p c : isData c -> proceeds p (Parser.call c p).
Proof.
  intros Hc. exists [], [c]. simpl. split; [done|]. split; [lia|].
  right. right. exists c. by rewrite drop_0.
Qed.

Lemma receive_proceeds p c : proceeds p (Parser.receive decode p c).
Proof.
  destruct c; cbn [Parser.receive].
  1-2, 4-9, 15: by apply proceeds_refl.
  4-6: by apply proceeds_data.
  - exists [], [HandlerCall.onText (JS.trim (JS.join (Parser.text p)))].
    unfold Parser.onTextEnd. simpl. split; [done|]. split; [lia|]. right. right.
    eexists. split; [done|]. split; [done|]. by rewrite drop_0.
  - unfold Parser.onStartTagClose.
    set (close := Parser.tagName p ≫= _).
    assert (exists k, k <= length (Parser.stack p)
              /\ permitted (Parser.tagName p) (drop k (Parser.stack p))
              /\ match close with
                 | Some close => Parser.closeImplicit close (Parser.stack p) p
                 | None => p
                 end =
                 Parser.mk (Parser.handler p ++ replicate k (onEndTag false))
                   (Parser.buffer p) (drop k (Parser.stack p)) (Parser.text p)
                   (Parser.tagName p) (Parser.attributeName p)
                   (Parser.attributeValue p) (Parser.attributes p))
      as (k & Hk & Hper & ->).
    { destruct close as [set|] eqn:Hclose.
      - destruct (closeImplicit_pops set p) as (k & ? & _ & Hstop & ?).
        exists k. split; [done|]. split; [|done].
        intros text set' Htext Hset. unfold close in Hclose.
        rewrite Htext in Hclose. cbn [mbind option_bind] in Hclose. congruence.
      - exists 0. split; [lia|]. split.
        + intros text set' Htext Hset. unfold close in Hclose.
          rewrite Htext in Hclose. cbn [mbind option_bind] in Hclose. congruence.
        + destruct p. simpl. by rewrite app_nil_r. }
    cbn [Parser.tagName Parser.attributes].
    exists (replicate k false),
      [onStartTag (Parser.tagName p) (Parser.attributes p) (void (Parser.tagName p))].
    rewrite length_replicate, <- fmap_replicate_flag.
    assert (match Parser.tagName p with
            | Some name => has emptyElements name
            | None => false
            end = void (Parser.tagName p)) as -> by done.
    split; [|split; [done|]].
    + destruct (void (Parser.tagName p)); simpl; by rewrite <- app_assoc.
    + right. left. eexists _, _. split; [done|]. split; [|done].
      by destruct (void (Parser.tagName p)).
  - unfold Parser.onEndTagName.
    destruct (has emptyElements _); [by apply proceeds_refl|].
    unfold Parser.lastIndexOf.
    destruct (Parser.nearest _ _) as [d|] eqn:Hd.
    + apply nearest_bound in Hd.
      case Z.eqb_spec; [lia|intros _].
      replace (Z.to_nat _) with d by lia.
      rewrite closeDistance_spec.
      exists (replicate d false ++ [true]), []. simpl.
      rewrite length_app, length_replicate. simpl.
      split; [|split; [lia|]].
      * by rewrite fmap_app, <- fmap_replicate_flag, app_nil_r.
      * left. split; [done|]. f_equal. lia.
    + case Z.eqb_spec; [intros _|lia]. by apply proceeds_refl.
Qed.
End Proceeds.

(** Closing tags changes no field but [tail]. *)
Lemma run_pops_frame {A} (proj : Node -> option A) (flags : list bool) h h' :
  (forall v x, proj (set_tail v x) = proj x) ->
  wf h -> Handler.run (onEndTag <$> flags) h = Some h' ->
  forall r, field proj (Handler.store h') r = field proj (Handler.store h) r.
Proof.
  intros Hproj. revert h. induction flags as [|b flags IH]; intros h Hwf; simpl.
  - by intros [= <-].
  - destruct (Handler.onEndTag h) as [h1|] eqn:Hr; [|done]. simpl. intros Hrun r.
    rewrite (IH h1); [|by apply (receive_wf h (onEndTag b))|done].
    destruct (receive_closed h (onEndTag b) h1 Hwf Hr eq_refl) as (t & ->).
    by apply field_alter_frame.
Qed.

Lemma tied_reset chunk : tied (Parser.reset chunk) Handler.reset.
Proof.
  split; [apply sound_reset|]. split; [apply linked_reset|]. split; [done|].
  intros [|[|r]] p text close above; done.
Qed.

Lemma proceeds_tied p p' h :
  proceeds p p' -> tied p h ->
  Handler.run (Parser.handler p) Handler.reset = Some h ->
  exists h', Handler.run (Parser.handler p') Handler.reset = Some h' /\ tied p' h'.
Proof.
  intros (flags & calls & Hh & Hk & Hcases) (Hs & Hln & Hmir & Hnest) Hrun.
  rewrite Hh, run_app, Hrun. simpl. rewrite run_app.
  assert (length (Handler.ancestry h) = S (length (Parser.stack p))) as Hlen.
  { apply (f_equal length) in Hmir. unfold openNames in Hmir.
    rewrite length_fmap, length_app, length_fmap in Hmir. simpl in Hmir. lia. }
  destruct (run_pops flags h Hs) as (h1 & Hpops & Hs1 & Hanc1); [lia|].
  rewrite Hpops. simpl.
  pose proof Hs as [Hwf _]. pose proof Hs1 as [Hwf1 _].
  pose proof (run_linked _ _ _ Hwf Hln Hpops) as Hln1.
  pose proof (fun A (proj : Node -> option A) H =>
                run_pops_frame proj flags h h1 H Hwf Hpops) as Hframe.
  set (rest := drop (length flags) (Parser.stack p)) in *.
  assert (mirrored rest h1) as Hmir1.
  { unfold mirrored, openNames in *. rewrite Hanc1, fmap_drop.
    rewrite (list_fmap_ext _ (field (fun x => Some (name x)) (Handler.store h)))
      by (intros i r _; by apply Hframe).
    rewrite Hmir, drop_app_le by (rewrite length_fmap; lia).
    unfold rest. by rewrite fmap_drop. }
  assert (nested h1) as Hnest1.
  { intros r q text close above. rewrite !Hframe by done. apply Hnest. }
  clear Hrun Hpops Hframe.
  destruct Hcases as [[-> Hst]|Hcases].
  { exists h1. simpl. split; [done|]. unfold tied. rewrite Hst. done. }
  assert (exists c (open : bool) pushed node,
            calls = [c] /\ created c = Some node
            /\ Parser.stack p' = (if open then pushed :: rest else rest)
            /\ (open = true -> name node = pushed /\ children node = Some [])
            /\ (void (name node) = true -> open = false /\ children node = Some [])
            /\ consistent c
            /\ (forall e, c ≠ onEndTag e)
            /\ permitted (name node) rest)
    as (c & open & pushed & node & -> & Hcr & Hst & Hopen & Hvoid & Hcons & Hne & Hper).
  { destruct Hcases as [(nm & attrs & -> & Hst & Hper)|(c & -> & Hc & Hst)].
    - exists (onStartTag nm attrs (void nm)), (negb (void nm)), nm,
        (newTag nm (Handler.group attrs) TAG).
      split; [done|]. split; [done|]. simpl.
      split; [by destruct (void nm)|]. split; [done|].
      split; [intros ->; done|]. done.
    - exists c, false, None. destruct c; try done; eexists; (split; [done|]);
        (split; [reflexivity|]); (split; [done|]); (split; [done|]);
        (split; [done|]); (split; [done|]); (split; [done|]); by intros ? ? [=]. }
  assert (exists t ancestors, Handler.ancestry h1 = t :: ancestors) as (t & ancestors & Hanc).
  { destruct (Handler.ancestry h1) as [|t ancestors] eqn:E; [|eauto].
    apply (f_equal length) in Hanc1. rewrite length_drop in Hanc1. simpl in Hanc1. lia. }
  destruct (receive_sound h1 c t ancestors Hs1 Hcons Hanc) as (h' & Hr & Hs' & Hanc').
  exists h'. cbn [Handler.run]. rewrite Hr. simpl. split; [done|].
  destruct (receive_created h1 c h' node Hwf1 Hr Hcr) as (t' & rest' & branch & Hanc'' & Hb & Hl).
  rewrite Hanc in Hanc''. injection Hanc'' as <- <-.
  set (n := length (Handler.store h1)) in *.
  pose proof (fun A (proj : Node -> option A) r H1 H2 H3 H4 H5 H6 =>
                link_frame _ node t (Handler.previous h1) branch Hb proj _ r
                  H1 H2 H3 H4 H5 H6 Hl) as Hfr.
  fold n in Hfr.
  pose proof (link_parent _ node t (Handler.previous h1) branch Hb _ Hl) as Hpa.
  fold n in Hpa.
  assert (forall r, r ∈ Handler.ancestry h1 -> r < n) as Hanc_lt.
  { intros r Hr'. destruct (wf_ancestry h1 Hwf1 r Hr') as [x Hx]. by apply field_lt in Hx. }
  assert (Handler.ancestry h' = if open then n :: Handler.ancestry h1
                                else Handler.ancestry h1) as Hanc_new.
  { rewrite Hanc'. destruct c as [nm attrs sc| | | | | |]; simpl in Hcr; try done;
      injection Hcr as <-; simpl in Hopen, Hvoid, Hcons; subst.
    - destruct open.
      + destruct (void nm) eqn:E; [by destruct (Hvoid eq_refl)|done].
      + destruct (void nm) eqn:E; [done|].
        apply (f_equal length) in Hst. simpl in Hst.
        destruct Hcases as [(? & ? & [= <- <- _] & Hst' & _)|(? & [= <-] & [] & _)].
        rewrite E in Hst'. rewrite Hst' in Hst. simpl in Hst. lia.
    - destruct open; [by destruct (Hopen eq_refl)|done].
    - destruct open; [by destruct (Hopen eq_refl)|done].
    - destruct open; [by destruct (Hopen eq_refl)|done].
    - destruct open; [by destruct (Hopen eq_refl)|done].
    - destruct open; [by destruct (Hopen eq_refl)|done]. }
  split; [done|]. split; [by eapply receive_linked|]. split.
  - unfold mirrored, openNames in *. rewrite Hanc_new, Hst.
    assert (field (fun x => Some (name x)) (Handler.store h') <$> Handler.ancestry h1
            = (Some <$> rest) ++ [Some None]) as Hold.
    { rewrite <- Hmir1. apply list_fmap_ext. intros i r Hr'.
      rewrite Hfr by done. rewrite decide_False; [done|].
      apply list_elem_of_lookup_2, Hanc_lt in Hr'. lia. }
    destruct open; [|done]. cbn [fmap list_fmap app]. f_equal; [|exact Hold].
    rewrite Hfr, decide_True by done. f_equal. by apply Hopen.
  - pose proof (field_lt _ _ _ _ Hb) as Htn. fold n in Htn.
    intros r q text close above. rewrite Hpa, !Hfr by done.
    destruct (decide (r = n)) as [->|Hrn].
    + intros [= <-] Htext Hclose. rewrite decide_False by lia. intros Habove.
      specialize (Hper text close Htext Hclose).
      unfold mirrored, openNames in Hmir1. rewrite Hanc in Hmir1.
      cbn [fmap list_fmap] in Hmir1.
      assert (field (fun x => Some (name x)) (Handler.store h1) t = Some (Some above)) as Hn.
      { unfold field in *. destruct (Handler.store h1 !! t); simpl in *; [|done].
        by rewrite Habove. }
      rewrite Hn in Hmir1. destruct rest as [|top rest0]; simpl in Hmir1; [done|].
      injection Hmir1 as <- _. exact Hper.
    + intros Hq. assert (q ≠ n) as Hqn.
      { intros ->. apply (ln_parent h1 Hln1) in Hq as (b & Hb' & _).
        apply field_lt in Hb'. fold n in Hb'. lia. }
      rewrite decide_False by done. revert Hq. apply Hnest1.
Qed.

Section Tied.
Variable decode : string -> option string.

Lemma run_tied chunk calls :
  exists h,
    Handler.run (Parser.handler (Parser.run decode chunk calls)) Handler.reset = Some h
    /\ tied (Parser.run decode chunk calls) h.
Proof.
  unfold Parser.run. induction calls as [|c calls IH] using rev_ind.
  - exists Handler.reset. split; [done|apply tied_reset].
  - rewrite foldl_app. simpl. destruct IH as (h & Hrun & Ht).
    eapply proceeds_tied; eauto. apply receive_proceeds.
Qed.
End Tied.

(** X14. Whatever calls the Lexer makes, the Handler's ancestry mirrors
    the Parser's stack of open tags: it holds one tag for each entry of
    the stack, of the entry's name and in the same order, above the
    document. *)
Theorem ancestry_mirrors_stack (decode : string -> option string)
    (chunk : string) (calls : list ParserCall.t) :
  exists h,
    Handler.run (Parser.handler (Parser.run decode chunk calls)) Handler.reset = Some h
    /\ openNames h = (Some <$> Parser.stack (Parser.run decode chunk calls)) ++ [Some None].
Proof.
  destruct (run_tied decode chunk calls) as (h & Hrun & _ & _ & Hmir & _).
  by exists h.
Qed.

(** X15. In a finished tree no tag is a child of a tag that its own
    start tag closes implicitly: an [li] is never a child of an [li], a
    [p] never one of a [p], a [td] never one of a [td] or [th]. *)
Theorem no_tag_inside_a_tag_it_closes (decode : string -> option string)
    (chunk : string) (calls : list ParserCall.t) :
  exists h, build decode chunk calls = Some h
    /\ forall r p node up text close above,
         Handler.store h !! r = Some node -> parent node = Some p ->
         Handler.store h !! p = Some up ->
         name node = Some text -> get implicitClose text = Some close ->
         name up = Some above ->
         has close above = false.
Proof.
  destruct (run_tied decode chunk calls) as (h & Hrun & Ht).
  set (p := Parser.run decode chunk calls) in *.
  assert (proceeds p (Parser.onEnd p)) as Hend.
  { unfold Parser.onEnd. rewrite closeAll_spec.
    exists (replicate (length (Parser.stack p)) false), []. simpl.
    rewrite length_replicate, app_nil_r, <- fmap_replicate_flag.
    split; [done|]. split; [lia|]. left. split; [done|]. by rewrite drop_all. }
  destruct (proceeds_tied p (Parser.onEnd p) h Hend Ht Hrun) as (h' & Hrun' & _ & _ & _ & Hnest).
  exists h'. split; [exact Hrun'|].
  intros r q node up text close above Hr Hq Hup Htext Hclose Habove.
  apply (Hnest r q text close above); unfold field.
  - by rewrite Hr.
  - by rewrite Hr.
  - done.
  - by rewrite Hup.
Qed.

Lemma no_tag_inside_a_tag_it_closes_witness :
  exists h,
    build unresolved "<ul><li>A<li>B</ul>"
      [ParserCall.onStartTagName 1 3; ParserCall.onStartTagClose;
       ParserCall.onStartTagName 5 7; ParserCall.onStartTagClose;
       ParserCall.onText 8 9; ParserCall.onTextEnd;
       ParserCall.onStartTagName 10 12; ParserCall.onStartTagClose;
       ParserCall.onText 13 14; ParserCall.onTextEnd;
       ParserCall.onEndTagName 16 18] = Some h
    /\ (name <$> Handler.store h !! 4) = Some (Some "li"%string)
    /\ (parent <$> Handler.store h !! 4) = Some (Some 1)
    /\ has ["li"%string] "ul" = false.
Proof.
  destruct (no_tag_inside_a_tag_it_closes unresolved "<ul><li>A<li>B</ul>"
      [ParserCall.onStartTagName 1 3; ParserCall.onStartTagClose;
       ParserCall.onStartTagName 5 7; ParserCall.onStartTagClose;
       ParserCall.onText 8 9; ParserCall.onTextEnd;
       ParserCall.onStartTagName 10 12; ParserCall.onStartTagClose;
       ParserCall.onText 13 14; ParserCall.onTextEnd;
       ParserCall.onEndTagName 16 18]) as (h & Hb & Hn).
  exists h. split; [exact Hb|].
  vm_compute in Hb. injection Hb as <-.
  split; [reflexivity|]. split; [reflexivity|].
  exact (Hn 4 1 _ _ "li"%string ["li"%string] "ul"%string
           eq_refl eq_refl eq_refl eq_refl eq_refl eq_refl).
Defined.

(** ** White space: [trim], [split] and the token sets *)

Lemma trimStart_headed s : headed (JS.trimStart s).
Proof.
  induction s as [|c s IH]; [done|]. cbn [JS.trimStart].
  by destruct (JS.isSpace c) eqn:E.
Qed.

Lemma trimStart_id s : headed s -> JS.trimStart s = s.
Proof. destruct s as [|c s]; [done|]. cbn [headed JS.trimStart]. by intros ->. Qed.

Lemma trimEnd_headed s : headed s -> headed (JS.trimEnd s).
Proof.
  destruct s as [|c s]; [done|]. cbn [headed JS.trimEnd]. intros Hc.
  destruct (JS.trimEnd s); [by rewrite Hc|done].
Qed.

Lemma trimEnd_idem s : JS.trimEnd (JS.trimEnd s) = JS.trimEnd s.
Proof.
  induction s as [|c s IH]; [done|]. cbn [JS.trimEnd].
  destruct (JS.trimEnd s) as [|d r] eqn:E.
  - destruct (JS.isSpace c) eqn:Hc; [done|]. cbn [JS.trimEnd]. by rewrite Hc.
  - cbn [JS.trimEnd] in *. by rewrite IH.
Qed.

Lemma trim_idem s : JS.trim (JS.trim s) = JS.trim s.
Proof.
  unfold JS.trim.
  rewrite (trimStart_id (JS.trimEnd (JS.trimStart s)))
    by apply trimEnd_headed, trimStart_headed.
  apply trimEnd_idem.
Qed.

Lemma hasSpace_append s c :
  hasSpace (s +:+ String c EmptyString) = hasSpace s || JS.isSpace c.
Proof.
  induction s as [|d s IH].
  { change (JS.isSpace c || false = false || JS.isSpace c). by rewrite orb_false_r. }
  change (hasSpace (String d (s +:+ String c EmptyString))
          = hasSpace (String d s) || JS.isSpace c).
  cbn [hasSpace]. by rewrite IH, orb_assoc.
Qed.

Lemma splitFrom_words cur run s :
  hasSpace cur = false ->
  Forall (fun token => hasSpace token = false) (JS.splitFrom cur run s).
Proof.
  revert cur run. induction s as [|c s IH]; intros cur run Hcur; cbn [JS.splitFrom].
  - by constructor.
  - destruct (JS.isSpace c) eqn:Hc.
    + destruct run; [by apply IH|]. constructor; [done|]. by apply IH.
    + apply IH. by rewrite hasSpace_append, Hcur, Hc.
Qed.

Lemma trimEnd_tail c s :
  JS.trimEnd (String c s) = String c s ->
  s = EmptyString /\ JS.isSpace c = false \/ s ≠ EmptyString /\ JS.trimEnd s = s.
Proof.
  cbn [JS.trimEnd]. destruct (JS.trimEnd s) as [|d r] eqn:E.
  - destruct (JS.isSpace c); [done|]. intros [= <-]. by left.
  - intros [= <-]. by right.
Qed.

Lemma append_not_empty s c : s +:+ String c EmptyString ≠ EmptyString.
Proof. by destruct s. Qed.

Lemma splitFrom_filled cur run s :
  JS.trimEnd s = s ->
  (run = true -> s ≠ EmptyString) ->
  (run = false -> cur ≠ EmptyString \/ s ≠ EmptyString /\ headed s) ->
  Forall (fun token => token ≠ EmptyString) (JS.splitFrom cur run s).
Proof.
  revert cur run. induction s as [|c s IH]; intros cur run Hend Hrun Hcur;
    cbn [JS.splitFrom].
  - destruct run; [by destruct (Hrun eq_refl)|].
    destruct (Hcur eq_refl) as [?|[? _]]; [|done]. by constructor.
  - destruct (trimEnd_tail c s Hend) as [[-> Hc]|[Hs Hend']].
    + rewrite Hc. cbn [JS.splitFrom]. constructor; [apply append_not_empty|done].
    + destruct (JS.isSpace c) eqn:Hc.
      * destruct run; [by apply IH|].
        destruct (Hcur eq_refl) as [Hne|[_ Hhead]]; [|simpl in Hhead; congruence].
        constructor; [done|]. by apply IH.
      * apply IH; [done|done|]. intros _. left. apply append_not_empty.
Qed.

(** X16. The token set of a multi-valued attribute ([class], [rel],
    ...) holds distinct tokens without white space; they are not empty,
    unless the value is blank, whose set is the one holding the empty
    string. *)
Theorem tokens_are_distinct_words (value : string) :
  NoDup (Handler.tokens value)
  /\ Forall (fun token => hasSpace token = false) (Handler.tokens value)
  /\ (JS.trim value = EmptyString -> Handler.tokens value = [EmptyString])
  /\ (JS.trim value ≠ EmptyString ->
      Forall (fun token => token ≠ EmptyString) (Handler.tokens value)).
Proof.
  unfold Handler.tokens, JS.newSet, JS.splitWhitespace.
  split; [apply NoDup_remove_dups|]. split; [|split].
  - apply Forall_forall. intros token Hin. apply (proj1 (elem_of_remove_dups _ _)) in Hin.
    revert token Hin. apply Forall_forall. by apply splitFrom_words.
  - by intros ->.
  - intros Hne. apply Forall_forall. intros token Hin. apply (proj1 (elem_of_remove_dups _ _)) in Hin.
    revert token Hin. apply Forall_forall. apply splitFrom_filled.
    + unfold JS.trim. apply trimEnd_idem.
    + done.
    + intros _. right. split; [done|]. unfold JS.trim.
      apply trimEnd_headed, trimStart_headed.
Qed.

Lemma created_neat c node : neat c -> created c = Some node -> neatNode node.
Proof.
  intros Hc Hcr.
  destruct c; simpl in Hcr; try done; injection Hcr as <-; intros text; simpl;
    try done; by intros [= <-].
Qed.

Lemma Forall_neat_pops k b : Forall neat (replicate k (onEndTag b)).
Proof. induction k; by constructor. Qed.

Lemma receive_neat decode p c :
  Forall neat (Parser.handler p) ->
  Forall neat (Parser.handler (Parser.receive decode p c)).
Proof.
  intros Hall. destruct c; cbn [Parser.receive]; try done.
  - apply Forall_app. split; [done|]. repeat constructor. apply trim_idem.
  - unfold Parser.onStartTagClose.
    set (close := Parser.tagName p ≫= _).
    assert (exists k,
              match close with
              | Some close => Parser.closeImplicit close (Parser.stack p) p
              | None => p
              end =
              Parser.mk (Parser.handler p ++ replicate k (onEndTag false))
                (Parser.buffer p) (drop k (Parser.stack p)) (Parser.text p)
                (Parser.tagName p) (Parser.attributeName p)
                (Parser.attributeValue p) (Parser.attributes p)) as (k & ->).
    { destruct close as [close|].
      - destruct (closeImplicit_pops close p) as (k & _ & _ & _ & ?). eauto.
      - exists 0. destruct p. simpl. by rewrite app_nil_r. }
    cbn [Parser.tagName Parser.attributes].
    set (selfClosing := match Parser.tagName p with
                        | Some name => has emptyElements name
                        | None => false
                        end).
    assert (forall q, Parser.handler (Parser.set_attributes [] (Parser.set_tagName None q))
                      = Parser.handler q) as -> by done.
    assert (forall q, Parser.handler (if negb selfClosing
                                      then Parser.set_stack (Parser.tagName q :: Parser.stack q) q
                                      else q) = Parser.handler q) as ->
      by (intros q; by destruct selfClosing).
    simpl. apply Forall_app. split; [|by repeat constructor].
    apply Forall_app. split; [done|apply Forall_neat_pops].
  - unfold Parser.onEndTagName.
    destruct (has emptyElements _); [done|].
    destruct (_ =? _)%Z; [done|].
    rewrite closeDistance_spec. simpl.
    apply Forall_app. split; [done|].
    apply Forall_app. split; [apply Forall_neat_pops|by repeat constructor].
  - apply Forall_app. split; [done|]. repeat constructor. apply trim_idem.
  - apply Forall_app. split; [done|]. repeat constructor. apply trim_idem.
  - apply Forall_app. split; [done|]. repeat constructor. apply trimEnd_idem.
Qed.

Lemma run_neat decode chunk calls :
  Forall neat (Parser.handler (Parser.run decode chunk calls)).
Proof.
  unfold Parser.run. induction calls as [|c calls IH] using rev_ind; [done|].
  rewrite foldl_app. cbn [foldl]. by apply receive_neat.
Qed.

(** X17. In every finished tree the value of a text, comment or CDATA
    node has no white space at either end, and the value of a doctype
    node none at its end: [trim], for a doctype [trimEnd], leaves it as
    it is. *)
Theorem values_are_trimmed (decode : string -> option string)
    (chunk : string) (calls : list ParserCall.t) :
  exists h, build decode chunk calls = Some h
    /\ forall r node text,
         Handler.store h !! r = Some node -> value node = Some text ->
         match type node with
         | TEXT | COMMENT | CDATA => JS.trim text = text
         | DOCTYPE => JS.trimEnd text = text
         | _ => True
         end.
Proof.
  destruct (build_sound decode chunk calls) as (h & Hb & _ & _).
  exists h. split; [exact Hb|]. intros r node text Hr Hv.
  unfold build, Parser.onEnd in Hb. rewrite closeAll_spec in Hb. simpl in Hb.
  refine (run_nodes neatNode neat _ created_neat _ _ _ wf_reset _ _ Hb r node Hr text Hv).
  - intros node1 node2 Ht _ Hval. unfold neatNode. by rewrite Ht, Hval.
  - apply Forall_app. split; [apply run_neat|apply Forall_neat_pops].
  - intros [|[|]] node0; try done. intros [= <-] text' Hv'. by simpl in Hv'.
Qed.

Lemma values_are_trimmed_witness :
  exists h,
    build unresolved "<p> a </p>"
      [ParserCall.onStartTagName 1 2; ParserCall.onStartTagClose;
       ParserCall.onText 3 6; ParserCall.onTextEnd; ParserCall.onEndTagName 8 9]
    = Some h
    /\ (value <$> Handler.store h !! 2) = Some (Some "a"%string)
    /\ JS.trim "a" = "a"%string.
Proof.
  destruct (values_are_trimmed unresolved "<p> a </p>"
      [ParserCall.onStartTagName 1 2; ParserCall.onStartTagClose;
       ParserCall.onText 3 6; ParserCall.onTextEnd; ParserCall.onEndTagName 8 9])
    as (h & Hb & Hv).
  exists h. split; [exact Hb|].
  vm_compute in Hb. injection Hb as <-.
  split; [reflexivity|]. exact (Hv 2 _ "a"%string eq_refl eq_refl).
Defined.

(** ** Attributes *)

Lemma get_assign object key value :
  get (Parser.assign object key value) key = Some value.
Proof.
  induction object as [|[k v] object IH]; cbn [Parser.assign get].
  - by rewrite String.eqb_refl.
  - destruct (String.eqb k key) eqn:E; cbn [get].
    + apply String.eqb_eq in E as ->. by rewrite String.eqb_refl.
    + rewrite String.eqb_sym, E. exact IH.
Qed.

Lemma get_assign_other object key value other :
  other ≠ key -> get (Parser.assign object key value) other = get object other.
Proof.
  intros Hne. induction object as [|[k v] object IH]; cbn [Parser.assign get].
  - by rewrite (proj2 (String.eqb_neq _ _) Hne).
  - destruct (String.eqb k key) eqn:E; cbn [get].
    + apply String.eqb_eq in E as ->. by rewrite (proj2 (String.eqb_neq _ _) Hne).
    + by rewrite IH.
Qed.

Lemma assign_key object key value x :
  x ∈ (Parser.assign object key value).*1 -> x ∈ object.*1 \/ x = key.
Proof.
  induction object as [|[k v] object IH]; cbn [Parser.assign].
  - intros ->%list_elem_of_singleton. by right.
  - destruct (String.eqb k key); [by left|].
    intros [->|Hin]%elem_of_cons; [left; by left|].
    destruct (IH Hin); [left; by right|by right].
Qed.

Lemma assign_NoDup object key value :
  NoDup object.*1 -> NoDup (Parser.assign object key value).*1.
Proof.
  induction object as [|[k v] object IH]; cbn [Parser.assign].
  - intros _. apply NoDup_singleton.
  - destruct (String.eqb k key) eqn:E; [done|].
    intros [Hk Hnd]%NoDup_cons. apply NoDup_cons. split; [|by apply IH].
    intros [Hin|Heq]%assign_key; [done|]. simpl in Heq. subst k.
    by rewrite String.eqb_refl in E.
Qed.

(** X18. [onAttributeEnd] stores the joined value under the attribute
    name as an object does: a later value of the same name replaces the
    earlier one, the other attributes stay, no name comes twice, and the
    pending name and value are cleared. *)
Theorem later_attribute_value_wins (p : Parser.t) (key : string) :
  Parser.attributeName p = Some key -> key ≠ "__proto__"%string ->
  get (Parser.attributes (Parser.onAttributeEnd p)) key
  = Some (JS.join (Parser.attributeValue p))
  /\ (forall other, other ≠ key ->
        get (Parser.attributes (Parser.onAttributeEnd p)) other
        = get (Parser.attributes p) other)
  /\ (NoDup (Parser.attributes p).*1 ->
      NoDup (Parser.attributes (Parser.onAttributeEnd p)).*1)
  /\ Parser.attributeName (Parser.onAttributeEnd p) = None
  /\ Parser.attributeValue (Parser.onAttributeEnd p) = [].
Proof.
  intros Hname Hproto. unfold Parser.onAttributeEnd, Parser.setProperty.
  rewrite Hname. cbn [default from_option id].
  rewrite (proj2 (String.eqb_neq _ _) Hproto).
  cbn [Parser.attributes Parser.set_attributes Parser.set_attributeName
       Parser.set_attributeValue Parser.attributeName Parser.attributeValue].
  split; [apply get_assign|]. split; [intros other; apply get_assign_other|].
  split; [apply assign_NoDup|done].
Qed.

Lemma later_attribute_value_wins_witness :
  get (Parser.attributes
         (Parser.onAttributeEnd
            (Parser.mk [] "<a id=x id=y>" [] [] (Some "a") (Some "id") ["y"]
               [("id", "x")])))%string "id"
  = Some "y"%string.
Proof.
  exact (proj1 (later_attribute_value_wins
                  (Parser.mk [] "<a id=x id=y>" [] [] (Some "a") (Some "id") ["y"]
                     [("id", "x")])%string "id" eq_refl ltac:(discriminate))).
Defined.

Local Open Scope Z_scope.

(** ** Character classes of the Lexer *)

Lemma lor_ge char : 0 <= char -> char <= Z.lor char Character.SPACE.
Proof.
  intros Hc. pose proof (Z.add_lor_land char Character.SPACE) as Hadd.
  assert (Z.land char Character.SPACE <= Character.SPACE); [|lia].
  destruct (Z.testbit char 5) eqn:Hb.
  - assert (Z.land char Character.SPACE = Character.SPACE) as ->; [|lia].
    apply Z.bits_inj'. intros n Hn. rewrite Z.land_spec.
    destruct (Z.eq_dec n 5) as [->|Hne]; [by rewrite Hb|].
    replace (Z.testbit Character.SPACE n) with false; [by rewrite andb_false_r|].
    symmetry. change Character.SPACE with (2 ^ 5). by apply Z.pow2_bits_false.
  - assert (Z.land char Character.SPACE = 0) as ->; [|done].
    apply Z.bits_inj'. intros n Hn. rewrite Z.land_spec, Z.bits_0.
    destruct (Z.eq_dec n 5) as [->|Hne]; [by rewrite Hb|].
    replace (Z.testbit Character.SPACE n) with false; [by rewrite andb_false_r|].
    symmetry. change Character.SPACE with (2 ^ 5). by apply Z.pow2_bits_false.
Qed.



